(** * ip-monitor: the ping scheduling and reconciliation engine

    A shallow embedding of
      - src/workers/pingWorker.js      (pingIP, processIPs),
      - src/services/pingService.js    (pingInWorker, processBatchWithRetry,
                                        updatePingResults, runPingCycle),
      - the Downtime and IP models, found in src/utils/errorHandler.js
                                       (recordDowntime, updateDuration,
                                        bulkUpdateStatus),
      - src/server.js                  (startPingService),
    followed by the properties of the engine.

    MongoDB collections are lists of documents in natural order; the
    asynchronous code is sequential between its awaits, so every function
    that touches storage or the clock is a computation in a state-and-error
    monad over a [World]. Where the code hands its data to a library, the
    embedding follows what the library does with it: result.time of the
    ping library is a number or the string 'unknown', and Model.bulkWrite
    of mongoose with { ordered: false } leaves out the operations whose
    update does not cast to the schema and sends the others with their
    indexes sorted as strings. *)

From stdpp Require Import gmap strings list fin_maps.
From stdpp Require sorting pretty.
From Stdlib Require Import ZArith Lia.
From Stdlib Require Qcanon.

Set Warnings "-clear-no-such-hyp".

Open Scope list_scope.

(* ===================================================================== *)
(** ** Documents *)
(* ===================================================================== *)

(** ipSchema.status: enum ['Up', 'Down', 'Unknown'], default 'Unknown'. *)
Inductive Status := Up | Down | Unknown.

#[global] Instance Status_eq_dec : EqDecision Status.
Proof. solve_decision. Defined.

(** A document of the IP collection; only the fields the engine reads or
    writes (location and createdAt are never touched by it). responseTime
    is a Number or null; a number that is finite is a rational. *)
Record IPDoc := mkIP {
  ip_address : string;
  ip_status : Status;
  ip_downtimeCount : nat;
  ip_lastDowntime : option Z;
  ip_lastChecked : Z;
  ip_responseTime : option Qcanon.Qc
}.

(** A document of the Downtime collection. Its _id is its position in the
    collection: the engine only appends and updates in place. *)
Record DowntimeDoc := mkDowntime {
  dt_ipAddress : string;
  dt_timestamp : Z;
  dt_duration : option Z;
  dt_reason : string
}.

(** The time of an outcome. result.time of the ping library is a number of
    milliseconds (a float) or the string 'unknown', which the library
    leaves for a host that did not answer; the catch block of pingIP and
    the retry supervisor put null. *)
Inductive Time :=
| Ms (ms : Qcanon.Qc)
| UnknownTime
| NoTime.

#[global] Instance Time_eq_dec : EqDecision Time.
Proof. solve_decision. Defined.

(** What a worker reports for one address: {address, alive, time, error}. *)
Record ProbeOutcome := mkOutcome {
  address : string;
  alive : bool;
  time : Time;
  error : option string
}.

(* ===================================================================== *)
(** ** The world: storage, clock, storage faults *)
(* ===================================================================== *)

(** [clock n] is the value of the n-th clock read (new Date(), Date.now());
    [fault n] says whether the n-th storage operation rejects, and with
    which message. Both are fixed by the environment. *)
Record World := mkWorld {
  ips : list IPDoc;
  downtimes : list DowntimeDoc;
  clockReads : nat;
  storageOps : nat;
  clock : nat → Z;
  fault : nat → option string
}.

(** How an async call ends: its promise fulfils, rejects, or never settles. *)
Inductive Res (A : Type) :=
| Ok (a : A) (w : World)
| Throw (e : string) (w : World)
| Diverge.
Arguments Ok {A} a w.
Arguments Throw {A} e w.
Arguments Diverge {A}.

Definition M (A : Type) : Type := World → Res A.

Definition ret {A} (a : A) : M A := fun w => Ok a w.
Definition throw {A} (e : string) : M A := fun w => Throw e w.
Definition diverge {A} : M A := fun _ => Diverge.

Definition bind {A B} (m : M A) (k : A → M B) : M B :=
  fun w => match m w with
           | Ok a w' => k a w'
           | Throw e w' => Throw e w'
           | Diverge => Diverge
           end.

(** try { m } catch (error) { h error.message } *)
Definition try_catch {A} (m : M A) (h : string → M A) : M A :=
  fun w => match m w with
           | Ok a w' => Ok a w'
           | Throw e w' => h e w'
           | Diverge => Diverge
           end.

Declare Scope m_scope.
Delimit Scope m_scope with m.
Notation "'let!' x ':=' c 'in' k" := (bind c (fun x => k))
  (at level 10, x pattern, c at level 100, k at level 200) : m_scope.
Notation "c '>>' k" := (bind c (fun _ => k))
  (at level 190, right associativity) : m_scope.
Open Scope m_scope.

Definition setStores (i : list IPDoc) (d : list DowntimeDoc) (w : World) : World :=
  mkWorld i d (clockReads w) (storageOps w) (clock w) (fault w).

(** new Date() / Date.now() *)
Definition readClock : M Z :=
  fun w => Ok (clock w (clockReads w))
              (mkWorld (ips w) (downtimes w) (S (clockReads w)) (storageOps w)
                       (clock w) (fault w)).

(** One awaited storage operation: it rejects when the environment says so
    (leaving the stores as they were), and otherwise runs [op]. *)
Definition storage {A} (op : list IPDoc → list DowntimeDoc → A * list IPDoc * list DowntimeDoc) : M A :=
  fun w =>
    let w1 := mkWorld (ips w) (downtimes w) (clockReads w) (S (storageOps w))
                      (clock w) (fault w) in
    match fault w (storageOps w) with
    | Some e => Throw e w1
    | None => let '(a, i, d) := op (ips w) (downtimes w) in Ok a (setStores i d w1)
    end.

(* ===================================================================== *)
(** ** The Downtime model *)
(* ===================================================================== *)

Definition isOpenFor (a : string) (d : DowntimeDoc) : bool :=
  bool_decide (dt_ipAddress d = a) && bool_decide (dt_duration d = None).

(** findOne({ ipAddress, duration: null }).sort({ timestamp: -1 }): position
    and timestamp of the open record of [a] with the greatest timestamp (the
    earliest inserted one among equals). *)
Fixpoint findLatestOpen (a : string) (coll : list DowntimeDoc) : option (nat * Z) :=
  match coll with
  | [] => None
  | d :: rest =>
      let r := (fun p : nat * Z => (S p.1, p.2)) <$> findLatestOpen a rest in
      if isOpenFor a d then
        match r with
        | Some (j, t) => if (dt_timestamp d <? t)%Z then Some (j, t)
                         else Some (0, dt_timestamp d)
        | None => Some (0, dt_timestamp d)
        end
      else r
  end.

Definition setDuration (dur : Z) (d : DowntimeDoc) : DowntimeDoc :=
  mkDowntime (dt_ipAddress d) (dt_timestamp d) (Some dur) (dt_reason d).

(** downtimeSchema.statics.recordDowntime: a new record
    { ipAddress, timestamp: new Date(), duration: null } is saved; reason
    takes the schema default. The catch logs and rethrows. *)
Definition recordDowntime (ipAddress : string) : M DowntimeDoc :=
  try_catch
    (let! now := readClock in
     let downtimeRecord := mkDowntime ipAddress now None "Ping timeout" in
     storage (fun i d => (downtimeRecord, i, d ++ [downtimeRecord])))
    (fun e => throw e).

(** downtimeSchema.statics.updateDuration: { updated: true, duration } is
    [Some duration], { updated: false } is [None]. *)
Definition updateDuration (ipAddress : string) : M (option Z) :=
  try_catch
    (let! latestDowntime := storage (fun i d => (findLatestOpen ipAddress d, i, d)) in
     match latestDowntime with
     | Some (id, timestamp) =>
         let! now := readClock in
         let duration := (now - timestamp)%Z in
         storage (fun i d => (tt, i, alter (setDuration duration) id d)) >>
         ret (Some duration)
     | None => ret None
     end)
    (fun e => throw e).

(* ===================================================================== *)
(** ** The IP model *)
(* ===================================================================== *)

Definition statusOf (alive : bool) : Status := if alive then Up else Down.

(** updateOne / findOneAndUpdate with filter { address }: the first document
    with that address is updated, the others are left alone. *)
Fixpoint updateOne (a : string) (f : IPDoc → IPDoc) (coll : list IPDoc) : list IPDoc :=
  match coll with
  | [] => []
  | d :: rest => if bool_decide (ip_address d = a) then f d :: rest
                 else d :: updateOne a f rest
  end.

Definition matches (a : string) (coll : list IPDoc) : bool :=
  bool_decide (a ∈ ip_address <$> coll).

(** update.time || null: the number 0 is falsy, the string 'unknown' is
    not. *)
Definition orNull (t : Time) : Time :=
  match t with
  | Ms z => if bool_decide (z = Qc_of_Z 0) then NoTime else Ms z
  | UnknownTime => UnknownTime
  | NoTime => NoTime
  end.

(** One updateOne operation of bulkUpdateStatus, as built by updates.map:
    $set { status, lastChecked, responseTime }, $inc { downtimeCount: 1 }
    when the update is not alive. There is no upsert, so $setOnInsert never
    applies. responseTime is the value as the code puts it, before the
    schema casts it. *)
Record BulkOp := mkBulkOp {
  op_filter : string;
  op_status : Status;
  op_lastChecked : Z;
  op_responseTime : Time;
  op_inc : nat
}.

(** The cast of the update to the schema: responseTime is a Number, and
    the string 'unknown' is none; the other fields cast as they are. *)
Definition casts (o : BulkOp) : bool := bool_decide (op_responseTime o ≠ UnknownTime).

(** responseTime once cast. *)
Definition castTime (t : Time) : option Qcanon.Qc :=
  match t with
  | Ms z => Some z
  | UnknownTime => None
  | NoTime => None
  end.

Definition applyBulkOp (o : BulkOp) (d : IPDoc) : IPDoc :=
  mkIP (ip_address d) (op_status o) (ip_downtimeCount d + op_inc o)
       (ip_lastDowntime d) (op_lastChecked o) (castTime (op_responseTime o)).

(** updates.map(update => ...): lastChecked reads the clock, and so does the
    $setOnInsert argument of an update that is not alive. *)
Fixpoint buildBulkOps (updates : list ProbeOutcome) : M (list BulkOp) :=
  match updates with
  | [] => ret []
  | update :: rest =>
      let! lastChecked := readClock in
      let! _ := (if alive update then ret 0%Z else readClock) in
      let o := mkBulkOp (address update) (statusOf (alive update)) lastChecked
                        (orNull (time update)) (if alive update then 0 else 1) in
      let! os := buildBulkOps rest in
      ret (o :: os)
  end.

(** The server applying the operations it was sent, one after the other
    in the order it got them; the result counts those whose filter matched
    (a matched document is modified: lastChecked, and updatedAt with it,
    is set to the time of the call). *)
Fixpoint applyOps (ops : list BulkOp) (coll : list IPDoc) : nat * list IPDoc :=
  match ops with
  | [] => (0, coll)
  | o :: rest =>
      let coll' := updateOne (op_filter o) (applyBulkOp o) coll in
      let '(n, coll'') := applyOps rest coll' in
      ((if matches (op_filter o) coll then 1 else 0) + n, coll'')
  end.

(** Array.prototype.sort() without a comparator, on indexes: they are
    compared as the strings that write them in base 10, so that 10 comes
    before 2. *)
Definition asStrings (i j : nat) : Prop := String.le (pretty.pretty i) (pretty.pretty j).

#[global] Instance asStrings_dec : RelDecision asStrings.
Proof. intros i j. unfold asStrings. apply _. Defined.

(** The operations whose update casts, each with its index. *)
Definition validOps (ops : list BulkOp) : list (nat * BulkOp) :=
  filter (fun p => casts p.2 = true) (imap (fun i o => (i, o)) ops).

(** What Model.bulkWrite of mongoose 7 sends to the server when it is
    called with { ordered: false }: the operations whose update casts (the
    others are left out, their errors kept aside in the result), in the
    order validOps.sort() gives to their indexes. *)
Definition sentOps (ops : list BulkOp) : list BulkOp :=
  snd <$> sorting.merge_sort (fun p q => asStrings p.1 q.1) (validOps ops).

(** bulkWrite(bulkOps, { ordered: false }). When no operation is left the
    call fulfils with an empty result and the server is not asked. As a
    storage operation the write is all or nothing: when it rejects, no
    operation has been applied. *)
Definition bulkWrite (ops : list BulkOp) : M nat :=
  let sent := sentOps ops in
  if bool_decide (length sent = 0) then ret 0
  else storage (fun i d => let '(n, i') := applyOps sent i in (n, i', d)).

(** ipSchema.statics.bulkUpdateStatus; the result is modifiedCount. *)
Definition bulkUpdateStatus (updates : list ProbeOutcome) : M nat :=
  try_catch
    (if bool_decide (length updates = 0) then ret 0
     else
       let! bulkOps := buildBulkOps updates in
       bulkWrite bulkOps)
    (fun e => throw e).

(** IP.find({}, 'address status').lean() *)
Definition findAll : M (list (string * Status)) :=
  storage (fun i d => ((fun x => (ip_address x, ip_status x)) <$> i, i, d)).

(** IP.find({ address: { $in: addrs } }, 'address status').lean() *)
Definition findIn (addrs : list string) : M (list (string * Status)) :=
  storage (fun i d =>
    ((fun x => (ip_address x, ip_status x)) <$>
       filter (fun x => ip_address x ∈ addrs) i, i, d)).

(** IP.findOneAndUpdate({ address }, { lastDowntime: new Date(),
    $inc: { downtimeCount: 1 } }) *)
Definition markDown (now : Z) (d : IPDoc) : IPDoc :=
  mkIP (ip_address d) (ip_status d) (ip_downtimeCount d + 1) (Some now)
       (ip_lastChecked d) (ip_responseTime d).

Definition findOneAndUpdateDown (a : string) : M unit :=
  let! now := readClock in
  storage (fun i d => (tt, updateOne a (markDown now) i, d)).

(* ===================================================================== *)
(** ** The worker (src/workers/pingWorker.js) *)
(* ===================================================================== *)

(** What ping.promise.probe does for one address: it resolves with
    { alive, time, output }, or it rejects. *)
Inductive PingReply :=
| Replied (r_alive : bool) (r_time : Time) (r_output : string)
| ProbeFailed (message : string).

(** pingIP: every failure of the probe is caught and reported as an outcome. *)
Definition pingIP (probe : string → PingReply) (ipAddress : string) : ProbeOutcome :=
  match probe ipAddress with
  | Replied r_alive r_time r_output =>
      mkOutcome ipAddress r_alive r_time
        (if r_alive then None
         else Some (if bool_decide (r_output = ""%string) then "Ping failed"%string else r_output))
  | ProbeFailed message => mkOutcome ipAddress false NoTime (Some message)
  end.

(** processIPs: the message posted to the parent. No pingIP promise
    rejects, so Promise.all fulfils and the catch branch is never taken. *)
Definition processIPs (probe : string → PingReply) (ipAddresses : list string) : list ProbeOutcome :=
  pingIP probe <$> ipAddresses.

(** One execution of a worker thread, as the environment decides it: the
    worker runs to its postMessage, or it dies first ('error' event, or
    'exit' with a non-zero code). processIPs posts on every path, so a
    worker does not exit with code 0 without a message. *)
Inductive WorkerRun :=
| Completed (probe : string → PingReply)
| Crashed (message : string).

(* ===================================================================== *)
(** ** The ping service (src/services/pingService.js) *)
(* ===================================================================== *)

(** pingInWorker: the promise resolves with the posted results or rejects. *)
Definition pingInWorker (run : WorkerRun) (ipAddresses : list string) : string + list ProbeOutcome :=
  match run with
  | Completed probe => inr (processIPs probe ipAddresses)
  | Crashed message => inl message
  end.

Definition unreachable (ip : string) : ProbeOutcome :=
  mkOutcome ip false NoTime (Some "Worker thread failed after retries"%string).

(** processBatchWithRetry(batch, retries = 2); [runs k] is the k-th worker
    execution started for this batch. *)
Fixpoint processBatchWithRetry (runs : nat → WorkerRun) (batch : list string) (retries : nat)
  : list ProbeOutcome :=
  match pingInWorker (runs 0) batch with
  | inr results => results
  | inl _ =>
      match retries with
      | S retries' => processBatchWithRetry (fun k => runs (S k)) batch retries'
      | 0 => unreachable <$> batch
      end
  end.

Definition defaultRetries : nat := 2.

(** A status change pushed by updatePingResults: { address, from, to }. *)
Record StatusChange := mkChange {
  ch_address : string;
  ch_from : Status;
  ch_to : Status
}.

(** The body of results.forEach: ipStatusMap and statusChanges after one
    more result. currentStatus is truthy exactly when the map has the
    address (the three status strings are non-empty). *)
Definition scanResult (currentStatusMap : gmap string Status)
    (acc : gmap string ProbeOutcome * list StatusChange) (result : ProbeOutcome)
  : gmap string ProbeOutcome * list StatusChange :=
  let currentStatus := currentStatusMap !! address result in
  let newStatus := statusOf (alive result) in
  let ipStatusMap := <[address result := result]> acc.1 in
  match currentStatus with
  | Some s =>
      if bool_decide (s ≠ newStatus)
      then (ipStatusMap, acc.2 ++ [mkChange (address result) s newStatus])
      else (ipStatusMap, acc.2)
  | None => (ipStatusMap, acc.2)
  end.

Definition scanResults (currentStatusMap : gmap string Status) (results : list ProbeOutcome)
  : gmap string ProbeOutcome * list StatusChange :=
  foldl (scanResult currentStatusMap) (∅, []) results.

(** currentIps.forEach(ip => currentStatusMap.set(ip.address, ip.status)) *)
Definition buildStatusMap (currentIps : list (string * Status)) : gmap string Status :=
  foldl (fun m ip => <[ip.1 := ip.2]> m) ∅ currentIps.

(** The body of the loop over statusChanges. *)
Definition handleChange (change : StatusChange) : M unit :=
  if bool_decide (ch_to change = Down) then
    recordDowntime (ch_address change) >>
    findOneAndUpdateDown (ch_address change)
  else if bool_decide (ch_to change = Up) && bool_decide (ch_from change = Down) then
    updateDuration (ch_address change) >> ret tt
  else ret tt.

Fixpoint handleChanges (statusChanges : list StatusChange) : M unit :=
  match statusChanges with
  | [] => ret tt
  | change :: rest => handleChange change >> handleChanges rest
  end.

Record UpdateResult := mkUpdateResult {
  u_total : nat;
  u_updated : nat;
  u_statusChanges : nat
}.

(** updatePingResults. ipStatusMap is built and never read again. *)
Definition updatePingResults (results : list ProbeOutcome) : M UpdateResult :=
  try_catch
    (let! currentIps := findIn (address <$> results) in
     let currentStatusMap := buildStatusMap currentIps in
     let statusChanges := (scanResults currentStatusMap results).2 in
     handleChanges statusChanges >>
     let! modifiedCount := bulkUpdateStatus results in
     ret (mkUpdateResult (length results) modifiedCount (length statusChanges)))
    (fun e => throw e).

(** *** Partitioning *)

(** The numbers of the partitioning are counts, except that dividing a
    positive count by 0 gives Infinity. *)
Inductive Count := Fin (n : nat) | Infinity.

(** Math.ceil(a / b) for a positive count [a] (the only use: ipCount is
    not 0 where the division is made). *)
Definition ceilDiv (a b : nat) : Count :=
  if bool_decide (b = 0) then Infinity else Fin ((a + b - 1) `div` b).

(** Math.min(maxWorkers, c) *)
Definition minCount (maxWorkers : nat) (c : Count) : nat :=
  match c with
  | Fin n => maxWorkers `min` n
  | Infinity => maxWorkers
  end.

(** ipAddresses.slice(i, j) *)
Definition slice {A} (i j : nat) (l : list A) : list A := take (j - i) (drop i l).

(** for (let i = 0; i < ipCount; i += batchSize)
      batches.push(ipAddresses.slice(i, i + batchSize));
    [fuel] bounds the number of iterations; [None] when it does not
    suffice. *)
Fixpoint batchLoop {A} (fuel : nat) (i : nat) (batchSize : Count) (ipAddresses : list A)
  : option (list (list A)) :=
  if bool_decide (i < length ipAddresses) then
    match fuel with
    | 0 => None
    | S fuel' =>
        match batchSize with
        | Infinity => Some [drop i ipAddresses]
        | Fin b => (fun bs => slice i (i + b) ipAddresses :: bs) <$>
                     batchLoop fuel' (i + b) batchSize ipAddresses
        end
    end
  else Some [].

(** The two values of config/environment the cycle reads, as counts.
    validateConfig requires WORKER_COUNT to be positive; MAX_BATCH_SIZE is
    the result of parseInt and is not checked, so that 0 is covered here
    (the division gives Infinity), a negative or non-numeric value is not. *)
Record Config := mkConfig {
  WORKER_COUNT : nat;
  MAX_BATCH_SIZE : nat
}.

Definition optimalWorkerCount (config : Config) (ipCount : nat) : nat :=
  minCount (WORKER_COUNT config) (ceilDiv ipCount (MAX_BATCH_SIZE config)).

Definition batchSizeFor (config : Config) (ipCount : nat) : Count :=
  ceilDiv ipCount (optimalWorkerCount config ipCount).

(** The batches of a cycle; the loop runs at most ipCount times when it
    ends at all. *)
Definition partition {A} (config : Config) (ipAddresses : list A) : option (list (list A)) :=
  let ipCount := length ipAddresses in
  batchLoop ipCount 0 (batchSizeFor config ipCount) ipAddresses.

(** batches.map(batch => processBatchWithRetry(batch)), Promise.all and
    flat(): [env b] gives the worker executions of the b-th batch. The
    workers touch neither the stores nor the clock. *)
Definition dispatch (env : nat → nat → WorkerRun) (batches : list (list string))
  : list ProbeOutcome :=
  concat (imap (fun b batch => processBatchWithRetry (env b) batch defaultRetries) batches).

(** *** The cycle *)

(** What runPingCycle returns: { total, processed } on an empty collection,
    with changes, up and down after a completed cycle, with error after a
    failed one. *)
Record CycleResult := mkCycleResult {
  c_total : nat;
  c_processed : nat;
  c_changes : option nat;
  c_up : option nat;
  c_down : option nat;
  c_error : option string
}.

Definition countAlive (results : list ProbeOutcome) : nat :=
  length (filter (fun r => alive r = true) results).
Definition countNotAlive (results : list ProbeOutcome) : nat :=
  length (filter (fun r => alive r = false) results).

(** The outcomes of a cycle over the loaded targets, before they are
    handed to updatePingResults; [None] if the batch loop does not end. *)
Definition cycleOutcomes (config : Config) (env : nat → nat → WorkerRun)
    (loaded : list (string * Status)) : option (list ProbeOutcome) :=
  dispatch env <$> partition config (fst <$> loaded).

Definition runPingCycle (config : Config) (env : nat → nat → WorkerRun) : M CycleResult :=
  try_catch
    (let! loaded := findAll in
     if bool_decide (length loaded = 0) then
       ret (mkCycleResult 0 0 None None None None)
     else
       match cycleOutcomes config env loaded with
       | None => diverge
       | Some results =>
           let! updateResult := updatePingResults results in
           ret (mkCycleResult (length loaded) (length results)
                  (Some (u_statusChanges updateResult))
                  (Some (countAlive results)) (Some (countNotAlive results)) None)
       end)
    (fun e => ret (mkCycleResult 0 0 None None None (Some e))).

(* ===================================================================== *)
(** ** The driver (src/server.js, startPingService) *)
(* ===================================================================== *)

(** The event loop as far as the driver uses it: the time in milliseconds,
    the timer armed by setInterval (its period and the time of its next
    fire) and the start times of the calls of runPingCycle made so far, in
    the order of the calls. *)
Record Loop := mkLoop {
  now : Z;
  pingInterval : option (Z * Z);
  started : list Z
}.

(** pingService.runPingCycle() called from the loop: the cycle starts at
    once; its promise settles when it does, the loop does not wait for it
    (then and catch only log, and so does the awaiting callback of the
    timer). *)
Definition callRunPingCycle (l : Loop) : Loop :=
  mkLoop (now l) (pingInterval l) (started l ++ [now l]).

(** pingInterval = setInterval(callback, ms): the timer is armed for
    now + ms. *)
Definition setInterval (ms : Z) (l : Loop) : Loop :=
  mkLoop (now l) (Some (ms, now l + ms)%Z) (started l).

(** startPingService: the first cycle at once, then the timer. *)
Definition startPingService (PING_INTERVAL : Z) (l : Loop) : Loop :=
  setInterval PING_INTERVAL (callRunPingCycle l).

(** One fire of the timer: the time is that of the fire, the timer is armed
    again one period later and the callback runs, which calls
    runPingCycle. Timers fire on time here: a loop kept busy would only
    fire later. *)
Definition fire (l : Loop) : Loop :=
  match pingInterval l with
  | Some (ms, next) => callRunPingCycle (mkLoop next (Some (ms, next + ms)%Z) (started l))
  | None => l
  end.

(** The loop after startPingService, called at time 0, and [fires] fires of
    the timer. *)
Definition driver (PING_INTERVAL : Z) (fires : nat) : Loop :=
  Nat.iter fires fire (startPingService PING_INTERVAL (mkLoop 0 None [])).

(** When cycle k starts: cycle 0 is the immediate one, cycle k the one of
    the k-th fire. *)
Definition cycleStart (PING_INTERVAL : Z) (k : nat) : Z :=
  default 0%Z (started (driver PING_INTERVAL k) !! k).

(** When the promise of cycle k settles, if the cycle takes [duration k]. *)
Definition cycleSettle (PING_INTERVAL : Z) (duration : nat → Z) (k : nat) : Z :=
  (cycleStart PING_INTERVAL k + duration k)%Z.

(* ===================================================================== *)
(** ** The reconciliation when no storage operation fails *)
(* ===================================================================== *)

(** No storage operation fails from now on. *)
Definition NoFaults (w : World) : Prop := ∀ n, storageOps w ≤ n → fault w n = None.

(** The world after [reads] more clock reads and [ops] more storage
    operations that left the stores as [i] and [d]. *)
Definition advance (reads ops : nat) (i : list IPDoc) (d : list DowntimeDoc) (w : World) : World :=
  mkWorld i d (reads + clockReads w) (ops + storageOps w) (clock w) (fault w).

(** The world after one status change has been handled. *)
Definition stepChange (w : World) (c : StatusChange) : World :=
  let a := ch_address c in
  let n := clockReads w in
  if bool_decide (ch_to c = Down) then
    advance 2 2 (updateOne a (markDown (clock w (S n))) (ips w))
            (downtimes w ++ [mkDowntime a (clock w n) None "Ping timeout"]) w
  else if bool_decide (ch_to c = Up) && bool_decide (ch_from c = Down) then
    match findLatestOpen a (downtimes w) with
    | Some (j, t) =>
        advance 1 2 (ips w) (alter (setDuration (clock w n - t)) j (downtimes w)) w
    | None => advance 0 1 (ips w) (downtimes w) w
    end
  else w.

(** The operations built by bulkUpdateStatus when the clock has been read
    [n] times, and the number of clock reads that takes. *)
Fixpoint bulkOpsAt (clk : nat → Z) (n : nat) (updates : list ProbeOutcome) : list BulkOp :=
  match updates with
  | [] => []
  | update :: rest =>
      mkBulkOp (address update) (statusOf (alive update)) (clk n)
               (orNull (time update)) (if alive update then 0 else 1)
      :: bulkOpsAt clk ((if alive update then 1 else 2) + n) rest
  end.

Fixpoint bulkReads (updates : list ProbeOutcome) : nat :=
  match updates with
  | [] => 0
  | update :: rest => (if alive update then 1 else 2) + bulkReads rest
  end.

(** The state of a reconciliation without storage faults. *)
Definition project (coll : list IPDoc) : list (string * Status) :=
  (fun x => (ip_address x, ip_status x)) <$> coll.

Definition currentStatusMapOf (results : list ProbeOutcome) (coll : list IPDoc)
  : gmap string Status :=
  buildStatusMap (project (filter (fun x => ip_address x ∈ address <$> results) coll)).

Definition statusChangesOf (results : list ProbeOutcome) (coll : list IPDoc)
  : list StatusChange :=
  (scanResults (currentStatusMapOf results coll) results).2.

(** The world once the status changes of [results] have been handled. *)
Definition afterChanges (results : list ProbeOutcome) (w : World) : World :=
  foldl stepChange (advance 0 1 (ips w) (downtimes w) w) (statusChangesOf results (ips w)).

(** The operations the bulk update of [results] sends, when the status
    changes have been handled. *)
Definition sentFor (results : list ProbeOutcome) (w : World) : list BulkOp :=
  let w2 := afterChanges results w in
  sentOps (bulkOpsAt (clock w2) (clockReads w2) results).

(** The world once [results] have been reconciled. *)
Definition afterReconcile (results : list ProbeOutcome) (w : World) : World :=
  let w2 := afterChanges results w in
  if bool_decide (length results = 0) then w2
  else if bool_decide (length (sentFor results w) = 0)
       then advance (bulkReads results) 0 (ips w2) (downtimes w2) w2
       else advance (bulkReads results) 1
              (applyOps (sentFor results w) (ips w2)).2 (downtimes w2) w2.

Definition modifiedCountOf (results : list ProbeOutcome) (w : World) : nat :=
  let w2 := afterChanges results w in
  if bool_decide (length results = 0) then 0
  else (applyOps (sentFor results w) (ips w2)).1.

(** The promise of [m] fulfils or rejects; it does not stay pending. *)
Definition Settles {A} (m : M A) : Prop := ∀ w, m w ≠ Diverge.

(** What runPingCycle returns from its catch block. *)
Definition failedCycle (e : string) : CycleResult := mkCycleResult 0 0 None None None (Some e).

(* ===================================================================== *)
(** ** What the properties speak about *)
(* ===================================================================== *)

(** IP.findOne({ address }): the first document with that address. *)
Fixpoint findOne (a : string) (coll : list IPDoc) : option IPDoc :=
  match coll with
  | [] => None
  | d :: rest => if bool_decide (ip_address d = a) then Some d else findOne a rest
  end.

(** The recorded status of an address, if it has a document. *)
Definition statusAt (a : string) (w : World) : option Status :=
  ip_status <$> findOne a (ips w).

(** The unique index on ipSchema.address. *)
Definition UniqueAddresses (coll : list IPDoc) : Prop := NoDup (ip_address <$> coll).

(** The downtime events of an address, oldest insertion first. *)
Definition eventsOf (a : string) (dts : list DowntimeDoc) : list DowntimeDoc :=
  filter (fun d => dt_ipAddress d = a) dts.

(** The number of open events (duration = null) of an address. *)
Definition openCount (a : string) (dts : list DowntimeDoc) : nat :=
  length (filter (fun d => dt_duration d = None) (eventsOf a dts)).

(** The status change pushed for one result, if any. *)
Definition changeOf (currentStatusMap : gmap string Status) (result : ProbeOutcome)
  : option StatusChange :=
  match currentStatusMap !! address result with
  | Some s =>
      if bool_decide (s ≠ statusOf (alive result))
      then Some (mkChange (address result) s (statusOf (alive result)))
      else None
  | None => None
  end.

(** Serial reconciliation: each call starts when the previous one has
    fulfilled. *)
Fixpoint reconcileAll (cycles : list (list ProbeOutcome)) : M unit :=
  match cycles with
  | [] => ret tt
  | results :: rest => updatePingResults results >> reconcileAll rest
  end.

(** What updateDuration does to a list of events at time [now]. *)
Definition closeLatest (a : string) (now : Z) (dts : list DowntimeDoc) : list DowntimeDoc :=
  match findLatestOpen a dts with
  | Some (j, t) => alter (setDuration (now - t)) j dts
  | None => dts
  end.

(* ===================================================================== *)
(** ** Concrete worlds and environments *)
(* ===================================================================== *)

(** The defaults of the configuration on a machine with four cores or
    more: WORKER_COUNT 'auto' resolves to 4, MAX_BATCH_SIZE is 50. *)
Definition defaultConfig : Config := mkConfig 4 50.

Definition clockFrom (t0 : Z) : nat → Z := fun n => (t0 + Z.of_nat n)%Z.

Definition noFault : nat → option string := fun _ => None.


Definition freshWorld (coll : list IPDoc) (dts : list DowntimeDoc)
    (fault : nat → option string) : World :=
  mkWorld coll dts 0 0 (clockFrom 1000) fault.

(** A document as the schema defaults leave it at registration. *)
Definition registered (a : string) : IPDoc := mkIP a Unknown 0 None 0 None.

Definition knownUp (a : string) : IPDoc := mkIP a Up 0 None 0 (Some (Qc_of_Z 12)).

(** The outcome of a probe that rejected: its time is null. *)
Definition isDown (a : string) : ProbeOutcome :=
  mkOutcome a false NoTime (Some "Ping failed"%string).

(** The outcome of a probe that got no answer: the ping library resolves
    with alive false and time 'unknown'. *)
Definition noAnswer (a : string) : ProbeOutcome :=
  mkOutcome a false UnknownTime (Some "Ping failed"%string).

(** Every worker completes and no host answers. *)
Definition allDown : nat → nat → WorkerRun :=
  fun _ _ => Completed (fun _ => Replied false UnknownTime "").

(** Every worker completes and every host answers in 12 ms. *)
Definition allUp : nat → nat → WorkerRun :=
  fun _ _ => Completed (fun _ => Replied true (Ms (Qc_of_Z 12)) "").

(** Every worker dies. *)
Definition allCrash : nat → nat → WorkerRun := fun _ _ => Crashed "exit code 1".

(** The status change of a result against the status recorded in [w]. *)
Definition changeAgainst (w : World) (result : ProbeOutcome) : option StatusChange :=
  match statusAt (address result) w with
  | Some s =>
      if bool_decide (s ≠ statusOf (alive result))
      then Some (mkChange (address result) s (statusOf (alive result)))
      else None
  | None => None
  end.
(* ===================================================================== *)
(** * Around the engine

    Further functions of the same files and of their callers:
      - the Downtime model: countByIpAddress, getDowntimeHistory,
      - the IP model: validateIPAddress, getStatusCounts and the instance
        method getDowntimeHistory,
      - src/controllers/ipController.js: getStatusCounts, deleteIP,
      - src/controllers/downtimeController.js: getDowntimeHistory,
      - the CSV service and the view routes (src/unnamed/part_000 and
        part_004): formatDuration and the durationFormatted column,
    with what is needed to state their properties. *)
(* ===================================================================== *)

From stdpp Require sorting pretty.


(* ===================================================================== *)
(** ** What a call may do to the stores *)
(* ===================================================================== *)

(** The IP collection [coll'] has the documents of [coll], at the same
    positions and with the same addresses, and no downtimeCount is lower. *)
Definition KeepsTargets (coll coll' : list IPDoc) : Prop :=
  ip_address <$> coll' = ip_address <$> coll
  ∧ ∀ i d, coll !! i = Some d →
      ∃ d', coll' !! i = Some d' ∧ ip_downtimeCount d ≤ ip_downtimeCount d'.

(** The Downtime collection [dts'] has the events of [dts] at the same
    positions, for the same address and with the same start and reason;
    an event that was closed is as it was. *)
Definition KeepsEvents (dts dts' : list DowntimeDoc) : Prop :=
  ∀ i e, dts !! i = Some e →
    ∃ e', dts' !! i = Some e'
          ∧ dt_ipAddress e' = dt_ipAddress e
          ∧ dt_timestamp e' = dt_timestamp e
          ∧ dt_reason e' = dt_reason e
          ∧ (dt_duration e ≠ None → e' = e).

Definition Extends (w w' : World) : Prop :=
  KeepsTargets (ips w) (ips w') ∧ KeepsEvents (downtimes w) (downtimes w')
  ∧ clock w' = clock w ∧ fault w' = fault w
  ∧ clockReads w ≤ clockReads w' ∧ storageOps w ≤ storageOps w'.

(** However [m] ends, it has only extended the world. *)
Definition Keeps {A} (m : M A) : Prop :=
  ∀ w, match m w with
       | Ok _ w' => Extends w w'
       | Throw _ w' => Extends w w'
       | Diverge => True
       end.

(** The outcomes among [cycles] that found the address [a] not alive with
    a time other than 'unknown': those whose bulk update, with its $inc of
    downtimeCount, is sent. *)
Definition downChecks (a : string) (cycles : list (list ProbeOutcome)) : nat :=
  length (filter (fun r => address r = a ∧ alive r = false ∧ time r ≠ UnknownTime)
            (concat cycles)).

(** No probe of the cycle resolves with time 'unknown': whenever the
    probe of a worker resolves, it carries a number as time (the host
    answered). *)
Definition TimedReplies (env : nat → nat → WorkerRun) : Prop :=
  ∀ b k probe ip r_alive r_time r_output,
    env b k = Completed probe → probe ip = Replied r_alive r_time r_output →
    r_time ≠ UnknownTime.

(** downtimeSchema.statics.countByIpAddress: countDocuments({ ipAddress }). *)
Definition countByIpAddress (ipAddress : string) : M nat :=
  try_catch
    (storage (fun i d => (length (eventsOf ipAddress d), i, d)))
    (fun e => throw e).

(* ===================================================================== *)
(** ** The status counts of the dashboard *)
(* ===================================================================== *)

(** The status as the string the documents hold. *)
Definition statusName (s : Status) : string :=
  match s with
  | Up => "Up"
  | Down => "Down"
  | Unknown => "Unknown"
  end.

(** One more document for the $group stage
    { _id: '$status', count: { $sum: 1 } }: the count of its group grows,
    or a group is started. *)
Definition addToGroup (groups : list (Status * nat)) (s : Status) : list (Status * nat) :=
  if bool_decide (s ∈ groups.*1)
  then (fun g => if bool_decide (g.1 = s) then (g.1, S g.2) else g) <$> groups
  else groups ++ [(s, 1)].

(** The groups come in the order in which their status first occurs;
    MongoDB promises no order, and the controller reads them by key. *)
Definition groupByStatus (coll : list IPDoc) : list (Status * nat) :=
  foldl addToGroup [] (ip_status <$> coll).

(** ipSchema.statics.getStatusCounts: [{ _id, count }]. *)
Definition getStatusCounts : M (list (Status * nat)) :=
  try_catch
    (storage (fun i d => (groupByStatus i, i, d)))
    (fun e => throw e).

Definition statuses : list string := ["Up"; "Down"; "Unknown"]%string.

(** !result[status]: undefined and 0 are falsy. *)
Definition falsy (v : option nat) : bool :=
  match v with
  | Some (S _) => false
  | _ => true
  end.

(** The object built by the controller: the counts by status name, 0 for a
    status without group, and Total. *)
Definition statusCountsObject (counts : list (Status * nat)) : gmap string nat :=
  let result := foldl (fun r item => <[statusName item.1 := item.2]> r) ∅ counts in
  let result := foldl (fun r status => if falsy (r !! status) then <[status := 0]> r else r)
                      result statuses in
  <["Total"%string := foldl (fun sum status => sum + default 0 (result !! status)) 0 statuses]>
    result.

(** exports.getStatusCounts of controllers/ipController.js: the data of the
    response; an error goes to next(error). *)
Definition statusCountsHandler : M (gmap string nat) :=
  try_catch
    (let! counts := getStatusCounts in
     ret (statusCountsObject counts))
    (fun e => throw e).

(** How often a status occurs. *)
Definition occurrences (s : Status) (l : list Status) : nat := length (filter (eq s) l).

(** The documents of a collection with a given status. *)
Definition withStatus (s : Status) (coll : list IPDoc) : list IPDoc :=
  filter (fun d => ip_status d = s) coll.

(* ===================================================================== *)
(** ** The downtime history *)
(* ===================================================================== *)

(** The filters of getDowntimeHistory: ipAddress is absent or a string;
    startDate and endDate are absent (or empty, which is falsy as well) or
    a string that new Date reads as the given time; limit is absent (or
    empty) or a value that parseInt reads as a count, the '0' of a request
    included. A date that new Date cannot read and a limit that is
    negative or no number are not covered. *)
Record HistoryFilters := mkFilters {
  f_ipAddress : option string;
  f_startDate : option Z;
  f_endDate : option Z;
  f_limit : option nat
}.

(** filters.ipAddress && filters.ipAddress !== 'All': the address the
    query asks for, if any. *)
Definition queriedAddress (filters : HistoryFilters) : option string :=
  match f_ipAddress filters with
  | Some a =>
      if bool_decide (a ≠ ""%string) && bool_decide (a ≠ "All"%string) then Some a else None
  | None => None
  end.

(** The query built from the filters, as a test on an event. *)
Definition historyQuery (filters : HistoryFilters) (e : DowntimeDoc) : bool :=
  match queriedAddress filters with
  | Some a => bool_decide (dt_ipAddress e = a)
  | None => true
  end
  && match f_startDate filters, f_endDate filters with
     | Some s, Some t => (s <=? dt_timestamp e)%Z && (dt_timestamp e <=? t)%Z
     | Some s, None => (s <=? dt_timestamp e)%Z
     | None, Some t => (dt_timestamp e <=? t)%Z
     | None, None => true
     end.

(** .sort({ timestamp: -1 }); the properties below do not depend on the
    order the sort gives to events of equal timestamp. *)
Definition newerFirst (x y : DowntimeDoc) : Prop := (dt_timestamp y ≤ dt_timestamp x)%Z.

#[global] Instance newerFirst_dec : RelDecision newerFirst.
Proof. intros x y. unfold newerFirst. apply _. Defined.

Definition sortNewestFirst (l : list DowntimeDoc) : list DowntimeDoc := sorting.merge_sort newerFirst l.

(** .limit(n): 0 is no limit. *)
Definition limitTo {A} (n : nat) (l : list A) : list A :=
  if bool_decide (n = 0) then l else take n l.

(** downtimeSchema.statics.getDowntimeHistory; limit is
    filters.limit ? parseInt(filters.limit, 10) : 0. *)
Definition getDowntimeHistory (filters : HistoryFilters) : M (list DowntimeDoc) :=
  try_catch
    (let limit := match f_limit filters with Some n => n | None => 0 end in
     storage (fun i d =>
       (limitTo limit (sortNewestFirst (filter (fun e => historyQuery filters e) d)), i, d)))
    (fun e => throw e).

(** exports.getDowntimeHistory of controllers/downtimeController.js: the
    data of the response for the parameters of the request; limit is
    req.query.limit || 100, and an error goes to next(error). *)
Definition downtimeHistoryHandler (query : HistoryFilters) : M (list DowntimeDoc) :=
  try_catch
    (let filters := mkFilters (f_ipAddress query) (f_startDate query) (f_endDate query)
                      (match f_limit query with Some n => Some n | None => Some 100 end) in
     getDowntimeHistory filters)
    (fun e => throw e).

(** ipSchema.methods.getDowntimeHistory(limit = 10), on the document
    [this]. *)
Definition IP_getDowntimeHistory (this : IPDoc) (limit : option nat) : M (list DowntimeDoc) :=
  try_catch
    (storage (fun i d =>
       (limitTo (default 10 limit) (sortNewestFirst (eventsOf (ip_address this) d)), i, d)))
    (fun e => throw e).

(* ===================================================================== *)
(** ** The validation of an address (validateIPAddress of the IP model) *)
(* ===================================================================== *)

(** A string is read as the list of its characters. A character that is
    not ASCII is neither a digit nor a dot, whatever its code. *)

Import Stdlib.Strings.Ascii (ascii(..)).
Import (notations) Stdlib.Strings.Ascii.
Import Stdlib.Strings.String (list_ascii_of_string).

(** \d *)
Definition isDigit (c : ascii) : bool :=
  match Ascii.is_nat c with
  | Some _ => true
  | None => false
  end.

Definition digitValue (c : ascii) : Z := Z.of_nat (default 0 (Ascii.is_nat c)).

(** The regular expressions the validation needs: \d, one character,
    r s, and r{lo,hi}. *)
Inductive Regex :=
| Digit
| Lit (c : ascii)
| Seq (r s : Regex)
| Rep (r : Regex) (lo hi : nat).

(** [f] matched [n] times in a row from the start of [s]: what is left of
    [s], for every way to do it. *)
Fixpoint matchTimes (f : list ascii → list (list ascii)) (n : nat) (s : list ascii)
  : list (list ascii) :=
  match n with
  | 0 => [s]
  | S n' => f s ≫= matchTimes f n'
  end.

(** [r] matched at the start of [s]: what is left of [s], for every way
    to match. *)
Fixpoint matchRegex (r : Regex) (s : list ascii) : list (list ascii) :=
  match r with
  | Digit =>
      match s with
      | c :: s' => if isDigit c then [s'] else []
      | [] => []
      end
  | Lit a =>
      match s with
      | c :: s' => if bool_decide (c = a) then [s'] else []
      | [] => []
      end
  | Seq r1 r2 => matchRegex r1 s ≫= matchRegex r2
  | Rep r' lo hi => seq lo (S hi - lo) ≫= (fun n => matchTimes (matchRegex r') n s)
  end.

(** The strings a regular expression matches as a whole. *)
Fixpoint lang (r : Regex) (o : list ascii) : Prop :=
  match r with
  | Digit => ∃ c, o = [c] ∧ isDigit c = true
  | Lit a => o = [a]
  | Seq r1 r2 => ∃ o1 o2, o = o1 ++ o2 ∧ lang r1 o1 ∧ lang r2 o2
  | Rep r' lo hi => ∃ os, lo ≤ length os ≤ hi ∧ Forall (lang r') os ∧ o = concat os
  end.

(** /^r$/.test(s) *)
Definition regexTest (r : Regex) (s : list ascii) : bool :=
  bool_decide ([] ∈ matchRegex r s).

(** /^(\d{1,3}\.){3}\d{1,3}$/ *)
Definition ipv4Pattern : Regex :=
  Seq (Rep (Seq (Rep Digit 1 3) (Lit "."%char)) 3 3) (Rep Digit 1 3).

(** s.split(sep) for a separator of one character. *)
Fixpoint splitOn (sep : ascii) (s : list ascii) : list (list ascii) :=
  match s with
  | [] => [[]]
  | c :: s' =>
      if bool_decide (c = sep) then [] :: splitOn sep s'
      else match splitOn sep s' with
           | p :: ps => (c :: p) :: ps
           | [] => [[c]]
           end
  end.

(** The digits at the start of [s] as a number in base 10, from [acc];
    [None] when there is none. *)
Fixpoint leadingDigits (acc : option Z) (s : list ascii) : option Z :=
  match s with
  | c :: s' =>
      if isDigit c then leadingDigits (Some (10 * default 0%Z acc + digitValue c)%Z) s'
      else acc
  | [] => acc
  end.

Fixpoint skipSpaces (s : list ascii) : list ascii :=
  match s with
  | c :: s' => if Ascii.is_space c then skipSpaces s' else s
  | [] => []
  end.

(** parseInt(s, 10): white space is skipped, a sign is read, then the
    digits up to the first other character; [None] is NaN. The value is
    exact as long as a double holds it, which is so for the strings the
    validation lets through to here (three digits at most). *)
Definition parseInt10 (s : list ascii) : option Z :=
  match skipSpaces s with
  | "-"%char :: s' => Z.opp <$> leadingDigits None s'
  | "+"%char :: s' => leadingDigits None s'
  | s' => leadingDigits None s'
  end.

(** validateIPAddress *)
Definition validateIPAddress (address : string) : bool :=
  let chars := list_ascii_of_string address in
  if negb (regexTest ipv4Pattern chars) then false
  else forallb (fun octet =>
                  match parseInt10 octet with
                  | Some num => (0 <=? num)%Z && (num <=? 255)%Z
                  | None => false
                  end)
               (splitOn "."%char chars).

(** The number a string of digits writes in base 10. *)
Definition decimal (o : list ascii) : Z :=
  foldl (fun acc c => (10 * acc + digitValue c)%Z) 0%Z o.

(** One to three digits. *)
Definition isDigits13 (o : list ascii) : Prop :=
  1 ≤ length o ≤ 3 ∧ Forall (fun c => isDigit c = true) o.

(** One to three digits that write a number up to 255. *)
Definition isOctet (o : list ascii) : Prop := isDigits13 o ∧ (decimal o ≤ 255)%Z.

(** The address the four strings make with dots between them. *)
Definition dotted (o1 o2 o3 o4 : list ascii) : list ascii :=
  o1 ++ "."%char :: o2 ++ "."%char :: o3 ++ "."%char :: o4.

(** Four numbers written in base 10 with dots between them. *)
Definition dottedQuad (a b c d : nat) : string :=
  pretty.pretty a +:+ "." +:+ pretty.pretty b +:+ "." +:+ pretty.pretty c +:+ "."
  +:+ pretty.pretty d.

(* ===================================================================== *)
(** ** Removing a target (deleteIP of controllers/ipController.js) *)
(* ===================================================================== *)

(** IP.deleteOne({ address }): the first document with that address is
    removed; the result is deletedCount. *)
Fixpoint deleteOne (a : string) (coll : list IPDoc) : nat * list IPDoc :=
  match coll with
  | [] => (0, [])
  | d :: rest =>
      if bool_decide (ip_address d = a) then (1, rest)
      else let '(n, rest') := deleteOne a rest in (n, d :: rest')
  end.

(** What deleteIP answers: 404 'IP address not found' or 200 'IP address
    deleted'. *)
Inductive DeleteReply := NotFound | Deleted.

(** exports.deleteIP; an error goes to next(error). The Downtime
    collection is not touched. *)
Definition deleteIP (address : string) : M DeleteReply :=
  try_catch
    (let! deletedCount := storage (fun i d => let '(n, i') := deleteOne address i in (n, i', d)) in
     if bool_decide (deletedCount = 0) then ret NotFound else ret Deleted)
    (fun e => throw e).

(* ===================================================================== *)
(** ** The text of a duration (formatDuration) *)
(* ===================================================================== *)

(** formatDuration(ms), for a duration that is null or a whole number of
    milliseconds: Math.floor(x / y) is the floored quotient, % the
    remainder of the truncated division, and a number is written in
    base 10. *)
Definition formatDuration (ms : option Z) : string :=
  match ms with
  | None => ""
  | Some ms =>
      if bool_decide (ms = 0%Z) then ""
      else
        let seconds := (ms `div` 1000)%Z in
        let minutes := (seconds `div` 60)%Z in
        let hours := (minutes `div` 60)%Z in
        if bool_decide (0 < hours)%Z then
          pretty.pretty hours +:+ "h " +:+ pretty.pretty (minutes `rem` 60)%Z +:+ "m "
          +:+ pretty.pretty (seconds `rem` 60)%Z +:+ "s"
        else if bool_decide (0 < minutes)%Z then
          pretty.pretty minutes +:+ "m " +:+ pretty.pretty (seconds `rem` 60)%Z +:+ "s"
        else pretty.pretty seconds +:+ "s"
  end.

(** dt.duration ? formatDuration(dt.duration) : 'Ongoing', the column of
    exportDowntimeCSV and of the detail page. *)
Definition durationFormatted (dt : DowntimeDoc) : string :=
  match dt_duration dt with
  | Some duration =>
      if bool_decide (duration = 0%Z) then "Ongoing" else formatDuration (Some duration)
  | None => "Ongoing"
  end.

(** The digits a text starts with, and what follows them. *)
Fixpoint spanDigits (s : list ascii) : list ascii * list ascii :=
  match s with
  | c :: s' =>
      if isDigit c then let '(digits, rest) := spanDigits s' in (c :: digits, rest)
      else ([], s)
  | [] => ([], [])
  end.

(* ===================================================================== *)
(** ** Partitioning: the batches cover the targets *)
(* ===================================================================== *)

Section Partition.
Context {A : Type}.
Implicit Types (l : list A) (batchSize : Count).

Lemma slice_drop i b l : slice i (i + b) l ++ drop (i + b) l = drop i l.
Proof.
  unfold slice. replace (i + b - i) with b by lia.
  rewrite <- drop_drop. apply take_drop.
Qed.

(** The batches are consecutive slices: put back together they are the
    targets from [i] on. *)
Lemma batchLoop_concat fuel : ∀ i batchSize l batches,
  batchLoop fuel i batchSize l = Some batches → concat batches = drop i l.
Proof.
  induction fuel as [|fuel IH]; intros i batchSize l batches; simpl.
  - case_bool_decide as Hi; [discriminate|].
    intros [= <-]. simpl. symmetry. apply drop_ge. lia.
  - case_bool_decide as Hi.
    + destruct batchSize as [b|].
      * destruct (batchLoop fuel (i + b) (Fin b) l) as [bs|] eqn:E; [|discriminate].
        intros [= <-]. simpl. rewrite (IH _ _ _ _ E). apply slice_drop.
      * intros [= <-]. simpl. apply app_nil_r.
    + intros [= <-]. simpl. symmetry. apply drop_ge. lia.
Qed.

(** With a positive batch size the loop ends within [length l - i]
    iterations. *)
Lemma batchLoop_ends (fuel : nat) : ∀ i b l,
  0 < b → length l - i ≤ fuel → is_Some (batchLoop fuel i (Fin b) l).
Proof.
  induction fuel as [|fuel IH]; intros i b l Hb Hfuel; simpl.
  - case_bool_decide; [lia|]. by eexists.
  - case_bool_decide; [|by eexists].
    destruct (IH (i + b) b l Hb) as [bs ->]; [lia|]. by eexists.
Qed.

Lemma batchLoop_ends_Infinity (fuel : nat) i l :
  0 < fuel → is_Some (batchLoop fuel i Infinity l).
Proof. destruct fuel; [lia|]. intros _. simpl. case_bool_decide; by eexists. Qed.

(** More fuel does not change the batches. *)
Lemma batchLoop_more_fuel (fuel : nat) : ∀ (fuel' : nat) i batchSize l batches,
  batchLoop fuel i batchSize l = Some batches → fuel ≤ fuel' →
  batchLoop fuel' i batchSize l = Some batches.
Proof.
  induction fuel as [|fuel IH]; intros fuel' i batchSize l batches; simpl.
  - case_bool_decide as Hi; [discriminate|]. intros [= <-] _.
    destruct fuel'; simpl; by rewrite bool_decide_eq_false_2.
  - case_bool_decide as Hi.
    + destruct fuel' as [|fuel']; [lia|]. simpl. rewrite bool_decide_eq_true_2 by done.
      destruct batchSize as [b|]; [|done].
      destruct (batchLoop fuel (i + b) (Fin b) l) as [bs|] eqn:E; [|discriminate].
      intros [= <-] Hle. by rewrite (IH fuel' _ _ _ _ E) by lia.
    + intros [= <-] _. destruct fuel'; simpl; by rewrite bool_decide_eq_false_2.
Qed.
End Partition.

(** The loop does not look at the targets themselves. *)
Lemma batchLoop_fmap {A B} (f : A → B) fuel : ∀ i batchSize (l : list A),
  batchLoop fuel i batchSize (f <$> l)
  = fmap (M := option) (fmap (M := list) (fmap (M := list) f)) (batchLoop fuel i batchSize l).
Proof.
  induction fuel as [|fuel IH]; intros i batchSize l; simpl; rewrite length_fmap.
  - by case_bool_decide.
  - case_bool_decide; [|done]. destruct batchSize as [b|].
    + rewrite IH. destruct (batchLoop fuel (i + b) (Fin b) l); simpl; [|done].
      unfold slice. by rewrite fmap_take, fmap_drop.
    + simpl. by rewrite fmap_drop.
Qed.

(** Math.ceil(a / b) is the least count whose multiple of [b] reaches [a]. *)
Lemma ceilDiv_spec a b : 0 < a → 0 < b →
  ∃ c, ceilDiv a b = Fin c ∧ (c - 1) * b < a ∧ a ≤ c * b.
Proof.
  intros Ha Hb. unfold ceilDiv. rewrite bool_decide_eq_false_2 by lia.
  eexists; split; [done|].
  pose proof (Nat.div_mod (a + b - 1) b ltac:(lia)) as Hdm.
  pose proof (Nat.mod_upper_bound (a + b - 1) b ltac:(lia)) as Hm.
  set (q := (a + b - 1) `div` b) in *. set (r := (a + b - 1) `mod` b) in *.
  clearbody q r. destruct q as [|q]; [lia|]. simpl. rewrite Nat.sub_0_r. nia.
Qed.

Lemma ceilDiv_pos a b c : 0 < a → ceilDiv a b = Fin c → 0 < c.
Proof.
  intros Ha. unfold ceilDiv. case_bool_decide as Hb; [discriminate|]. intros [= <-].
  apply Nat.div_str_pos. lia.
Qed.

(** Whatever the configuration, the batch loop of a cycle ends. *)
Lemma partition_ends {A} config (l : list A) : is_Some (partition config l).
Proof.
  unfold partition. destruct l as [|x l]; [by eexists|].
  set (n := length (x :: l)). assert (0 < n) as Hn by (unfold n; simpl; lia).
  destruct (batchSizeFor config n) as [b|] eqn:E.
  - apply batchLoop_ends; [|lia]. eapply ceilDiv_pos; [exact Hn|exact E].
  - by apply batchLoop_ends_Infinity.
Qed.

Lemma partition_concat {A} config (l : list A) batches :
  partition config l = Some batches → concat batches = l.
Proof. intros H. by rewrite (batchLoop_concat _ _ _ _ _ H). Qed.

(* ===================================================================== *)
(** ** Workers and retries: one outcome per address *)
(* ===================================================================== *)

Lemma pingIP_address probe ip : address (pingIP probe ip) = ip.
Proof. unfold pingIP. by destruct (probe ip). Qed.

Lemma processIPs_addresses probe batch : address <$> processIPs probe batch = batch.
Proof.
  unfold processIPs. rewrite <- list_fmap_compose.
  rewrite <- (list_fmap_id batch) at 2. apply list_fmap_ext.
  intros _ ip _. apply pingIP_address.
Qed.

Lemma unreachable_addresses (batch : list string) :
  address <$> (unreachable <$> batch) = batch.
Proof. rewrite <- list_fmap_compose. rewrite <- (list_fmap_id batch) at 2. done. Qed.

Lemma processBatchWithRetry_addresses retries : ∀ runs batch,
  address <$> processBatchWithRetry runs batch retries = batch.
Proof.
  induction retries as [|retries IH]; intros runs batch; simpl;
    (destruct (runs 0) as [probe|msg]; simpl; [apply processIPs_addresses|]).
  - apply unreachable_addresses.
  - apply IH.
Qed.

(** Retries are used up one by one: when the first [S retries] executions
    crash, every address is reported unreachable. *)
Lemma processBatchWithRetry_exhausted retries : ∀ runs batch,
  (∀ k, k ≤ retries → ∃ message, runs k = Crashed message) →
  processBatchWithRetry runs batch retries = unreachable <$> batch.
Proof.
  induction retries as [|retries IH]; intros runs batch Hruns; simpl;
    destruct (Hruns 0 ltac:(lia)) as [msg ->]; simpl; [done|].
  apply IH. intros k Hk. apply (Hruns (S k)). lia.
Qed.

Lemma dispatch_addresses batches : ∀ env,
  address <$> dispatch env batches = concat batches.
Proof.
  unfold dispatch. induction batches as [|batch batches IH]; intros env; [done|].
  rewrite imap_cons, !concat_cons, fmap_app, processBatchWithRetry_addresses. f_equal.
  apply (IH (fun b => env (S b))).
Qed.

Lemma dispatch_exhausted batches : ∀ env,
  (∀ b k, k ≤ defaultRetries → ∃ message, env b k = Crashed message) →
  dispatch env batches = unreachable <$> concat batches.
Proof.
  unfold dispatch. induction batches as [|batch batches IH]; intros env Henv; [done|].
  rewrite imap_cons, !concat_cons, fmap_app, processBatchWithRetry_exhausted by apply Henv.
  f_equal. apply (IH (fun b => env (S b))). intros b k. apply Henv.
Qed.

(** The outcomes of a cycle: one per loaded target, in the order loaded. *)
Lemma cycleOutcomes_addresses config env loaded :
  ∃ results, cycleOutcomes config env loaded = Some results
             ∧ address <$> results = loaded.*1.
Proof.
  unfold cycleOutcomes.
  destruct (partition_ends config (loaded.*1)) as [batches E]. rewrite E. simpl.
  eexists; split; [done|]. rewrite dispatch_addresses. by apply partition_concat in E.
Qed.

(* ===================================================================== *)
(** ** Running the storage code when no storage operation fails *)
(* ===================================================================== *)

Lemma NoFaults_advance reads ops i d w : NoFaults w → NoFaults (advance reads ops i d w).
Proof. intros H n Hn. apply H. simpl in Hn. lia. Qed.

Lemma advance_advance r1 o1 i1 d1 r2 o2 i2 d2 w :
  advance r2 o2 i2 d2 (advance r1 o1 i1 d1 w) = advance (r2 + r1) (o2 + o1) i2 d2 w.
Proof. unfold advance. simpl. f_equal; lia. Qed.

Lemma advance_0 w : advance 0 0 (ips w) (downtimes w) w = w.
Proof. by destruct w. Qed.

Lemma storage_run {A} (op : list IPDoc → list DowntimeDoc → A * list IPDoc * list DowntimeDoc) w :
  fault w (storageOps w) = None →
  storage op w = Ok (op (ips w) (downtimes w)).1.1
                    (advance 0 1 (op (ips w) (downtimes w)).1.2 (op (ips w) (downtimes w)).2 w).
Proof.
  intros H. unfold storage. rewrite H.
  by destruct (op (ips w) (downtimes w)) as [[a i] d].
Qed.

Lemma storage_ok {A} (op : list IPDoc → list DowntimeDoc → A * list IPDoc * list DowntimeDoc) w :
  NoFaults w →
  storage op w = Ok (op (ips w) (downtimes w)).1.1
                    (advance 0 1 (op (ips w) (downtimes w)).1.2 (op (ips w) (downtimes w)).2 w).
Proof. intros H. apply storage_run, H. lia. Qed.

Lemma storage_fault {A} (op : list IPDoc → list DowntimeDoc → A * list IPDoc * list DowntimeDoc) w e :
  fault w (storageOps w) = Some e →
  storage op w = Throw e (advance 0 1 (ips w) (downtimes w) w).
Proof. intros H. unfold storage. by rewrite H. Qed.

Lemma NoFaults_stepChange w c : NoFaults w → NoFaults (stepChange w c).
Proof.
  intros H. unfold stepChange. repeat case_match; try done; by apply NoFaults_advance.
Qed.

Lemma handleChange_ok c w : NoFaults w → handleChange c w = Ok tt (stepChange w c).
Proof.
  intros H. unfold handleChange, stepChange.
  case_bool_decide as Hto.
  - unfold bind, recordDowntime, findOneAndUpdateDown, try_catch, bind, readClock.
    rewrite storage_ok by (intros n Hn; apply H; simpl in *; lia). simpl.
    rewrite storage_ok by (intros n Hn; apply H; simpl in *; lia). simpl.
    f_equal.
  - destruct (bool_decide (ch_to c = Up) && bool_decide (ch_from c = Down)); [|done].
    unfold bind, updateDuration, try_catch, bind.
    rewrite storage_ok by done. simpl.
    destruct (findLatestOpen (ch_address c) (downtimes w)) as [[j t]|]; simpl.
    + unfold readClock. rewrite storage_ok by (intros n Hn; apply H; simpl in *; lia).
      simpl. unfold ret. f_equal.
    + unfold ret. f_equal.
Qed.

Lemma handleChanges_ok statusChanges : ∀ w,
  NoFaults w → handleChanges statusChanges w = Ok tt (foldl stepChange w statusChanges).
Proof.
  induction statusChanges as [|c cs IH]; intros w H; [done|].
  simpl. unfold bind. rewrite handleChange_ok by done.
  apply IH. by apply NoFaults_stepChange.
Qed.

Lemma buildBulkOps_run updates : ∀ w,
  buildBulkOps updates w
  = Ok (bulkOpsAt (clock w) (clockReads w) updates)
       (advance (bulkReads updates) 0 (ips w) (downtimes w) w).
Proof.
  induction updates as [|u rest IH]; intros w.
  - simpl. unfold ret. by rewrite advance_0.
  - simpl. unfold bind at 1. unfold readClock at 1.
    destruct (alive u); unfold bind at 1; simpl.
    + unfold bind. rewrite IH. unfold ret, advance. simpl. do 2 f_equal. lia.
    + unfold bind. rewrite IH. unfold ret, advance. simpl. do 2 f_equal. lia.
Qed.

Lemma bulkUpdateStatus_ok updates w :
  NoFaults w →
  bulkUpdateStatus updates w
  = if bool_decide (length updates = 0) then Ok 0 w
    else let sent := sentOps (bulkOpsAt (clock w) (clockReads w) updates) in
         if bool_decide (length sent = 0)
         then Ok 0 (advance (bulkReads updates) 0 (ips w) (downtimes w) w)
         else Ok (applyOps sent (ips w)).1
                 (advance (bulkReads updates) 1 (applyOps sent (ips w)).2 (downtimes w) w).
Proof.
  intros H. unfold bulkUpdateStatus, try_catch. case_bool_decide; [done|].
  unfold bind. rewrite buildBulkOps_run. unfold bulkWrite. simpl.
  case_bool_decide; [done|].
  rewrite storage_ok by by apply NoFaults_advance. simpl.
  destruct (applyOps _ _) as [n i']. simpl. by rewrite advance_advance.
Qed.

Lemma NoFaults_foldl cs : ∀ w, NoFaults w → NoFaults (foldl stepChange w cs).
Proof.
  induction cs as [|c cs IH]; intros w H; [done|]. simpl. apply IH.
  by apply NoFaults_stepChange.
Qed.

Lemma NoFaults_afterChanges results w : NoFaults w → NoFaults (afterChanges results w).
Proof. intros H. apply NoFaults_foldl. by apply NoFaults_advance. Qed.

Lemma NoFaults_afterReconcile results w : NoFaults w → NoFaults (afterReconcile results w).
Proof.
  intros H. unfold afterReconcile. repeat case_bool_decide.
  - by apply NoFaults_afterChanges.
  - apply NoFaults_advance. by apply NoFaults_afterChanges.
  - apply NoFaults_advance. by apply NoFaults_afterChanges.
Qed.

Lemma updatePingResults_ok results w :
  NoFaults w →
  updatePingResults results w
  = Ok (mkUpdateResult (length results) (modifiedCountOf results w)
          (length (statusChangesOf results (ips w))))
       (afterReconcile results w).
Proof.
  intros H. unfold updatePingResults, try_catch, bind, findIn.
  rewrite storage_ok by done. simpl.
  rewrite handleChanges_ok by by apply NoFaults_advance.
  fold (project (filter (fun x => ip_address x ∈ address <$> results) (ips w))).
  fold (currentStatusMapOf results (ips w)). fold (statusChangesOf results (ips w)).
  fold (afterChanges results w).
  rewrite bulkUpdateStatus_ok by by apply NoFaults_afterChanges.
  unfold afterReconcile, modifiedCountOf. case_bool_decide; [done|].
  fold (sentFor results w). simpl. case_bool_decide as Hsent; [|done].
  by destruct (sentFor results w).
Qed.

(* ===================================================================== *)
(** ** Every call settles *)
(* ===================================================================== *)

Lemma Settles_ret {A} (a : A) : Settles (ret a).
Proof. by intros w. Qed.

Lemma Settles_throw {A} e : Settles (throw (A := A) e).
Proof. by intros w. Qed.

Lemma Settles_readClock : Settles readClock.
Proof. by intros w. Qed.

Lemma Settles_storage {A} (op : list IPDoc → list DowntimeDoc → A * list IPDoc * list DowntimeDoc) :
  Settles (storage op).
Proof.
  intros w. unfold storage. destruct (fault w (storageOps w)); [done|].
  by destruct (op (ips w) (downtimes w)) as [[a i] d].
Qed.

Lemma Settles_bind {A B} (m : M A) (k : A → M B) :
  Settles m → (∀ a, Settles (k a)) → Settles (bind m k).
Proof.
  intros Hm Hk w. unfold bind. specialize (Hm w).
  destruct (m w); [apply Hk|done|done].
Qed.

Lemma Settles_try_catch {A} (m : M A) (h : string → M A) :
  Settles m → (∀ e, Settles (h e)) → Settles (try_catch m h).
Proof.
  intros Hm Hh w. unfold try_catch. specialize (Hm w).
  destruct (m w); [done|apply Hh|done].
Qed.

Create HintDb settles.
#[local] Hint Resolve Settles_ret Settles_throw Settles_readClock Settles_storage : settles.

Ltac settle :=
  repeat first
    [ apply Settles_try_catch; [|intros ?]
    | apply Settles_bind; [|intros ?]
    | solve [auto with settles]
    | progress case_match ].

Lemma Settles_recordDowntime a : Settles (recordDowntime a).
Proof. unfold recordDowntime. settle. Qed.

Lemma Settles_updateDuration a : Settles (updateDuration a).
Proof. unfold updateDuration. settle. Qed.

Lemma Settles_findOneAndUpdateDown a : Settles (findOneAndUpdateDown a).
Proof. unfold findOneAndUpdateDown. settle. Qed.

#[local] Hint Resolve Settles_recordDowntime Settles_updateDuration
  Settles_findOneAndUpdateDown : settles.

Lemma Settles_handleChange c : Settles (handleChange c).
Proof. unfold handleChange. settle. Qed.

Lemma Settles_handleChanges cs : Settles (handleChanges cs).
Proof.
  induction cs as [|c cs IH]; simpl; [apply Settles_ret|].
  apply Settles_bind; [apply Settles_handleChange|done].
Qed.

Lemma Settles_buildBulkOps updates : Settles (buildBulkOps updates).
Proof. intros w. by rewrite buildBulkOps_run. Qed.

#[local] Hint Resolve Settles_handleChanges Settles_buildBulkOps : settles.

Lemma Settles_bulkWrite ops : Settles (bulkWrite ops).
Proof. unfold bulkWrite. simpl. settle. Qed.

#[local] Hint Resolve Settles_bulkWrite : settles.

Lemma Settles_bulkUpdateStatus updates : Settles (bulkUpdateStatus updates).
Proof. unfold bulkUpdateStatus. settle. Qed.

#[local] Hint Resolve Settles_bulkUpdateStatus : settles.

Lemma Settles_updatePingResults results : Settles (updatePingResults results).
Proof. unfold updatePingResults, findIn. settle. Qed.


(* ===================================================================== *)
(** ** Reading the recorded statuses *)
(* ===================================================================== *)

Lemma scanResults_acc m results : ∀ acc,
  (foldl (scanResult m) acc results).2 = acc.2 ++ omap (changeOf m) results.
Proof.
  induction results as [|r rs IH]; intros acc; simpl.
  - by rewrite app_nil_r.
  - rewrite IH. unfold scanResult, changeOf.
    destruct (m !! address r) as [s|]; [|done].
    case_bool_decide; simpl; [|done]. by rewrite <- app_assoc.
Qed.

(** The status changes are those of the results, in their order. *)
Lemma scanResults_changes m results : (scanResults m results).2 = omap (changeOf m) results.
Proof. unfold scanResults. by rewrite scanResults_acc. Qed.

Lemma changeOf_address m r c : changeOf m r = Some c → ch_address c = address r.
Proof. unfold changeOf. repeat case_match; naive_solver. Qed.

Lemma changes_addresses_sublist m results :
  ch_address <$> omap (changeOf m) results `sublist_of` address <$> results.
Proof.
  induction results as [|r rs IH]; simpl; [constructor|].
  destruct (changeOf m r) as [c|] eqn:E; simpl.
  - rewrite (changeOf_address _ _ _ E). by constructor.
  - by constructor.
Qed.

Lemma buildStatusMap_snoc l p :
  buildStatusMap (l ++ [p]) = <[p.1 := p.2]> (buildStatusMap l).
Proof. unfold buildStatusMap. by rewrite foldl_snoc. Qed.

Lemma buildStatusMap_lookup_None (l : list (string * Status)) a :
  a ∉ l.*1 → buildStatusMap l !! a = None.
Proof.
  induction l as [|p l IH] using rev_ind; intros Ha; [done|].
  rewrite buildStatusMap_snoc. rewrite fmap_app in Ha. simpl in Ha.
  rewrite lookup_insert_ne; [apply IH|]; set_solver.
Qed.

Lemma buildStatusMap_lookup (l : list (string * Status)) a s :
  NoDup l.*1 → buildStatusMap l !! a = Some s ↔ (a, s) ∈ l.
Proof.
  induction l as [|p l IH] using rev_ind; intros Hnd.
  - unfold buildStatusMap. simpl. rewrite lookup_empty. set_solver.
  - rewrite buildStatusMap_snoc. rewrite fmap_app in Hnd. simpl in Hnd.
    apply NoDup_app in Hnd as (Hnd & Hfresh & _). destruct p as [b t]. simpl in *.
    destruct (decide (b = a)) as [->|Hne].
    + rewrite lookup_insert_eq. split.
      * intros [= ->]. set_solver.
      * intros [Hin|Hin]%elem_of_app; [|set_solver].
        exfalso. apply (Hfresh a); [|set_solver].
        apply list_elem_of_fmap. by exists (a, s).
    + rewrite lookup_insert_ne by done. rewrite IH by done. set_solver.
Qed.

Lemma findOne_None a coll : findOne a coll = None ↔ a ∉ ip_address <$> coll.
Proof.
  induction coll as [|d coll IH]; simpl; [set_solver|].
  case_bool_decide; [set_solver|]. rewrite IH. set_solver.
Qed.

Lemma findOne_Some a coll d :
  UniqueAddresses coll → findOne a coll = Some d ↔ d ∈ coll ∧ ip_address d = a.
Proof.
  unfold UniqueAddresses. induction coll as [|x coll IH]; simpl; intros Hnd.
  - set_solver.
  - apply NoDup_cons in Hnd as [Hx Hnd]. case_bool_decide as Ha.
    + split; [intros [= ->]; set_solver|]. intros [[->|Hin]%elem_of_cons Hd]; [done|].
      exfalso. apply Hx. apply list_elem_of_fmap. exists d. split; [congruence|done].
    + rewrite IH by done. set_solver.
Qed.

Lemma project_fst coll : (project coll).*1 = ip_address <$> coll.
Proof. unfold project. by rewrite <- list_fmap_compose. Qed.

Lemma UniqueAddresses_filter (P : IPDoc → Prop) `{∀ x, Decision (P x)} coll :
  UniqueAddresses coll → UniqueAddresses (filter P coll).
Proof.
  unfold UniqueAddresses. intros Hnd. eapply sublist_NoDup; [exact Hnd|].
  apply fmap_sublist, sublist_filter.
Qed.

(** With unique addresses, the status looked up for the address of a
    result is the status of its document. *)
Lemma currentStatusMapOf_lookup results coll a :
  UniqueAddresses coll → a ∈ address <$> results →
  currentStatusMapOf results coll !! a = ip_status <$> findOne a coll.
Proof.
  intros Hu Ha. unfold currentStatusMapOf.
  set (P := fun x => ip_address x ∈ address <$> results).
  apply option_eq. intros s.
  rewrite buildStatusMap_lookup
    by (rewrite project_fst; by apply UniqueAddresses_filter).
  unfold project. rewrite list_elem_of_fmap. split.
  - intros (d & [= -> ->] & [HP Hd]%list_elem_of_filter).
    assert (findOne (ip_address d) coll = Some d) as -> by (by apply findOne_Some).
    done.
  - destruct (findOne a coll) as [d|] eqn:E; [|done]. intros [= <-].
    apply findOne_Some in E as [Hd <-]; [|done].
    exists d. split; [done|]. apply list_elem_of_filter. by split.
Qed.

Lemma currentStatusMapOf_absent results coll a :
  findOne a coll = None → currentStatusMapOf results coll !! a = None.
Proof.
  intros H. apply buildStatusMap_lookup_None. rewrite project_fst.
  apply findOne_None in H. intros (d & -> & [_ Hd]%list_elem_of_filter)%list_elem_of_fmap.
  apply H. by apply list_elem_of_fmap_2.
Qed.

(* ===================================================================== *)
(** ** Downtime events *)
(* ===================================================================== *)

Lemma isOpenFor_true a d :
  isOpenFor a d = true ↔ dt_ipAddress d = a ∧ dt_duration d = None.
Proof.
  unfold isOpenFor. rewrite andb_true_iff, !bool_decide_eq_true. done.
Qed.

Lemma isOpenFor_false a d :
  isOpenFor a d = false ↔ ¬ (dt_ipAddress d = a ∧ dt_duration d = None).
Proof. rewrite <- isOpenFor_true. by destruct (isOpenFor a d). Qed.

(** The record found is an open record of the address. *)
Lemma findLatestOpen_Some a dts : ∀ j t,
  findLatestOpen a dts = Some (j, t) →
  ∃ e, dts !! j = Some e ∧ dt_ipAddress e = a ∧ dt_duration e = None ∧ dt_timestamp e = t.
Proof.
  induction dts as [|d rest IH]; intros j t; simpl; [done|].
  destruct (findLatestOpen a rest) as [[j' t']|]; simpl.
  - destruct (isOpenFor a d) eqn:Hd.
    + case_match.
      * intros [= <- <-]. by apply IH.
      * intros [= <- <-]. apply isOpenFor_true in Hd as [? ?]. by exists d.
    + intros [= <- <-]. by apply IH.
  - destruct (isOpenFor a d) eqn:Hd; [|done].
    intros [= <- <-]. apply isOpenFor_true in Hd as [? ?]. by exists d.
Qed.

(** No open record of the address is more recent than the one found. *)
Lemma findLatestOpen_max a dts : ∀ j t,
  findLatestOpen a dts = Some (j, t) →
  ∀ e, e ∈ dts → dt_ipAddress e = a → dt_duration e = None → (dt_timestamp e ≤ t)%Z.
Proof.
  induction dts as [|d rest IH]; intros j t; simpl; [done|].
  destruct (findLatestOpen a rest) as [[j' t']|] eqn:E; simpl.
  - destruct (isOpenFor a d) eqn:Hd.
    + case_match eqn:Hlt.
      * intros [= <- <-] e [->|Hin]%elem_of_cons Ha Ho; [lia|]. by eapply IH.
      * intros [= <- <-] e [->|Hin]%elem_of_cons Ha Ho; [lia|].
        specialize (IH _ _ eq_refl e Hin Ha Ho). lia.
    + intros [= <- <-] e [->|Hin]%elem_of_cons Ha Ho; [|by eapply IH].
      apply isOpenFor_false in Hd. naive_solver.
  - destruct (isOpenFor a d) eqn:Hd; [|done].
    intros [= <- <-] e [->|Hin]%elem_of_cons Ha Ho; [lia|].
    exfalso. clear IH. induction rest as [|x rest IH]; [set_solver|].
    simpl in E. destruct (isOpenFor a x) eqn:Hx.
    + by destruct (findLatestOpen a rest) as [[? ?]|]; simpl in E; repeat case_match.
    + destruct (findLatestOpen a rest) as [[? ?]|]; [done|].
      apply elem_of_cons in Hin as [->|Hin]; [|by apply IH].
      apply isOpenFor_false in Hx. naive_solver.
Qed.

Lemma findLatestOpen_None a dts :
  findLatestOpen a dts = None →
  ∀ e, e ∈ dts → dt_ipAddress e = a → dt_duration e ≠ None.
Proof.
  induction dts as [|d rest IH]; simpl; [set_solver|].
  destruct (isOpenFor a d) eqn:Hd.
  - by destruct (findLatestOpen a rest) as [[? ?]|]; simpl; repeat case_match.
  - destruct (findLatestOpen a rest) as [[? ?]|]; [done|].
    intros _ e [->|Hin]%elem_of_cons Ha Ho; [|by eapply IH].
    apply isOpenFor_false in Hd. naive_solver.
Qed.

(** The timestamp found, from the head and the timestamp found in the tail. *)
Lemma latest_cons a d rest :
  snd <$> findLatestOpen a (d :: rest)
  = if isOpenFor a d then
      match snd <$> findLatestOpen a rest with
      | Some t => if (dt_timestamp d <? t)%Z then Some t else Some (dt_timestamp d)
      | None => Some (dt_timestamp d)
      end
    else snd <$> findLatestOpen a rest.
Proof.
  simpl. destruct (findLatestOpen a rest) as [[j t]|]; simpl;
    destruct (isOpenFor a d); simpl; repeat case_match; done.
Qed.

Lemma closeLatest_cons_skip a now d rest :
  isOpenFor a d = false → closeLatest a now (d :: rest) = d :: closeLatest a now rest.
Proof.
  intros Hd. unfold closeLatest. simpl. rewrite Hd.
  by destruct (findLatestOpen a rest) as [[j t]|].
Qed.

Lemma closeLatest_cons_open a now d rest :
  isOpenFor a d = true →
  closeLatest a now (d :: rest)
  = match snd <$> findLatestOpen a rest with
    | Some t => if (dt_timestamp d <? t)%Z then d :: closeLatest a now rest
                else setDuration (now - dt_timestamp d) d :: rest
    | None => setDuration (now - dt_timestamp d) d :: rest
    end.
Proof.
  intros Hd. unfold closeLatest. simpl. rewrite Hd.
  destruct (findLatestOpen a rest) as [[j t]|]; simpl; [|done].
  destruct (dt_timestamp d <? t)%Z; reflexivity.
Qed.

Lemma eventsOf_cons a d dts :
  eventsOf a (d :: dts)
  = if bool_decide (dt_ipAddress d = a) then d :: eventsOf a dts else eventsOf a dts.
Proof.
  unfold eventsOf. rewrite filter_cons. case_bool_decide; by case_decide.
Qed.

Lemma eventsOf_snoc a dts e :
  eventsOf a (dts ++ [e])
  = eventsOf a dts ++ (if bool_decide (dt_ipAddress e = a) then [e] else []).
Proof.
  unfold eventsOf. rewrite filter_app. f_equal.
  rewrite filter_cons, filter_nil. case_bool_decide; by case_decide.
Qed.

(** The most recent open record of an address, seen among its own events. *)
Lemma latest_eventsOf a dts :
  snd <$> findLatestOpen a (eventsOf a dts) = snd <$> findLatestOpen a dts.
Proof.
  induction dts as [|d rest IH]; [done|].
  rewrite eventsOf_cons, (latest_cons a d rest). case_bool_decide as Ha.
  - by rewrite latest_cons, IH.
  - rewrite IH. destruct (isOpenFor a d) eqn:Hd; [|done].
    apply isOpenFor_true in Hd. naive_solver.
Qed.

Lemma setDuration_address dur d : dt_ipAddress (setDuration dur d) = dt_ipAddress d.
Proof. done. Qed.

(** Closing the latest open record of an address, seen among its own
    events. *)
Lemma eventsOf_closeLatest a now dts :
  eventsOf a (closeLatest a now dts) = closeLatest a now (eventsOf a dts).
Proof.
  induction dts as [|d rest IH]; [done|].
  destruct (isOpenFor a d) eqn:Hd.
  - pose proof Hd as [Ha Ho]%isOpenFor_true.
    rewrite (eventsOf_cons a d rest), bool_decide_eq_true_2 by done.
    rewrite !closeLatest_cons_open by done. rewrite latest_eventsOf.
    destruct (snd <$> findLatestOpen a rest) as [t|]; [case_match|];
      rewrite eventsOf_cons, ?setDuration_address, bool_decide_eq_true_2 by done;
      by rewrite ?IH.
  - rewrite closeLatest_cons_skip by done. rewrite !eventsOf_cons.
    case_bool_decide as Ha; [|done].
    rewrite closeLatest_cons_skip by done. by rewrite IH.
Qed.

(** Closing a record of another address leaves the events alone. *)
Lemma eventsOf_closeLatest_ne a b now dts :
  b ≠ a → eventsOf a (closeLatest b now dts) = eventsOf a dts.
Proof.
  intros Hne. induction dts as [|d rest IH]; [done|].
  destruct (isOpenFor b d) eqn:Hd.
  - pose proof Hd as [Hb Ho]%isOpenFor_true.
    rewrite closeLatest_cons_open by done.
    destruct (snd <$> findLatestOpen b rest) as [t|]; [case_match|];
      rewrite !eventsOf_cons, ?setDuration_address;
      rewrite !bool_decide_eq_false_2 by congruence; by rewrite ?IH.
  - rewrite closeLatest_cons_skip by done. rewrite !eventsOf_cons, IH. done.
Qed.

Lemma openCount_cons a d dts :
  openCount a (d :: dts) = (if isOpenFor a d then 1 else 0) + openCount a dts.
Proof.
  unfold openCount. rewrite eventsOf_cons. unfold isOpenFor.
  case_bool_decide as Ha; simpl; [|done].
  rewrite filter_cons. case_bool_decide; by case_decide.
Qed.

Lemma openCount_snoc a dts e :
  openCount a (dts ++ [e]) = openCount a dts + (if isOpenFor a e then 1 else 0).
Proof.
  induction dts as [|d rest IH]; simpl.
  - rewrite openCount_cons. unfold openCount. simpl. lia.
  - rewrite !openCount_cons, IH. lia.
Qed.

Lemma findLatestOpen_openCount a dts p :
  findLatestOpen a dts = Some p → 0 < openCount a dts.
Proof.
  destruct p as [j t]. intros (e & Hj & Ha & Ho & _)%findLatestOpen_Some.
  apply list_elem_of_lookup_2 in Hj.
  induction dts as [|d rest IH]; [set_solver|]. rewrite openCount_cons.
  apply elem_of_cons in Hj as [<-|Hin].
  - assert (isOpenFor a e = true) as -> by (by apply isOpenFor_true). lia.
  - specialize (IH Hin). lia.
Qed.

(** updateDuration closes one open record of the address, if it has one. *)
Lemma openCount_closeLatest a now dts :
  openCount a (closeLatest a now dts) = pred (openCount a dts).
Proof.
  induction dts as [|d rest IH]; [done|].
  destruct (isOpenFor a d) eqn:Hd.
  - rewrite closeLatest_cons_open by done.
    destruct (findLatestOpen a rest) as [p|] eqn:E; simpl.
    + apply findLatestOpen_openCount in E.
      case_match; rewrite !openCount_cons, ?IH, Hd; [lia|].
      assert (isOpenFor a (setDuration (now - dt_timestamp d) d) = false) as ->.
      { apply isOpenFor_false. naive_solver. }
      simpl. lia.
    + rewrite !openCount_cons, Hd.
      assert (isOpenFor a (setDuration (now - dt_timestamp d) d) = false) as ->.
      { apply isOpenFor_false. naive_solver. }
      simpl. lia.
  - rewrite closeLatest_cons_skip by done. rewrite !openCount_cons, Hd, IH. done.
Qed.

Lemma openCount_eventsOf a dts dts' :
  eventsOf a dts' = eventsOf a dts → openCount a dts' = openCount a dts.
Proof. unfold openCount. by intros ->. Qed.

(* ===================================================================== *)
(** ** Updating one document *)
(* ===================================================================== *)

Section UpdateOne.
Variable f : IPDoc → IPDoc.
Hypothesis f_address : ∀ d, ip_address (f d) = ip_address d.

Lemma updateOne_addresses b coll :
  ip_address <$> updateOne b f coll = ip_address <$> coll.
Proof.
  induction coll as [|d coll IH]; [done|]. simpl updateOne.
  case_bool_decide; rewrite !fmap_cons; [by rewrite f_address|by rewrite IH].
Qed.

Lemma findOne_updateOne_eq a coll :
  findOne a (updateOne a f coll) = f <$> findOne a coll.
Proof.
  induction coll as [|d coll IH]; [done|]. simpl.
  case_bool_decide as Ha; simpl.
  - by rewrite bool_decide_eq_true_2 by (by rewrite f_address).
  - by rewrite bool_decide_eq_false_2 by done.
Qed.

Lemma findOne_updateOne_ne a b coll :
  b ≠ a → findOne a (updateOne b f coll) = findOne a coll.
Proof.
  intros Hne. induction coll as [|d coll IH]; [done|]. simpl.
  case_bool_decide as Hb; simpl.
  - rewrite !bool_decide_eq_false_2; [done|congruence|rewrite f_address; congruence].
  - by rewrite IH.
Qed.

Lemma updateOne_project b coll :
  (∀ d, ip_status (f d) = ip_status d) → project (updateOne b f coll) = project coll.
Proof.
  intros Hs. unfold project. induction coll as [|d coll IH]; [done|]. simpl updateOne.
  case_bool_decide; rewrite !fmap_cons; [by rewrite f_address, Hs|by rewrite IH].
Qed.
End UpdateOne.

Lemma UniqueAddresses_updateOne f b coll :
  (∀ d, ip_address (f d) = ip_address d) →
  UniqueAddresses coll → UniqueAddresses (updateOne b f coll).
Proof. intros Hf. unfold UniqueAddresses. by rewrite updateOne_addresses. Qed.

(* ===================================================================== *)
(** ** Handling the status changes, address by address *)
(* ===================================================================== *)

Lemma stepChange_clock w c :
  clock (stepChange w c) = clock w ∧ clockReads w ≤ clockReads (stepChange w c).
Proof. unfold stepChange. repeat case_match; simpl; split; (done || lia). Qed.

Lemma stepChange_project w c : project (ips (stepChange w c)) = project (ips w).
Proof.
  unfold stepChange. repeat case_match; simpl; try done.
  by apply updateOne_project.
Qed.

Lemma stepChange_down w c :
  ch_to c = Down →
  stepChange w c
  = advance 2 2 (updateOne (ch_address c) (markDown (clock w (S (clockReads w)))) (ips w))
      (downtimes w ++ [mkDowntime (ch_address c) (clock w (clockReads w)) None "Ping timeout"]) w.
Proof. intros H. unfold stepChange. by rewrite bool_decide_eq_true_2. Qed.

Lemma stepChange_up w c :
  ch_to c = Up → ch_from c = Down →
  ips (stepChange w c) = ips w
  ∧ downtimes (stepChange w c)
    = closeLatest (ch_address c) (clock w (clockReads w)) (downtimes w)
  ∧ clockReads (stepChange w c) ≤ S (clockReads w).
Proof.
  intros Hto Hfrom. unfold stepChange, closeLatest.
  rewrite bool_decide_eq_false_2 by congruence.
  rewrite !bool_decide_eq_true_2 by done. simpl.
  destruct (findLatestOpen _ _) as [[j t]|]; simpl; repeat split; lia.
Qed.

Lemma stepChange_nothing w c :
  ch_to c ≠ Down → ¬ (ch_to c = Up ∧ ch_from c = Down) → stepChange w c = w.
Proof.
  intros Hto Hup. unfold stepChange. rewrite bool_decide_eq_false_2 by done.
  destruct (bool_decide (ch_to c = Up) && bool_decide (ch_from c = Down)) eqn:E; [|done].
  apply andb_true_iff in E as [?%bool_decide_eq_true ?%bool_decide_eq_true]. naive_solver.
Qed.

(** A status change of another address leaves the document and the events
    of an address alone. *)
Lemma stepChange_other w c a :
  ch_address c ≠ a →
  findOne a (ips (stepChange w c)) = findOne a (ips w)
  ∧ eventsOf a (downtimes (stepChange w c)) = eventsOf a (downtimes w).
Proof.
  intros Hne. unfold stepChange. case_bool_decide.
  - simpl. split; [by apply findOne_updateOne_ne|].
    rewrite eventsOf_snoc. simpl. rewrite bool_decide_eq_false_2 by done.
    apply app_nil_r.
  - case_match; [|done].
    pose proof (eventsOf_closeLatest_ne a (ch_address c)
                  (clock w (clockReads w)) (downtimes w) Hne) as Hc.
    unfold closeLatest in Hc. by destruct (findLatestOpen _ _) as [[j t]|].
Qed.

Lemma foldl_stepChange_clock cs : ∀ w,
  clock (foldl stepChange w cs) = clock w
  ∧ clockReads w ≤ clockReads (foldl stepChange w cs).
Proof.
  induction cs as [|c cs IH]; intros w; [done|]. simpl.
  destruct (IH (stepChange w c)) as [-> ?], (stepChange_clock w c) as [-> ?].
  split; [done|lia].
Qed.

Lemma foldl_stepChange_project cs : ∀ w,
  project (ips (foldl stepChange w cs)) = project (ips w).
Proof.
  induction cs as [|c cs IH]; intros w; [done|]. simpl.
  by rewrite IH, stepChange_project.
Qed.

Lemma foldl_stepChange_other cs a : ∀ w,
  a ∉ ch_address <$> cs →
  findOne a (ips (foldl stepChange w cs)) = findOne a (ips w)
  ∧ eventsOf a (downtimes (foldl stepChange w cs)) = eventsOf a (downtimes w).
Proof.
  induction cs as [|c cs IH]; intros w Ha; [done|]. simpl.
  rewrite fmap_cons, not_elem_of_cons in Ha. destruct Ha as [Hc Ha].
  destruct (IH (stepChange w c) Ha) as [-> ->]. by apply stepChange_other.
Qed.

(** The one status change of an address, among changes of distinct
    addresses: the document and the events of the address are as that
    change leaves them, handled in a world [w1] where they are as at the
    start. *)
Lemma foldl_stepChange_at cs c w :
  NoDup (ch_address <$> cs) → c ∈ cs →
  ∃ w1,
    findOne (ch_address c) (ips w1) = findOne (ch_address c) (ips w)
    ∧ eventsOf (ch_address c) (downtimes w1) = eventsOf (ch_address c) (downtimes w)
    ∧ clock w1 = clock w
    ∧ clockReads w ≤ clockReads w1
    ∧ clockReads (stepChange w1 c) ≤ clockReads (foldl stepChange w cs)
    ∧ findOne (ch_address c) (ips (foldl stepChange w cs))
      = findOne (ch_address c) (ips (stepChange w1 c))
    ∧ eventsOf (ch_address c) (downtimes (foldl stepChange w cs))
      = eventsOf (ch_address c) (downtimes (stepChange w1 c)).
Proof.
  intros Hnd (cs1 & cs2 & ->)%list_elem_of_split.
  rewrite fmap_app, fmap_cons in Hnd.
  apply NoDup_app in Hnd as (_ & H1 & [H2 _]%NoDup_cons).
  assert (ch_address c ∉ ch_address <$> cs1) as Hcs1.
  { intros Hin. apply (H1 _ Hin). set_solver. }
  exists (foldl stepChange w cs1).
  rewrite foldl_app. simpl.
  destruct (foldl_stepChange_other cs1 (ch_address c) w Hcs1) as [-> ->].
  destruct (foldl_stepChange_clock cs1 w) as [-> ?].
  destruct (foldl_stepChange_other cs2 (ch_address c)
              (stepChange (foldl stepChange w cs1) c) H2) as [-> ->].
  destruct (foldl_stepChange_clock cs2 (stepChange (foldl stepChange w cs1) c)) as [_ ?].
  done.
Qed.

(* ===================================================================== *)
(** ** The bulk update, address by address *)
(* ===================================================================== *)

Lemma applyBulkOp_address o d : ip_address (applyBulkOp o d) = ip_address d.
Proof. done. Qed.

Lemma applyOps_cons o ops coll :
  (applyOps (o :: ops) coll).2
  = (applyOps ops (updateOne (op_filter o) (applyBulkOp o) coll)).2.
Proof. simpl. by destruct (applyOps ops _). Qed.

Lemma applyOps_addresses ops : ∀ coll,
  ip_address <$> (applyOps ops coll).2 = ip_address <$> coll.
Proof.
  induction ops as [|o ops IH]; intros coll; [done|].
  rewrite applyOps_cons, IH. by apply updateOne_addresses.
Qed.

Lemma findOne_applyOps_other ops a : ∀ coll,
  a ∉ op_filter <$> ops → findOne a (applyOps ops coll).2 = findOne a coll.
Proof.
  induction ops as [|o ops IH]; intros coll Ha; [done|].
  rewrite fmap_cons, not_elem_of_cons in Ha. destruct Ha as [Ho Ha].
  rewrite applyOps_cons, IH by done. by apply findOne_updateOne_ne.
Qed.

Lemma findOne_applyOps_at ops o : ∀ coll,
  NoDup (op_filter <$> ops) → o ∈ ops →
  findOne (op_filter o) (applyOps ops coll).2 = applyBulkOp o <$> findOne (op_filter o) coll.
Proof.
  induction ops as [|o' ops IH]; intros coll Hnd Ho; [set_solver|].
  rewrite fmap_cons in Hnd. apply NoDup_cons in Hnd as [Hfresh Hnd].
  rewrite applyOps_cons. apply elem_of_cons in Ho as [->|Ho].
  - rewrite findOne_applyOps_other by done. by apply findOne_updateOne_eq.
  - rewrite IH by done. rewrite findOne_updateOne_ne; [done|done|].
    intros Heq. apply Hfresh. rewrite Heq. by apply list_elem_of_fmap_2.
Qed.

Lemma bulkOpsAt_filters clk updates : ∀ n,
  op_filter <$> bulkOpsAt clk n updates = address <$> updates.
Proof.
  induction updates as [|u rest IH]; intros n; [done|].
  simpl. by rewrite IH.
Qed.

Lemma bulkOpsAt_elem clk updates r : ∀ n,
  r ∈ updates →
  ∃ o, o ∈ bulkOpsAt clk n updates
       ∧ op_filter o = address r ∧ op_status o = statusOf (alive r)
       ∧ op_inc o = (if alive r then 0 else 1)
       ∧ op_responseTime o = orNull (time r)
       ∧ ∃ k, n ≤ k ∧ op_lastChecked o = clk k.
Proof.
  induction updates as [|u rest IH]; intros n Hr; [set_solver|].
  apply elem_of_cons in Hr as [->|Hr].
  - eexists. split; [by left|]. simpl. repeat split. by exists n.
  - destruct (IH ((if alive u then 1 else 2) + n) Hr) as (o & Ho & ? & ? & ? & ? & k & ? & ?).
    exists o. split; [by right|]. repeat split; try done.
    exists k. split; [|done]. destruct (alive u); lia.
Qed.

Lemma bulkOpsAt_elem_bound clk updates r : ∀ n,
  r ∈ updates →
  ∃ o, o ∈ bulkOpsAt clk n updates
       ∧ op_filter o = address r ∧ op_status o = statusOf (alive r)
       ∧ op_inc o = (if alive r then 0 else 1)
       ∧ op_responseTime o = orNull (time r)
       ∧ ∃ k, n ≤ k ∧ k < bulkReads updates + n ∧ op_lastChecked o = clk k.
Proof.
  induction updates as [|u rest IH]; intros n Hr; [set_solver|].
  apply elem_of_cons in Hr as [->|Hr].
  - eexists. split; [by left|]. simpl. repeat split. exists n.
    repeat split; [lia|]. destruct (alive u); lia.
  - destruct (IH ((if alive u then 1 else 2) + n) Hr)
      as (o & Ho & ? & ? & ? & ? & k & ? & ? & ?).
    exists o. split; [by right|]. repeat split; try done.
    exists k. simpl. repeat split; [| |done]; destruct (alive u); lia.
Qed.

(* ===================================================================== *)
(** ** One reconciliation, address by address *)
(* ===================================================================== *)

Lemma NoDup_fmap_eq {A B} (f : A → B) (l : list A) x y :
  NoDup (f <$> l) → x ∈ l → y ∈ l → f x = f y → x = y.
Proof.
  induction l as [|z l IH]; [set_solver|].
  rewrite fmap_cons, NoDup_cons. intros [Hz Hnd].
  intros [->|Hx]%elem_of_cons [->|Hy]%elem_of_cons Heq; [done| | |by apply IH].
  - exfalso. apply Hz. rewrite Heq. by apply list_elem_of_fmap_2.
  - exfalso. apply Hz. rewrite <- Heq. by apply list_elem_of_fmap_2.
Qed.

Lemma statusChangesOf_changes results coll :
  statusChangesOf results coll = omap (changeOf (currentStatusMapOf results coll)) results.
Proof. apply scanResults_changes. Qed.

Lemma statusChangesOf_NoDup results coll :
  NoDup (address <$> results) → NoDup (ch_address <$> statusChangesOf results coll).
Proof.
  intros Hnd. rewrite statusChangesOf_changes.
  eapply sublist_NoDup; [exact Hnd|apply changes_addresses_sublist].
Qed.

(** No status change is pushed for an address without outcome. *)
Lemma statusChangesOf_other results coll a :
  a ∉ address <$> results → a ∉ ch_address <$> statusChangesOf results coll.
Proof.
  intros Ha Hin. apply Ha. rewrite statusChangesOf_changes in Hin.
  eapply elem_of_sublist; [exact Hin|apply changes_addresses_sublist].
Qed.

(** With distinct addresses, the status changes of the address of a result
    are the one pushed for that result. *)
Lemma statusChangesOf_at results coll r c :
  NoDup (address <$> results) → r ∈ results →
  c ∈ statusChangesOf results coll → ch_address c = address r →
  changeOf (currentStatusMapOf results coll) r = Some c.
Proof.
  intros Hnd Hr Hc Ha. rewrite statusChangesOf_changes in Hc.
  apply list_elem_of_omap in Hc as (r' & Hr' & Hch).
  assert (r' = r) as ->; [|done].
  apply (NoDup_fmap_eq address results); try done.
  by rewrite <- (changeOf_address _ _ _ Hch).
Qed.

Lemma statusChangesOf_none results coll r :
  NoDup (address <$> results) → r ∈ results →
  changeOf (currentStatusMapOf results coll) r = None →
  address r ∉ ch_address <$> statusChangesOf results coll.
Proof.
  intros Hnd Hr Hnone (c & Ha & Hc)%list_elem_of_fmap.
  by rewrite (statusChangesOf_at results coll r c) in Hnone.
Qed.

Lemma afterChanges_clock results w :
  clock (afterChanges results w) = clock w
  ∧ clockReads w ≤ clockReads (afterChanges results w).
Proof. apply (foldl_stepChange_clock _ (advance 0 1 (ips w) (downtimes w) w)). Qed.

Lemma afterChanges_project results w :
  project (ips (afterChanges results w)) = project (ips w).
Proof. apply (foldl_stepChange_project _ (advance 0 1 (ips w) (downtimes w) w)). Qed.

Lemma afterChanges_other results w a :
  a ∉ ch_address <$> statusChangesOf results (ips w) →
  findOne a (ips (afterChanges results w)) = findOne a (ips w)
  ∧ eventsOf a (downtimes (afterChanges results w)) = eventsOf a (downtimes w).
Proof. apply (foldl_stepChange_other _ _ (advance 0 1 (ips w) (downtimes w) w)). Qed.

(** What the handling of the status changes does for the address of one
    result. *)
Lemma afterChanges_at results w r :
  UniqueAddresses (ips w) → NoDup (address <$> results) → r ∈ results →
  let a := address r in
  let w2 := afterChanges results w in
  match findOne a (ips w) with
  | None =>
      findOne a (ips w2) = None ∧ eventsOf a (downtimes w2) = eventsOf a (downtimes w)
  | Some d =>
      if bool_decide (ip_status d = statusOf (alive r)) then
        findOne a (ips w2) = Some d ∧ eventsOf a (downtimes w2) = eventsOf a (downtimes w)
      else if alive r then
        findOne a (ips w2) = Some d
        ∧ if bool_decide (ip_status d = Down) then
            ∃ k, clockReads w ≤ k
                 ∧ (is_Some (findLatestOpen a (eventsOf a (downtimes w))) → k < clockReads w2)
                 ∧ eventsOf a (downtimes w2)
                   = closeLatest a (clock w k) (eventsOf a (downtimes w))
          else eventsOf a (downtimes w2) = eventsOf a (downtimes w)
      else
        ∃ k, clockReads w ≤ k ∧ S k < clockReads w2
             ∧ findOne a (ips w2) = Some (markDown (clock w (S k)) d)
             ∧ eventsOf a (downtimes w2)
               = eventsOf a (downtimes w) ++ [mkDowntime a (clock w k) None "Ping timeout"]
  end.
Proof.
  intros Hu Hnd Hr a w2.
  assert (a ∈ address <$> results) as Ha by (by apply list_elem_of_fmap_2).
  pose proof (currentStatusMapOf_lookup results (ips w) a Hu Ha) as Hm.
  destruct (changeOf (currentStatusMapOf results (ips w)) r) as [c|] eqn:Hch.
  - (* a status change was pushed for the result *)
    assert (c ∈ statusChangesOf results (ips w)) as Hc.
    { rewrite statusChangesOf_changes. apply list_elem_of_omap. by exists r. }
    pose proof (changeOf_address _ _ _ Hch) as Hca. fold a in Hca.
    destruct (foldl_stepChange_at _ c (advance 0 1 (ips w) (downtimes w) w)
                (statusChangesOf_NoDup results (ips w) Hnd) Hc)
      as (w1 & Hf1 & He1 & Hclk & Hr1 & Hr2 & Hf2 & He2).
    fold (afterChanges results w) in Hr2, Hf2, He2. fold w2 in Hr2, Hf2, He2.
    rewrite Hca in *. simpl in Hf1, He1, Hclk, Hr1.
    unfold changeOf in Hch. fold a in Hch. rewrite Hm in Hch.
    destruct (findOne a (ips w)) as [d|] eqn:Hd; [|done]. simpl in Hch.
    case_bool_decide as Hs; [|done]. injection Hch as <-.
    rewrite bool_decide_eq_false_2 by done.
    destruct (alive r) eqn:Hal; simpl in *.
    + (* the target is up *)
      case_bool_decide as Hdown.
      * destruct (stepChange_up w1 (mkChange a (ip_status d) Up) eq_refl Hdown)
          as (Hi & Hdt & Hrd).
        simpl in Hdt. rewrite Hf2, Hi, Hf1. split; [done|].
        exists (clockReads w1). split; [done|]. split.
        -- intros Hsome. rewrite <- He1 in Hsome.
           assert (is_Some (findLatestOpen a (downtimes w1))) as [[j t] Hj].
           { pose proof (latest_eventsOf a (downtimes w1)) as Hl.
             destruct Hsome as [p Hp]. rewrite Hp in Hl.
             destruct (findLatestOpen a (downtimes w1)); [by eexists|done]. }
           enough (clockReads (stepChange w1 (mkChange a Down Up)) = S (clockReads w1))
             as Hq by (rewrite Hdown in Hr2; lia).
           unfold stepChange. simpl. by rewrite Hj.
        -- by rewrite He2, Hdt, eventsOf_closeLatest, He1, Hclk.
      * rewrite stepChange_nothing in Hf2, He2 by (simpl; naive_solver).
        by rewrite Hf2, He2, Hf1, He1.
    + (* the target is down *)
      exists (clockReads w1). split; [done|]. split; [lia|].
      rewrite Hf2, He2. rewrite findOne_updateOne_eq by done.
      rewrite eventsOf_snoc. simpl. rewrite bool_decide_eq_true_2 by done.
      by rewrite Hf1, He1, Hclk.
  - (* no status change was pushed for the result *)
    destruct (afterChanges_other results w a
                (statusChangesOf_none results (ips w) r Hnd Hr Hch)) as [Hf He].
    fold w2 in Hf, He. rewrite Hf, He.
    unfold changeOf in Hch. fold a in Hch. rewrite Hm in Hch.
    destruct (findOne a (ips w)) as [d|]; [|done]. simpl in Hch.
    case_bool_decide as Hs; [done|].
    by rewrite bool_decide_eq_true_2.
Qed.

(* ===================================================================== *)
(** ** The stores after one reconciliation *)
(* ===================================================================== *)

Lemma findIn_ok addrs w :
  NoFaults w →
  findIn addrs w
  = Ok (project (filter (fun x => ip_address x ∈ addrs) (ips w)))
       (advance 0 1 (ips w) (downtimes w) w).
Proof. intros H. unfold findIn. by rewrite storage_ok. Qed.

(** *** The operations that are sent *)

Lemma validOps_snd ops : ∀ g : nat → nat,
  (filter (fun p : nat * BulkOp => casts p.2 = true) (imap (fun i o => (g i, o)) ops)).*2
  = filter (fun o => casts o = true) ops.
Proof.
  induction ops as [|o ops IH]; intros g; [done|].
  rewrite imap_cons, !filter_cons. simpl.
  specialize (IH (g ∘ S)). simpl in IH.
  destruct (decide (casts o = true)); simpl; by rewrite <- IH.
Qed.

(** The operations sent are those that cast, in some order. *)
Lemma sentOps_perm ops : sentOps ops ≡ₚ filter (fun o => casts o = true) ops.
Proof.
  unfold sentOps. rewrite sorting.merge_sort_Permutation.
  pose proof (validOps_snd ops id) as H. unfold id in H.
  unfold validOps. by rewrite H.
Qed.

Lemma elem_of_sentOps o ops : o ∈ sentOps ops ↔ casts o = true ∧ o ∈ ops.
Proof. by rewrite sentOps_perm, list_elem_of_filter. Qed.

Lemma sentOps_NoDup ops : NoDup (op_filter <$> ops) → NoDup (op_filter <$> sentOps ops).
Proof.
  intros Hnd. rewrite sentOps_perm.
  eapply sublist_NoDup; [exact Hnd|]. apply fmap_sublist, sublist_filter.
Qed.

Lemma sentOps_nil : sentOps [] = [].
Proof. reflexivity. Qed.

Lemma orNull_unknown t : orNull t = UnknownTime ↔ t = UnknownTime.
Proof. destruct t as [z| |]; simpl; [case_bool_decide|..]; naive_solver. Qed.

(** The update of an outcome casts unless its time is 'unknown'. *)
Lemma casts_orNull o r :
  op_responseTime o = orNull (time r) → casts o = true ↔ time r ≠ UnknownTime.
Proof.
  intros Ho. unfold casts. rewrite bool_decide_eq_true, Ho. by rewrite orNull_unknown.
Qed.

Lemma sentFor_other results w a :
  a ∉ address <$> results → a ∉ op_filter <$> sentFor results w.
Proof.
  intros Ha (o & -> & [_ Ho]%elem_of_sentOps)%list_elem_of_fmap. apply Ha.
  rewrite <- (bulkOpsAt_filters (clock (afterChanges results w))
                results (clockReads (afterChanges results w))).
  by apply list_elem_of_fmap_2.
Qed.

(** *** The stores *)

Lemma findOne_project a coll coll' :
  project coll = project coll' → ip_status <$> findOne a coll = ip_status <$> findOne a coll'.
Proof.
  revert coll'. induction coll as [|d coll IH]; intros [|d' coll'] Hp; try done.
  unfold project in Hp. rewrite !fmap_cons in Hp. injection Hp as Ha Hs Hp.
  simpl. rewrite Ha. case_bool_decide; simpl; [by rewrite Hs|]. by apply IH.
Qed.

Lemma afterReconcile_downtimes results w :
  downtimes (afterReconcile results w) = downtimes (afterChanges results w).
Proof. unfold afterReconcile. by repeat case_bool_decide. Qed.

Lemma afterReconcile_clock results w :
  clock (afterReconcile results w) = clock w
  ∧ clockReads (afterChanges results w) ≤ clockReads (afterReconcile results w).
Proof.
  destruct (afterChanges_clock results w) as [Hc _].
  unfold afterReconcile. repeat case_bool_decide; simpl; (split; [done|lia]).
Qed.

Lemma afterReconcile_reads results w :
  clockReads (afterReconcile results w)
  = bulkReads results + clockReads (afterChanges results w).
Proof.
  unfold afterReconcile. destruct results as [|r results]; [done|].
  rewrite bool_decide_eq_false_2 by done.
  destruct (bool_decide (length (sentFor (r :: results) w) = 0)); reflexivity.
Qed.

(** The IP collection after a reconciliation: the operations sent, applied
    to the collection the status changes have left. *)
Lemma afterReconcile_ips results w :
  ips (afterReconcile results w)
  = (applyOps (sentFor results w) (ips (afterChanges results w))).2.
Proof.
  unfold afterReconcile. case_bool_decide as Hres.
  - destruct results; [reflexivity|done].
  - case_bool_decide as Hsent; simpl; [|done].
    by destruct (sentFor results w).
Qed.

Lemma afterReconcile_addresses results w :
  ip_address <$> ips (afterReconcile results w) = ip_address <$> ips w.
Proof.
  rewrite afterReconcile_ips, applyOps_addresses.
  by rewrite <- !project_fst, afterChanges_project.
Qed.

Lemma afterReconcile_other results w a :
  a ∉ address <$> results →
  findOne a (ips (afterReconcile results w)) = findOne a (ips w)
  ∧ eventsOf a (downtimes (afterReconcile results w)) = eventsOf a (downtimes w).
Proof.
  intros Ha.
  destruct (afterChanges_other results w a (statusChangesOf_other _ _ _ Ha)) as [Hf He].
  rewrite afterReconcile_downtimes. split; [|done].
  rewrite afterReconcile_ips, findOne_applyOps_other; [done|].
  by apply sentFor_other.
Qed.

(** The document of the address of a result, once the bulk update is done.
    When the time of the result is 'unknown' its operation is not sent and
    the document is as the status changes have left it; otherwise the
    status is the one of the result, the counter has the increment of the
    bulk update and lastDowntime is untouched. *)
Lemma afterReconcile_at results w r :
  NoDup (address <$> results) → r ∈ results →
  ∃ o, op_status o = statusOf (alive r)
       ∧ op_inc o = (if alive r then 0 else 1)
       ∧ op_responseTime o = orNull (time r)
       ∧ (∃ k, clockReads (afterChanges results w) ≤ k
               ∧ k < bulkReads results + clockReads (afterChanges results w)
               ∧ op_lastChecked o = clock w k)
       ∧ findOne (address r) (ips (afterReconcile results w))
         = (if bool_decide (time r = UnknownTime) then id else applyBulkOp o)
             <$> findOne (address r) (ips (afterChanges results w)).
Proof.
  intros Hnd Hr.
  destruct (afterChanges_clock results w) as [Hclk Hreads].
  destruct (bulkOpsAt_elem_bound (clock w) results r (clockReads (afterChanges results w)) Hr)
    as (o & Ho & Hfil & Hst & Hinc & Hrt & k & Hk1 & Hk2 & Hlc).
  exists o. split; [done|]. split; [done|]. split; [done|].
  split; [by exists k|].
  assert (NoDup (op_filter <$> bulkOpsAt (clock w) (clockReads (afterChanges results w))
                                 results)) as Hndo by by rewrite bulkOpsAt_filters.
  rewrite afterReconcile_ips. unfold sentFor. rewrite Hclk.
  case_bool_decide as Hunk.
  - rewrite findOne_applyOps_other; [by destruct (findOne _ _)|].
    intros (o' & Hf' & [Hc' Ho']%elem_of_sentOps)%list_elem_of_fmap.
    assert (o' = o) as ->.
    { eapply NoDup_fmap_eq; [exact Hndo|done|done|congruence]. }
    apply (casts_orNull o r Hrt) in Hc'. done.
  - rewrite <- Hfil. apply findOne_applyOps_at; [by apply sentOps_NoDup|].
    apply elem_of_sentOps. split; [|done]. by apply (casts_orNull o r Hrt).
Qed.

Lemma statusAt_afterReconcile_at results w r :
  NoDup (address <$> results) → r ∈ results →
  statusAt (address r) (afterReconcile results w)
  = (fun d => if bool_decide (time r = UnknownTime) then ip_status d
              else statusOf (alive r)) <$> findOne (address r) (ips w).
Proof.
  intros Hnd Hr. unfold statusAt.
  destruct (afterReconcile_at results w r Hnd Hr) as (o & Hst & _ & _ & _ & ->).
  pose proof (findOne_project (address r) _ _ (afterChanges_project results w)) as Hp.
  destruct (findOne (address r) (ips (afterChanges results w))) as [d2|],
    (findOne (address r) (ips w)) as [d|]; simpl in *; try done.
  injection Hp as Hp. case_bool_decide; simpl; [by rewrite Hp|by rewrite Hst].
Qed.

(* ===================================================================== *)
(** ** Events *)
(* ===================================================================== *)

Lemma isOpenFor_openEvent a t : isOpenFor a (mkDowntime a t None "Ping timeout") = true.
Proof. by apply isOpenFor_true. Qed.

Lemma closeLatest_length a now dts : length (closeLatest a now dts) = length dts.
Proof.
  unfold closeLatest. destruct (findLatestOpen a dts) as [[j t]|]; [|done].
  apply length_alter.
Qed.

Lemma openCount_closed a dts :
  (∀ e, e ∈ dts → dt_duration e ≠ None) → openCount a dts = 0.
Proof.
  intros H. induction dts as [|d dts IH]; [done|].
  rewrite openCount_cons, IH by set_solver.
  assert (isOpenFor a d = false) as ->; [|done].
  apply isOpenFor_false. intros [_ Ho]. by apply (H d); [left|].
Qed.

(* ===================================================================== *)
(** ** Addresses without a document *)
(* ===================================================================== *)

Lemma updateOne_absent f a coll : findOne a coll = None → updateOne a f coll = coll.
Proof.
  induction coll as [|d coll IH]; [done|]. simpl.
  case_bool_decide; [done|]. intros Habs. by rewrite IH.
Qed.

Lemma matches_absent a coll : findOne a coll = None → matches a coll = false.
Proof. intros H%findOne_None. unfold matches. by rewrite bool_decide_eq_false_2. Qed.

Lemma statusChangesOf_absent results coll a :
  findOne a coll = None → a ∉ ch_address <$> statusChangesOf results coll.
Proof.
  intros Habs (c & -> & Hc)%list_elem_of_fmap. rewrite statusChangesOf_changes in Hc.
  apply list_elem_of_omap in Hc as (r & _ & Hch).
  pose proof (changeOf_address _ _ _ Hch) as Ha. unfold changeOf in Hch.
  rewrite <- Ha, (currentStatusMapOf_absent results coll _ Habs) in Hch. done.
Qed.

Lemma afterReconcile_absent results w a :
  findOne a (ips w) = None →
  findOne a (ips (afterReconcile results w)) = None
  ∧ eventsOf a (downtimes (afterReconcile results w)) = eventsOf a (downtimes w).
Proof.
  intros Habs. split.
  - apply findOne_None. rewrite afterReconcile_addresses. by apply findOne_None.
  - rewrite afterReconcile_downtimes.
    by apply afterChanges_other, statusChangesOf_absent.
Qed.

(* ===================================================================== *)
(** ** Duplicate addresses among the results *)
(* ===================================================================== *)

(** The document of an address after a bulk write: the operations for the
    address applied in order. *)
Lemma findOne_applyOps ops a : ∀ coll,
  findOne a (applyOps ops coll).2
  = (fun d => foldl (fun d o => if bool_decide (op_filter o = a) then applyBulkOp o d else d)
                d ops) <$> findOne a coll.
Proof.
  induction ops as [|o ops IH]; intros coll.
  - simpl. by destruct (findOne a coll).
  - rewrite applyOps_cons, IH. simpl. case_bool_decide as Ho.
    + rewrite Ho, findOne_updateOne_eq by done. by destruct (findOne a coll).
    + by rewrite findOne_updateOne_ne by done.
Qed.

(** The status left by the operations of a bulk update is the one of the
    last result for the address. *)
Lemma bulkOps_status clk a updates : ∀ n d,
  ip_status (foldl (fun d o => if bool_decide (op_filter o = a) then applyBulkOp o d else d)
               d (bulkOpsAt clk n updates))
  = from_option (fun r => statusOf (alive r)) (ip_status d)
      (last (filter (fun r => address r = a) updates)).
Proof.
  induction updates as [|u rest IH]; intros n d; [done|].
  simpl. rewrite IH. rewrite filter_cons. simpl. case_bool_decide as Hu.
  - rewrite decide_True by done. rewrite last_cons. simpl.
    by destruct (last (filter (fun r => address r = a) rest)).
  - by rewrite decide_False by done.
Qed.

(** Each result is compared with the status recorded at the start. *)
Lemma statusChangesOf_statusAt results w :
  UniqueAddresses (ips w) →
  statusChangesOf results (ips w) = omap (changeAgainst w) results.
Proof.
  intros Hu. rewrite statusChangesOf_changes. apply list_omap_ext.
  apply Forall_Forall2_diag, Forall_forall. intros r Hr.
  unfold changeOf, changeAgainst, statusAt.
  rewrite (currentStatusMapOf_lookup results (ips w) (address r) Hu); [done|].
  by apply list_elem_of_fmap_2.
Qed.

(* ===================================================================== *)
(** ** The cycle as a whole *)
(* ===================================================================== *)

Lemma findAll_run w :
  fault w (storageOps w) = None →
  findAll w = Ok (project (ips w)) (advance 0 1 (ips w) (downtimes w) w).
Proof. intros H. unfold findAll. by rewrite storage_run. Qed.

Lemma findAll_inv w loaded w1 :
  findAll w = Ok loaded w1 →
  fault w (storageOps w) = None ∧ loaded = project (ips w)
  ∧ w1 = advance 0 1 (ips w) (downtimes w) w.
Proof.
  destruct (fault w (storageOps w)) as [e|] eqn:E.
  - unfold findAll. by rewrite (storage_fault _ _ e).
  - rewrite findAll_run by done. by intros [= <- <-].
Qed.

(** A cycle whose loading fails reports the failure and no work. *)
Lemma runPingCycle_load_fault config env w e :
  fault w (storageOps w) = Some e →
  runPingCycle config env w = Ok (failedCycle e) (advance 0 1 (ips w) (downtimes w) w).
Proof.
  intros H. unfold runPingCycle, try_catch, bind, findAll.
  by rewrite (storage_fault _ _ e).
Qed.

(** A cycle over loaded targets: what it returns follows what the
    reconciliation of its outcomes does. *)
Lemma runPingCycle_loaded config env w loaded w1 :
  findAll w = Ok loaded w1 → loaded ≠ [] →
  ∃ results,
    cycleOutcomes config env loaded = Some results
    ∧ address <$> results = loaded.*1
    ∧ runPingCycle config env w
      = match updatePingResults results w1 with
        | Ok u w2 =>
            Ok (mkCycleResult (length loaded) (length results) (Some (u_statusChanges u))
                  (Some (countAlive results)) (Some (countNotAlive results)) None) w2
        | Throw e w2 => Ok (failedCycle e) w2
        | Diverge => Diverge
        end.
Proof.
  intros Hload Hne.
  destruct (cycleOutcomes_addresses config env loaded) as (results & Hout & Haddr).
  exists results. split; [done|]. split; [done|].
  unfold runPingCycle, try_catch, bind. rewrite Hload.
  rewrite bool_decide_eq_false_2 by (by destruct loaded).
  rewrite Hout. by destruct (updatePingResults results w1).
Qed.

Lemma runPingCycle_empty config env w w1 :
  findAll w = Ok [] w1 →
  runPingCycle config env w = Ok (mkCycleResult 0 0 None None None None) w1.
Proof. intros H. unfold runPingCycle, try_catch, bind. by rewrite H. Qed.

(** Every call of runPingCycle fulfils, and with equal counts. *)
Lemma runPingCycle_returns config env w :
  ∃ r w', runPingCycle config env w = Ok r w' ∧ c_processed r = c_total r.
Proof.
  destruct (fault w (storageOps w)) as [e|] eqn:E.
  - rewrite (runPingCycle_load_fault _ _ _ e) by done. by eexists _, _.
  - pose proof (findAll_run w E) as Hload.
    destruct (ips w) as [|d coll] eqn:Hips.
    + rewrite (runPingCycle_empty _ _ _ _ Hload). by eexists _, _.
    + destruct (runPingCycle_loaded config env w _ _ Hload) as (results & _ & Haddr & ->);
        [done|].
      pose proof (Settles_updatePingResults results
                    (advance 0 1 (d :: coll) (downtimes w) w)) as Hs.
      destruct (updatePingResults results _) as [u w2|e w2|]; [| |done].
      * eexists _, _. split; [done|]. simpl.
        rewrite <- (length_fmap address results), Haddr. by rewrite !length_fmap.
      * by eexists _, _.
Qed.

(* ===================================================================== *)
(** ** Properties of the partitioning and of the cycle *)
(* ===================================================================== *)

Lemma batchLoop_lengths {A} fuel i batchSize (l : list A) :
  fmap (M := option) (fmap (M := list) length) (batchLoop fuel i batchSize l)
  = fmap (M := option) (fmap (M := list) length)
      (batchLoop fuel i batchSize (replicate (length l) tt)).
Proof.
  rewrite <- (const_fmap (fun _ => tt) l tt) by done. rewrite batchLoop_fmap.
  destruct (batchLoop fuel i batchSize l) as [bs|]; simpl; [|done].
  f_equal. rewrite <- list_fmap_compose. apply list_fmap_ext.
  intros _ b _. simpl. by rewrite length_fmap.
Qed.

(** C10. The partitioner uses workerCount = min(maxWorkers,
    ceil(N / maxBatchSize)) workers and batches of ceil(N / workerCount)
    targets, ceil(a / b) being the least count c with a <= c * b; the
    batches are slices of the targets in order; and 130 targets with
    maxWorkers = 4 and maxBatchSize = 50 give three batches of 44, 44 and
    42 targets. *)
Theorem partition_sizing config (targets : list string) :
  0 < length targets → 0 < WORKER_COUNT config → 0 < MAX_BATCH_SIZE config →
  let N := length targets in
  ∃ c workerCount b batches,
    (c - 1) * MAX_BATCH_SIZE config < N ∧ N ≤ c * MAX_BATCH_SIZE config
    ∧ workerCount = WORKER_COUNT config `min` c
    ∧ optimalWorkerCount config N = workerCount
    ∧ (b - 1) * workerCount < N ∧ N ≤ b * workerCount
    ∧ batchSizeFor config N = Fin b
    ∧ partition config targets = Some batches
    ∧ concat batches = targets
    ∧ (config = mkConfig 4 50 → N = 130 → length <$> batches = [44; 44; 42]).
Proof.
  intros HN Hw Hb N.
  destruct (ceilDiv_spec N (MAX_BATCH_SIZE config) HN Hb) as (c & Hc & Hc1 & Hc2).
  assert (0 < c) as Hcpos by apply (ceilDiv_pos N _ c HN Hc).
  assert (optimalWorkerCount config N = WORKER_COUNT config `min` c) as Hopt.
  { unfold optimalWorkerCount. by rewrite Hc. }
  destruct (ceilDiv_spec N (WORKER_COUNT config `min` c) HN ltac:(lia)) as (b & Hbs & Hb1 & Hb2).
  assert (batchSizeFor config N = Fin b) as Hsize.
  { unfold batchSizeFor. by rewrite Hopt. }
  destruct (partition_ends config targets) as [batches Hp].
  exists c, (WORKER_COUNT config `min` c), b, batches.
  repeat split; try done; [by eapply partition_concat|].
  intros -> HN130. unfold partition in Hp. fold N in Hp. rewrite HN130 in Hp.
  pose proof (batchLoop_lengths 130 0 (batchSizeFor (mkConfig 4 50) 130) targets) as Hl.
  rewrite Hp in Hl. fold N in Hl. rewrite HN130 in Hl.
  vm_compute in Hl. by injection Hl.
Qed.

Lemma partition_sizing_witness :
  ∃ c workerCount b batches,
    (c - 1) * 50 < 130 ∧ 130 ≤ c * 50
    ∧ workerCount = 4 `min` c
    ∧ optimalWorkerCount defaultConfig 130 = workerCount
    ∧ (b - 1) * workerCount < 130 ∧ 130 ≤ b * workerCount
    ∧ batchSizeFor defaultConfig 130 = Fin b
    ∧ partition defaultConfig (replicate 130 "10.0.0.1"%string) = Some batches
    ∧ concat batches = replicate 130 "10.0.0.1"%string
    ∧ (defaultConfig = mkConfig 4 50 → 130 = 130 → length <$> batches = [44; 44; 42]).
Proof.
  apply (partition_sizing defaultConfig (replicate 130 "10.0.0.1"%string));
    vm_compute; lia.
Defined.




Lemma countNotAlive_unreachable (l : list string) :
  countNotAlive (unreachable <$> l) = length l ∧ countAlive (unreachable <$> l) = 0.
Proof.
  unfold countNotAlive, countAlive. induction l as [|a l [IH1 IH2]]; [done|].
  rewrite fmap_cons. rewrite filter_cons_True by done.
  rewrite filter_cons_False by done. simpl. by rewrite IH1, IH2.
Qed.

(** C3. If the three executions of a batch (the first one and the 2
    retries) all fail, processBatchWithRetry returns one outcome per
    address of the batch, in order, with alive = false and the error
    'Worker thread failed after retries' (a third execution that completes
    after two failed ones still gives its results); and a cycle in which
    every execution of every batch fails still returns, with processed
    equal to total, and, when no storage operation fails, with every loaded
    target counted as processed and as down. *)
Theorem retry_exhaustion (runs : nat → WorkerRun) (batch : list string) :
  (∀ k, k ≤ defaultRetries → ∃ message, runs k = Crashed message) →
  defaultRetries = 2
  ∧ processBatchWithRetry runs batch defaultRetries
    = (fun ip => mkOutcome ip false NoTime (Some "Worker thread failed after retries"%string))
        <$> batch
  ∧ (∀ probe message0 message1,
       processBatchWithRetry
         (fun k => match k with
                   | 0 => Crashed message0
                   | 1 => Crashed message1
                   | _ => Completed probe
                   end) batch defaultRetries
       = processIPs probe batch)
  ∧ ∀ config w,
      ∃ r w', runPingCycle config (fun _ => runs) w = Ok r w'
              ∧ c_processed r = c_total r
              ∧ (NoFaults w → ips w ≠ [] →
                 c_error r = None ∧ c_processed r = length (ips w)
                 ∧ c_down r = Some (length (ips w)) ∧ c_up r = Some 0).
Proof.
  intros Hruns. split; [done|]. split.
  { by rewrite processBatchWithRetry_exhausted. }
  split; [done|]. intros config w.
  destruct (runPingCycle_returns config (fun _ => runs) w) as (r & w' & Hrun & Heq).
  exists r, w'. split; [done|]. split; [done|]. intros Hnf Hne.
  pose proof (findAll_run w (Hnf (storageOps w) (le_n _))) as Hload.
  destruct (runPingCycle_loaded config (fun _ => runs) w _ _ Hload)
    as (results & Hout & Haddr & Hrun'); [by destruct (ips w)|].
  rewrite updatePingResults_ok in Hrun' by by apply NoFaults_advance.
  rewrite Hrun in Hrun'. injection Hrun' as -> _.
  unfold cycleOutcomes in Hout.
  destruct (partition config (project (ips w)).*1) as [batches|] eqn:Hp; [|done].
  injection Hout as <-. rewrite dispatch_exhausted by (intros _ k; apply Hruns).
  rewrite (partition_concat _ _ _ Hp). simpl.
  destruct (countNotAlive_unreachable (project (ips w)).*1) as [-> ->].
  unfold project. by rewrite !length_fmap.
Qed.

Lemma retry_exhaustion_witness :
  defaultRetries = 2
  ∧ processBatchWithRetry (allCrash 0) ["10.0.0.1"%string; "10.0.0.2"%string] defaultRetries
    = (fun ip => mkOutcome ip false NoTime (Some "Worker thread failed after retries"%string))
        <$> ["10.0.0.1"%string; "10.0.0.2"%string]
  ∧ (∀ probe message0 message1,
       processBatchWithRetry
         (fun k => match k with
                   | 0 => Crashed message0
                   | 1 => Crashed message1
                   | _ => Completed probe
                   end) ["10.0.0.1"%string; "10.0.0.2"%string] defaultRetries
       = processIPs probe ["10.0.0.1"%string; "10.0.0.2"%string])
  ∧ ∀ config w,
      ∃ r w', runPingCycle config (fun _ => allCrash 0) w = Ok r w'
              ∧ c_processed r = c_total r
              ∧ (NoFaults w → ips w ≠ [] →
                 c_error r = None ∧ c_processed r = length (ips w)
                 ∧ c_down r = Some (length (ips w)) ∧ c_up r = Some 0).
Proof.
  apply (retry_exhaustion (allCrash 0) ["10.0.0.1"%string; "10.0.0.2"%string]).
  intros k _. by exists "exit code 1"%string.
Defined.

(** Three failed executions of a batch of one address: the error of the
    outcome is not 'execution failed after retries'. *)
Lemma retry_exhaustion_counterexample :
  (∀ k, k ≤ defaultRetries → ∃ message, allCrash 0 k = Crashed message)
  ∧ processBatchWithRetry (allCrash 0) ["10.0.0.1"%string] defaultRetries
    = [mkOutcome "10.0.0.1" false NoTime (Some "Worker thread failed after retries"%string)]
  ∧ error <$> processBatchWithRetry (allCrash 0) ["10.0.0.1"%string] defaultRetries
    ≠ [Some "execution failed after retries"%string].
Proof.
  split; [intros k _; by exists "exit code 1"%string|]. split; [reflexivity|].
  vm_compute. discriminate.
Qed.

(** C6. runPingCycle never rejects and always settles: every call returns
    a result. A failure is reported in the result with total 0 and
    processed 0; a storage failure while loading leaves both collections
    as they were. After any cycle, failed or not, the next call returns a
    result again, a complete one if no storage operation fails during it. *)
Theorem runPingCycle_never_raises config env w :
  ∃ r w',
    runPingCycle config env w = Ok r w'
    ∧ (∀ e, c_error r = Some e → c_total r = 0 ∧ c_processed r = 0)
    ∧ (∀ e, fault w (storageOps w) = Some e →
         r = failedCycle e ∧ ips w' = ips w ∧ downtimes w' = downtimes w)
    ∧ ∀ config' env',
        ∃ r2 w2, runPingCycle config' env' w' = Ok r2 w2
                 ∧ (NoFaults w' →
                    c_error r2 = None ∧ c_total r2 = length (ips w')
                    ∧ c_processed r2 = length (ips w')).
Proof.
  assert (∀ config env w, ∃ r w',
            runPingCycle config env w = Ok r w'
            ∧ (∀ e, c_error r = Some e → c_total r = 0 ∧ c_processed r = 0)
            ∧ (NoFaults w →
               c_error r = None ∧ c_total r = length (ips w)
               ∧ c_processed r = length (ips w))) as Hgen.
  { clear. intros config env w.
    destruct (fault w (storageOps w)) as [e|] eqn:E.
    - rewrite (runPingCycle_load_fault _ _ _ e) by done. eexists _, _.
      split; [done|]. split; [done|]. intros Hnf. by rewrite Hnf in E.
    - pose proof (findAll_run w E) as Hload.
      destruct (ips w) as [|d coll] eqn:Hips.
      + rewrite (runPingCycle_empty _ _ _ _ Hload). by eexists _, _.
      + destruct (runPingCycle_loaded config env w _ _ Hload)
          as (results & _ & Haddr & ->); [done|].
        pose proof (Settles_updatePingResults results
                      (advance 0 1 (d :: coll) (downtimes w) w)) as Hs.
        destruct (updatePingResults results _) as [u w2|e w2|] eqn:Hu; [| |done].
        * eexists _, _. split; [done|]. split; [done|]. intros _. simpl.
          rewrite <- (length_fmap address results), Haddr.
          unfold project. by rewrite !length_fmap.
        * eexists _, _. split; [done|]. split; [done|]. intros Hnf.
          rewrite updatePingResults_ok in Hu; [done|].
          rewrite <- Hips. by apply NoFaults_advance. }
  destruct (Hgen config env w) as (r & w' & Hrun & Hzero & _).
  exists r, w'. split; [done|]. split; [done|]. split.
  - intros e He. rewrite (runPingCycle_load_fault _ _ _ e) in Hrun by done.
    by injection Hrun as <- <-.
  - intros config' env'. destruct (Hgen config' env' w') as (r2 & w2 & ? & _ & ?).
    by exists r2, w2.
Qed.

(* ===================================================================== *)
(** ** Properties of the driver *)
(* ===================================================================== *)

(** The loop after startPingService and [fires] fires of the timer. *)
Lemma driver_state (PING_INTERVAL : Z) (fires : nat) :
  driver PING_INTERVAL fires
  = mkLoop (Z.of_nat fires * PING_INTERVAL)
      (Some (PING_INTERVAL, (Z.of_nat fires + 1) * PING_INTERVAL)%Z)
      ((fun k => Z.of_nat k * PING_INTERVAL)%Z <$> seq 0 (S fires)).
Proof.
  unfold driver. induction fires as [|fires IH].
  - simpl. unfold startPingService, setInterval, callRunPingCycle. simpl.
    f_equal. f_equal. f_equal. lia.
  - rewrite Nat.iter_succ, IH. unfold fire, callRunPingCycle. cbn [pingInterval started now].
    rewrite (seq_S (S fires)), fmap_app. cbn [fmap list_fmap Nat.add].
    f_equal; [lia| |f_equal; f_equal; lia]. f_equal. f_equal. lia.
Qed.

Lemma cycleStart_driver (PING_INTERVAL : Z) (k : nat) :
  cycleStart PING_INTERVAL k = (Z.of_nat k * PING_INTERVAL)%Z.
Proof.
  unfold cycleStart. rewrite driver_state. cbn [started].
  rewrite list_lookup_fmap, lookup_seq_lt by lia. done.
Qed.

(** C7. startPingService calls runPingCycle at once and arms with
    setInterval a timer of period PING_INTERVAL, each fire of which
    calls runPingCycle again; nothing waits for the promise of a cycle.
    After any number of fires the cycles started are cycle 0 up to the
    cycle of the last fire, each at its own fire: cycle k starts at
    k * PING_INTERVAL, whatever the cycles take. A cycle starts when the
    previous one has settled exactly when the previous one takes at most
    PING_INTERVAL. *)
Theorem cycles_on_fixed_timer (PING_INTERVAL : Z) (duration : nat → Z) (fires : nat) :
  started (startPingService PING_INTERVAL (mkLoop 0 None [])) = [0%Z]
  ∧ pingInterval (startPingService PING_INTERVAL (mkLoop 0 None []))
    = Some (PING_INTERVAL, PING_INTERVAL)
  ∧ driver PING_INTERVAL (S fires) = fire (driver PING_INTERVAL fires)
  ∧ fire (driver PING_INTERVAL fires)
    = callRunPingCycle
        (mkLoop (cycleStart PING_INTERVAL (S fires))
           (Some (PING_INTERVAL, cycleStart PING_INTERVAL (S fires) + PING_INTERVAL)%Z)
           (started (driver PING_INTERVAL fires)))
  ∧ started (driver PING_INTERVAL fires) = cycleStart PING_INTERVAL <$> seq 0 (S fires)
  ∧ now (driver PING_INTERVAL fires) = cycleStart PING_INTERVAL fires
  ∧ started (driver PING_INTERVAL (S fires))
    = started (driver PING_INTERVAL fires) ++ [cycleStart PING_INTERVAL (S fires)]
  ∧ cycleStart PING_INTERVAL fires = (Z.of_nat fires * PING_INTERVAL)%Z
  ∧ (cycleStart PING_INTERVAL (S fires) - cycleStart PING_INTERVAL fires = PING_INTERVAL)%Z
  ∧ ((cycleSettle PING_INTERVAL duration fires ≤ cycleStart PING_INTERVAL (S fires))%Z
     ↔ (duration fires ≤ PING_INTERVAL)%Z).
Proof.
  assert (∀ n, started (driver PING_INTERVAL n) = cycleStart PING_INTERVAL <$> seq 0 (S n))
    as Hstarted.
  { intros n. rewrite driver_state. cbn [started]. apply list_fmap_ext.
    intros i k _. by rewrite cycleStart_driver. }
  split; [reflexivity|]. split; [reflexivity|]. split; [reflexivity|].
  split.
  { rewrite cycleStart_driver, driver_state. unfold fire. cbn [pingInterval started].
    do 2 f_equal; [lia|]. do 2 f_equal. lia. }
  split; [apply Hstarted|]. split.
  { rewrite driver_state. cbn [now]. by rewrite cycleStart_driver. }
  split.
  { rewrite !Hstarted. by rewrite (seq_S (S fires)), fmap_app. }
  split; [apply cycleStart_driver|].
  unfold cycleSettle. rewrite !cycleStart_driver. split; [lia|]. split; lia.
Qed.

(** With an interval of 5000 ms and a first cycle that takes 6000 ms, the
    cycle of the first fire starts at 5000, before the first cycle has
    settled. *)
Lemma cycles_on_fixed_timer_counterexample :
  started (driver 5000 1) = [0%Z; 5000%Z]
  ∧ (cycleStart 5000 1 < cycleSettle 5000 (fun _ => 6000%Z) 0)%Z.
Proof. split; [reflexivity|]. vm_compute. reflexivity. Qed.

(* ===================================================================== *)
(** ** Properties of the reconciliation *)
(* ===================================================================== *)

(** C2. What the reconciliation does on a transition from Up to Down, for
    outcomes of distinct addresses and when no storage operation fails:
    one downtime event with duration = null is opened and lastDowntime is
    set, but downtimeCount is not incremented by exactly 1 as a rule. When
    the time of the outcome is null or a number, the handling of the
    status change and the bulk update each increment it, and it ends 2
    higher, with the status Down. When the time is 'unknown', as the ping
    library leaves it for a host that did not answer, the bulk update of
    the target is not sent: downtimeCount ends 1 higher and the status
    stays Up. *)
Theorem transition_counted_twice results w r d :
  NoFaults w → UniqueAddresses (ips w) → NoDup (address <$> results) →
  r ∈ results → findOne (address r) (ips w) = Some d →
  ip_status d = Up → alive r = false →
  ∃ u w' d' k,
    updatePingResults results w = Ok u w'
    ∧ findOne (address r) (ips w') = Some d'
    ∧ eventsOf (address r) (downtimes w')
      = eventsOf (address r) (downtimes w)
        ++ [mkDowntime (address r) (clock w k) None "Ping timeout"]
    ∧ ip_lastDowntime d' = Some (clock w (S k))
    ∧ if bool_decide (time r = UnknownTime)
      then ip_downtimeCount d' = ip_downtimeCount d + 1 ∧ ip_status d' = Up
      else ip_downtimeCount d' = ip_downtimeCount d + 2 ∧ ip_status d' = Down.
Proof.
  intros Hnf Hu Hnd Hr Hd Hup Hal.
  pose proof (afterChanges_at results w r Hu Hnd Hr) as Hat. simpl in Hat.
  rewrite Hd, Hup, Hal in Hat. simpl in Hat. destruct Hat as (k & _ & _ & Hf & He).
  destruct (afterReconcile_at results w r Hnd Hr) as (o & Hst & Hinc & _ & _ & Hfin).
  rewrite Hf in Hfin. simpl in Hfin. rewrite Hal in Hst, Hinc.
  eexists _, (afterReconcile results w), _, k.
  split; [by apply updatePingResults_ok|]. split; [exact Hfin|].
  rewrite afterReconcile_downtimes. split; [done|].
  case_bool_decide; simpl.
  - by rewrite Hup.
  - rewrite Hinc, Hst. split; [done|]. split; [lia|done].
Qed.

Lemma transition_counted_twice_witness :
  ∃ u w' d' k,
    updatePingResults [isDown "10.0.0.1"] (freshWorld [knownUp "10.0.0.1"] [] noFault)
    = Ok u w'
    ∧ findOne "10.0.0.1" (ips w') = Some d'
    ∧ eventsOf "10.0.0.1" (downtimes w')
      = [] ++ [mkDowntime "10.0.0.1" (clockFrom 1000 k) None "Ping timeout"]
    ∧ ip_lastDowntime d' = Some (clockFrom 1000 (S k))
    ∧ ip_downtimeCount d' = 0 + 2 ∧ ip_status d' = Down.
Proof.
  apply (transition_counted_twice [isDown "10.0.0.1"]
           (freshWorld [knownUp "10.0.0.1"] [] noFault)
           (isDown "10.0.0.1") (knownUp "10.0.0.1")).
  - intros n _. reflexivity.
  - unfold UniqueAddresses. vm_compute. apply NoDup_singleton.
  - vm_compute. apply NoDup_singleton.
  - by left.
  - reflexivity.
  - reflexivity.
  - reflexivity.
Defined.

(** C4. For every reconciled outcome that is alive while the recorded
    status of its target is Down (outcomes of distinct addresses, no
    storage operation failing): the most recent open downtime event of the
    target (duration = null, greatest start T0) gets as duration the time
    read during the reconciliation minus T0 and keeps its address, start
    and reason; the other events of the target are left as they were and
    none is added; when the target has no open event the reconciliation
    fulfils all the same and leaves the events of the target as they
    were. *)
Theorem closure_correctness results w r :
  NoFaults w → UniqueAddresses (ips w) → NoDup (address <$> results) →
  r ∈ results → alive r = true → statusAt (address r) w = Some Down →
  let a := address r in
  ∃ u w',
    updatePingResults results w = Ok u w'
    ∧ let before := eventsOf a (downtimes w) in
      let after := eventsOf a (downtimes w') in
      match findLatestOpen a before with
      | Some (j, T0) =>
          ∃ k e e',
            clockReads w ≤ k ∧ k < clockReads w'
            ∧ before !! j = Some e ∧ dt_duration e = None ∧ dt_timestamp e = T0
            ∧ (∀ x, x ∈ before → dt_duration x = None → (dt_timestamp x ≤ T0)%Z)
            ∧ after !! j = Some e'
            ∧ dt_duration e' = Some (clock w k - T0)%Z
            ∧ dt_ipAddress e' = a ∧ dt_timestamp e' = T0 ∧ dt_reason e' = dt_reason e
            ∧ length after = length before
            ∧ ∀ i, i ≠ j → after !! i = before !! i
      | None => (∀ e, e ∈ before → dt_duration e ≠ None) ∧ after = before
      end.
Proof.
  intros Hnf Hu Hnd Hr Hal Hst a. subst a.
  exists (mkUpdateResult (length results) (modifiedCountOf results w)
            (length (statusChangesOf results (ips w)))), (afterReconcile results w).
  split; [by apply updatePingResults_ok|]. simpl.
  rewrite afterReconcile_downtimes.
  pose proof (afterChanges_at results w r Hu Hnd Hr) as Hat. simpl in Hat.
  unfold statusAt in Hst.
  destruct (findOne (address r) (ips w)) as [d|]; [|done]. injection Hst as Hst.
  rewrite Hal, Hst in Hat. simpl in Hat. destruct Hat as [_ (k & Hk & Hread & He)].
  destruct (afterReconcile_clock results w) as [_ Hreads].
  assert (∀ e, e ∈ eventsOf (address r) (downtimes w) → dt_ipAddress e = address r) as Hown.
  { intros e He'. by apply list_elem_of_filter in He' as [? _]. }
  rewrite He. unfold closeLatest.
  destruct (findLatestOpen (address r) (eventsOf (address r) (downtimes w)))
    as [[j T0]|] eqn:Hlatest.
  - destruct (findLatestOpen_Some _ _ _ _ Hlatest) as (e & Hj & _ & Ho & Ht).
    exists k, e, (mkDowntime (dt_ipAddress e) (dt_timestamp e)
                    (Some (clock w k - T0)%Z) (dt_reason e)).
    split; [done|]. split; [specialize (Hread ltac:(by eexists)); lia|].
    split; [done|]. split; [done|]. split; [done|]. split.
    { intros x Hx Ho'. apply (findLatestOpen_max _ _ _ _ Hlatest x Hx (Hown x Hx) Ho'). }
    split; [by rewrite list_lookup_alter_eq, Hj|]. split; [done|].
    split; [simpl; apply Hown; by eapply list_elem_of_lookup_2|].
    split; [done|]. split; [done|]. split; [apply length_alter|].
    intros i Hi. by apply list_lookup_alter_ne.
  - split; [|done]. intros e He'.
    apply (findLatestOpen_None _ _ Hlatest e He' (Hown e He')).
Qed.

Lemma closure_correctness_witness :
  ∃ u w',
    updatePingResults [mkOutcome "10.0.0.1" true (Ms (Qc_of_Z 12)) None]
      (freshWorld [mkIP "10.0.0.1" Down 1 (Some 400%Z) 900 None]
         [mkDowntime "10.0.0.1" 400 None "Ping timeout"] noFault) = Ok u w'
    ∧ ∃ k e e',
        0 ≤ k ∧ k < clockReads w'
        ∧ [mkDowntime "10.0.0.1" 400 None "Ping timeout"] !! 0 = Some e
        ∧ dt_duration e = None ∧ dt_timestamp e = 400%Z
        ∧ (∀ x, x ∈ [mkDowntime "10.0.0.1" 400 None "Ping timeout"] →
                dt_duration x = None → (dt_timestamp x ≤ 400)%Z)
        ∧ eventsOf "10.0.0.1" (downtimes w') !! 0 = Some e'
        ∧ dt_duration e' = Some (clockFrom 1000 k - 400)%Z
        ∧ dt_ipAddress e' = "10.0.0.1"%string ∧ dt_timestamp e' = 400%Z
        ∧ dt_reason e' = dt_reason e
        ∧ length (eventsOf "10.0.0.1" (downtimes w')) = 1
        ∧ ∀ i, i ≠ 0 →
               eventsOf "10.0.0.1" (downtimes w') !! i
               = [mkDowntime "10.0.0.1" 400 None "Ping timeout"] !! i.
Proof.
  apply (closure_correctness [mkOutcome "10.0.0.1" true (Ms (Qc_of_Z 12)) None]
           (freshWorld [mkIP "10.0.0.1" Down 1 (Some 400%Z) 900 None]
              [mkDowntime "10.0.0.1" 400 None "Ping timeout"] noFault)
           (mkOutcome "10.0.0.1" true (Ms (Qc_of_Z 12)) None)).
  - intros n _. reflexivity.
  - unfold UniqueAddresses. vm_compute. apply NoDup_singleton.
  - vm_compute. apply NoDup_singleton.
  - by left.
  - reflexivity.
  - reflexivity.
Defined.

(** One reconciliation of the outcome of a host that did not answer, for a
    target that is not recorded Down: an event is opened and the recorded
    status stays what it was. *)
Lemma noAnswer_step a d w :
  NoFaults w → UniqueAddresses (ips w) → findOne a (ips w) = Some d → ip_status d ≠ Down →
  ∃ d', findOne a (ips (afterReconcile [noAnswer a] w)) = Some d'
        ∧ ip_status d' = ip_status d
        ∧ openCount a (downtimes (afterReconcile [noAnswer a] w))
          = openCount a (downtimes w) + 1.
Proof.
  intros Hnf Hu Hd Hst.
  assert (NoDup (address <$> [noAnswer a])) as Hnd by (simpl; apply NoDup_singleton).
  assert (noAnswer a ∈ [noAnswer a]) as Hr by by left.
  pose proof (afterChanges_at [noAnswer a] w (noAnswer a) Hu Hnd Hr) as Hat.
  simpl in Hat. rewrite Hd in Hat. simpl in Hat.
  rewrite bool_decide_eq_false_2 in Hat by done.
  destruct Hat as (k & _ & _ & Hf & He).
  destruct (afterReconcile_at [noAnswer a] w (noAnswer a) Hnd Hr) as (o & _ & _ & _ & _ & Hfin).
  change (address (noAnswer a)) with a in Hfin.
  change (time (noAnswer a)) with UnknownTime in Hfin.
  rewrite Hf, bool_decide_eq_true_2 in Hfin by done.
  eexists. split; [exact Hfin|]. split; [done|].
  rewrite afterReconcile_downtimes. unfold openCount.
  rewrite He, filter_app, length_app. by rewrite filter_cons_True.
Qed.

(** C5. The invariant is broken without any storage failure. For a host
    that does not answer, the worker posts an outcome with alive = false
    and time 'unknown'; the bulk update of such an outcome is not sent, so
    that the recorded status of the target stays what it was. Reconciled
    serially, n such outcomes for a target that is not recorded Down open
    n downtime events, none of which is closed. *)
Theorem unanswered_host_opens_event_each_cycle a d (n : nat) : ∀ w,
  NoFaults w → UniqueAddresses (ips w) → findOne a (ips w) = Some d → ip_status d ≠ Down →
  processIPs (fun _ => Replied false UnknownTime "") [a] = [noAnswer a]
  ∧ ∃ w',
      reconcileAll (replicate n [noAnswer a]) w = Ok tt w'
      ∧ openCount a (downtimes w') = openCount a (downtimes w) + n
      ∧ statusAt a w' = Some (ip_status d).
Proof.
  intros w Hnf Hu Hd Hst. split; [reflexivity|].
  revert w d Hnf Hu Hd Hst. induction n as [|n IH]; intros w d Hnf Hu Hd Hst.
  - exists w. split; [done|]. split; [lia|]. unfold statusAt. by rewrite Hd.
  - destruct (noAnswer_step a d w Hnf Hu Hd Hst) as (d' & Hd' & Hs' & Hopen).
    destruct (IH (afterReconcile [noAnswer a] w) d') as (w' & Hrun & Hcount & Hstat).
    + by apply NoFaults_afterReconcile.
    + unfold UniqueAddresses. by rewrite afterReconcile_addresses.
    + done.
    + by rewrite Hs'.
    + exists w'. split; [|split].
      * simpl. unfold bind. by rewrite updatePingResults_ok.
      * rewrite Hcount, Hopen. lia.
      * by rewrite Hstat, Hs'.
Qed.

Lemma unanswered_host_opens_event_each_cycle_witness :
  processIPs (fun _ => Replied false UnknownTime "") ["10.0.0.1"%string]
  = [noAnswer "10.0.0.1"]
  ∧ ∃ w',
      reconcileAll (replicate 2 [noAnswer "10.0.0.1"])
        (freshWorld [knownUp "10.0.0.1"] [] noFault) = Ok tt w'
      ∧ openCount "10.0.0.1" (downtimes w') = openCount "10.0.0.1" [] + 2
      ∧ statusAt "10.0.0.1" w' = Some Up.
Proof.
  apply (unanswered_host_opens_event_each_cycle "10.0.0.1" (knownUp "10.0.0.1") 2
           (freshWorld [knownUp "10.0.0.1"] [] noFault)).
  - intros n _. reflexivity.
  - unfold UniqueAddresses. vm_compute. apply NoDup_singleton.
  - reflexivity.
  - discriminate.
Defined.

(** C8. The first check of a registered target, whose recorded status is
    the schema default Unknown (outcomes of distinct addresses, no storage
    operation failing): the outcome differs from the recorded status and
    is counted as a status change. When it is alive, no downtime event is
    opened, downtimeCount and lastDowntime are unchanged, and, its time
    being a number or null, the status is set to Up with lastChecked and
    responseTime. When it is not alive, a downtime event with
    duration = null is opened, lastDowntime is set and downtimeCount
    grows. *)
Theorem first_check results w r d :
  NoFaults w → UniqueAddresses (ips w) → NoDup (address <$> results) →
  r ∈ results → findOne (address r) (ips w) = Some d → ip_status d = Unknown →
  let a := address r in
  ∃ u w' d',
    updatePingResults results w = Ok u w'
    ∧ findOne a (ips w') = Some d'
    ∧ changeAgainst w r = Some (mkChange a Unknown (statusOf (alive r)))
    ∧ 0 < u_statusChanges u
    ∧ if alive r then
        eventsOf a (downtimes w') = eventsOf a (downtimes w)
        ∧ ip_downtimeCount d' = ip_downtimeCount d
        ∧ ip_lastDowntime d' = ip_lastDowntime d
        ∧ (time r ≠ UnknownTime →
           ip_status d' = Up
           ∧ ip_responseTime d' = castTime (orNull (time r))
           ∧ ∃ k, clockReads w ≤ k ∧ k < clockReads w' ∧ ip_lastChecked d' = clock w k)
      else
        ∃ k, eventsOf a (downtimes w')
             = eventsOf a (downtimes w) ++ [mkDowntime a (clock w k) None "Ping timeout"]
             ∧ ip_lastDowntime d' = Some (clock w (S k))
             ∧ ip_downtimeCount d < ip_downtimeCount d'.
Proof.
  intros Hnf Hu Hnd Hr Hd Hunk a. subst a.
  assert (changeAgainst w r = Some (mkChange (address r) Unknown (statusOf (alive r))))
    as Hch.
  { unfold changeAgainst, statusAt. rewrite Hd. simpl. rewrite Hunk.
    rewrite bool_decide_eq_true_2; [done|]. by destruct (alive r). }
  pose proof (afterChanges_at results w r Hu Hnd Hr) as Hat. simpl in Hat.
  rewrite Hd, Hunk in Hat.
  rewrite bool_decide_eq_false_2 in Hat by by destruct (alive r).
  destruct (afterReconcile_at results w r Hnd Hr)
    as (o & Hst & Hinc & Hrt & (k & Hk1 & Hk2 & Hlc) & Hfin).
  destruct (afterChanges_clock results w) as [_ Hreads].
  pose proof (afterReconcile_reads results w) as Hclk.
  assert (0 < length (statusChangesOf results (ips w))) as Hpos.
  { rewrite statusChangesOf_statusAt by done.
    assert (mkChange (address r) Unknown (statusOf (alive r))
            ∈ omap (changeAgainst w) results) as Hin.
    { apply list_elem_of_omap. by exists r. }
    destruct (omap (changeAgainst w) results); [by apply elem_of_nil in Hin|simpl; lia]. }
  destruct (alive r) eqn:Hal; simpl in Hat.
  - destruct Hat as [Hf He]. rewrite Hf in Hfin. simpl in Hfin.
    eexists _, (afterReconcile results w), _.
    split; [by apply updatePingResults_ok|].
    rewrite afterReconcile_downtimes. simpl.
    split; [exact Hfin|]. split; [done|]. split; [done|]. split; [done|].
    case_bool_decide as Htime; simpl.
    + by repeat split.
    + rewrite Hinc. split; [lia|]. split; [done|]. intros _.
      rewrite Hst, Hrt. split; [done|]. split; [done|].
      exists k. repeat split; [lia|lia|done].
  - destruct Hat as (j & _ & _ & Hf & He). rewrite Hf in Hfin. simpl in Hfin.
    eexists _, (afterReconcile results w), _.
    split; [by apply updatePingResults_ok|].
    rewrite afterReconcile_downtimes. simpl.
    split; [exact Hfin|]. split; [done|]. split; [done|].
    exists j. split; [done|]. case_bool_decide; simpl; [split; [done|lia]|].
    split; [done|]. lia.
Qed.

Lemma first_check_witness :
  ∃ u w' d',
    updatePingResults [mkOutcome "10.0.0.1" true (Ms (Qc_of_Z 12)) None]
      (freshWorld [registered "10.0.0.1"] [] noFault) = Ok u w'
    ∧ findOne "10.0.0.1" (ips w') = Some d'
    ∧ changeAgainst (freshWorld [registered "10.0.0.1"] [] noFault)
        (mkOutcome "10.0.0.1" true (Ms (Qc_of_Z 12)) None)
      = Some (mkChange "10.0.0.1" Unknown Up)
    ∧ 0 < u_statusChanges u
    ∧ eventsOf "10.0.0.1" (downtimes w') = eventsOf "10.0.0.1" []
    ∧ ip_downtimeCount d' = 0
    ∧ ip_lastDowntime d' = None
    ∧ (Ms (Qc_of_Z 12) ≠ UnknownTime →
       ip_status d' = Up
       ∧ ip_responseTime d' = castTime (orNull (Ms (Qc_of_Z 12)))
       ∧ ∃ k, 0 ≤ k ∧ k < clockReads w' ∧ ip_lastChecked d' = clockFrom 1000 k).
Proof.
  apply (first_check [mkOutcome "10.0.0.1" true (Ms (Qc_of_Z 12)) None]
           (freshWorld [registered "10.0.0.1"] [] noFault)
           (mkOutcome "10.0.0.1" true (Ms (Qc_of_Z 12)) None) (registered "10.0.0.1")).
  - intros n _. reflexivity.
  - unfold UniqueAddresses. vm_compute. apply NoDup_singleton.
  - vm_compute. apply NoDup_singleton.
  - by left.
  - reflexivity.
  - reflexivity.
Defined.

(** The first check of a registered target finds it unreachable: a
    downtime event is opened, and downtimeCount and lastDowntime change. *)
Lemma first_check_counterexample :
  ∃ u w',
    registered "10.0.0.1" = mkIP "10.0.0.1" Unknown 0 None 0 None
    ∧ updatePingResults [noAnswer "10.0.0.1"] (freshWorld [registered "10.0.0.1"] [] noFault)
      = Ok u w'
    ∧ u_statusChanges u = 1
    ∧ downtimes w' = [mkDowntime "10.0.0.1" 1000 None "Ping timeout"]
    ∧ findOne "10.0.0.1" (ips w')
      = Some (mkIP "10.0.0.1" Unknown 1 (Some 1001%Z) 0 None).
Proof.
  eexists _, _. split; [reflexivity|]. split; [vm_compute; reflexivity|].
  by repeat split.
Qed.

(* ===================================================================== *)
(** ** Duplicate addresses: which operation is applied last *)
(* ===================================================================== *)

(** The status the operations for an address leave: that of the last one. *)
Lemma foldl_status_last a ops : ∀ d,
  ip_status (foldl (fun d o => if bool_decide (op_filter o = a) then applyBulkOp o d else d)
               d ops)
  = from_option op_status (ip_status d) (last (filter (fun o => op_filter o = a) ops)).
Proof.
  induction ops as [|o ops IH]; intros d; [done|].
  simpl. rewrite IH, filter_cons. case_bool_decide as Ho.
  - rewrite decide_True by done. rewrite last_cons.
    by destruct (last (filter (fun o => op_filter o = a) ops)).
  - by rewrite decide_False by done.
Qed.

Lemma statusAt_afterReconcile results w a :
  statusAt a (afterReconcile results w)
  = (fun s => from_option op_status s
                (last (filter (fun o => op_filter o = a) (sentFor results w))))
      <$> statusAt a w.
Proof.
  unfold statusAt. rewrite afterReconcile_ips, findOne_applyOps.
  pose proof (findOne_project a _ _ (afterChanges_project results w)) as Hp.
  destruct (findOne a (ips (afterChanges results w))) as [d2|],
    (findOne a (ips w)) as [d|]; simpl in *; try done.
  injection Hp as Hp. by rewrite foldl_status_last, Hp.
Qed.

Lemma bulkOpsAt_inv clk updates o : ∀ n,
  o ∈ bulkOpsAt clk n updates →
  ∃ r, r ∈ updates ∧ op_filter o = address r ∧ op_status o = statusOf (alive r)
       ∧ op_responseTime o = orNull (time r).
Proof.
  induction updates as [|u rest IH]; intros n Ho; [by apply elem_of_nil in Ho|].
  simpl in Ho. apply elem_of_cons in Ho as [->|Ho].
  - exists u. split; [by left|done].
  - destruct (IH _ Ho) as (r & Hr & ?). exists r. split; [by right|done].
Qed.

(** An operation that is sent comes from an outcome whose time casts. *)
Lemma sentFor_inv results w o :
  o ∈ sentFor results w →
  ∃ r, r ∈ results ∧ op_filter o = address r ∧ op_status o = statusOf (alive r)
       ∧ time r ≠ UnknownTime.
Proof.
  intros [Hc Ho]%elem_of_sentOps.
  destruct (bulkOpsAt_inv _ _ _ _ Ho) as (r & Hr & Hf & Hs & Ht).
  exists r. split; [done|]. split; [done|]. split; [done|].
  by apply (casts_orNull o r Ht).
Qed.

Lemma sentFor_elem results w r :
  r ∈ results → time r ≠ UnknownTime →
  ∃ o, o ∈ sentFor results w ∧ op_filter o = address r.
Proof.
  intros Hr Ht.
  destruct (bulkOpsAt_elem (clock (afterChanges results w)) results r
              (clockReads (afterChanges results w)) Hr)
    as (o & Ho & Hf & _ & _ & Hrt & _).
  exists o. split; [|done]. apply elem_of_sentOps. split; [|done].
  by apply (casts_orNull o r Hrt).
Qed.

(** *** Up to ten operations are sent in the order of the list *)

Lemma asStrings_digits i j : i ≤ j → j < 10 → asStrings i j.
Proof.
  intros Hij Hj.
  assert (Forall (fun i => Forall (fun j => i ≤ j → asStrings i j) (seq 0 10)) (seq 0 10))
    as Hall.
  { apply (bool_decide_unpack _). vm_compute. exact I. }
  rewrite Forall_forall in Hall. specialize (Hall i).
  rewrite Forall_forall in Hall. apply Hall; [| |done]; apply elem_of_seq; lia.
Qed.

Lemma byIndex_trans : Transitive (fun p q : nat * BulkOp => asStrings p.1 q.1).
Proof. intros p q r. unfold asStrings. apply transitivity. Qed.

Lemma byIndex_total : Total (fun p q : nat * BulkOp => asStrings p.1 q.1).
Proof. intros p q. unfold asStrings. apply total, _. Qed.

Lemma imap_sorted ops : ∀ n,
  n + length ops ≤ 10 →
  Sorted.StronglySorted (fun p q : nat * BulkOp => asStrings p.1 q.1)
    (imap (fun i o => (n + i, o)) ops).
Proof.
  induction ops as [|o ops IH]; intros n Hn; [constructor|].
  rewrite imap_cons. simpl in Hn.
  assert (imap ((fun i o => (n + i, o)) ∘ S) ops = imap (fun i o => (S n + i, o)) ops) as ->.
  { apply imap_ext. intros i x _. simpl. f_equal. lia. }
  constructor; [apply IH; lia|].
  apply Forall_forall. intros [j o'] (i & x & [= -> ->] & Hi)%elem_of_lookup_imap.
  simpl. apply lookup_lt_Some in Hi. apply asStrings_digits; lia.
Qed.

Lemma filter_sorted {A} (R : A → A → Prop) (P : A → Prop) `{∀ x, Decision (P x)} l :
  Sorted.StronglySorted R l → Sorted.StronglySorted R (filter P l).
Proof.
  induction 1 as [|x l Hs IH Hall]; [constructor|].
  rewrite filter_cons. case_decide; [|done].
  constructor; [done|]. rewrite Forall_forall in Hall. apply Forall_forall.
  intros y [_ Hy]%list_elem_of_filter. by apply Hall.
Qed.

Lemma validOps_lookup ops i o : (i, o) ∈ validOps ops → ops !! i = Some o.
Proof.
  intros [_ (j & x & [= -> ->] & Hj)%elem_of_lookup_imap]%list_elem_of_filter. done.
Qed.

Lemma sentOps_small ops :
  length ops ≤ 10 → sentOps ops = filter (fun o => casts o = true) ops.
Proof.
  intros Hlen. unfold sentOps.
  assert (sorting.merge_sort (fun p q : nat * BulkOp => asStrings p.1 q.1) (validOps ops)
          = validOps ops) as ->.
  { apply (sorting.StronglySorted_unique_strong
             (fun p q : nat * BulkOp => asStrings p.1 q.1)).
    - intros [i o] [j o'] Hx Hy Hij Hji. simpl in *.
      rewrite sorting.merge_sort_Permutation in Hx.
      apply validOps_lookup in Hx, Hy.
      assert (i = j) as ->.
      { apply (inj pretty.pretty). by apply (anti_symm String.le). }
      congruence.
    - apply (@sorting.StronglySorted_merge_sort _ _ _ byIndex_trans byIndex_total).
    - unfold validOps. apply filter_sorted. apply (imap_sorted ops 0). lia.
    - apply sorting.merge_sort_Permutation. }
  pose proof (validOps_snd ops id) as H. unfold id in H. apply H.
Qed.

Lemma last_castable clk a updates : ∀ n,
  op_status <$> last (filter (fun o => op_filter o = a)
                        (filter (fun o => casts o = true) (bulkOpsAt clk n updates)))
  = (fun r => statusOf (alive r))
      <$> last (filter (fun r => address r = a ∧ time r ≠ UnknownTime) updates).
Proof.
  induction updates as [|u rest IH]; intros n; [done|].
  cbn [bulkOpsAt].
  set (o := mkBulkOp (address u) (statusOf (alive u)) (clk n) (orNull (time u))
              (if alive u then 0 else 1)).
  pose proof (casts_orNull o u eq_refl) as Hcast.
  destruct (decide (time u = UnknownTime)) as [Ht|Ht].
  - rewrite (filter_cons_False (fun o => casts o = true)) by (rewrite Hcast; naive_solver).
    rewrite (filter_cons_False (fun r => address r = a ∧ time r ≠ UnknownTime))
      by naive_solver.
    apply IH.
  - rewrite (filter_cons_True (fun o => casts o = true)) by by apply Hcast.
    destruct (decide (address u = a)) as [Ha|Ha].
    + rewrite (filter_cons_True (fun o => op_filter o = a)) by done.
      rewrite (filter_cons_True (fun r => address r = a ∧ time r ≠ UnknownTime)) by done.
      rewrite !last_cons. specialize (IH ((if alive u then 1 else 2) + n)).
      destruct (last (filter _ (filter _ (bulkOpsAt _ _ rest)))), (last (filter _ rest));
        simpl in *; done.
    + rewrite (filter_cons_False (fun o => op_filter o = a)) by done.
      rewrite (filter_cons_False (fun r => address r = a ∧ time r ≠ UnknownTime))
        by naive_solver.
      apply IH.
Qed.

(** C9. Outcomes with duplicate addresses are tolerated: the
    reconciliation fulfils. The final status of a target is that of one of
    its outcomes whose time is a number or null, if there is one, and the
    status recorded before otherwise; which one is decided by the order in
    which the bulk write applies the operations it sends, and with at most
    10 outcomes in the list it is the last such outcome of the target.
    Every outcome, duplicates included, is compared with the status
    recorded at the start of the reconciliation and pushes a status change
    of its own when it differs. *)
Theorem duplicates_tolerated results w :
  NoFaults w → UniqueAddresses (ips w) →
  ∃ u w',
    updatePingResults results w = Ok u w'
    ∧ (∀ a, (∀ r, r ∈ results → address r = a → time r = UnknownTime) →
            statusAt a w' = statusAt a w)
    ∧ (∀ a r0, r0 ∈ results → address r0 = a → time r0 ≠ UnknownTime →
         ∃ r, r ∈ results ∧ address r = a ∧ time r ≠ UnknownTime
              ∧ statusAt a w' = (fun _ => statusOf (alive r)) <$> statusAt a w)
    ∧ (length results ≤ 10 →
       ∀ a r, last (filter (fun r => address r = a ∧ time r ≠ UnknownTime) results) = Some r →
              statusAt a w' = (fun _ => statusOf (alive r)) <$> statusAt a w)
    ∧ (∀ currentIps w1,
         findIn (address <$> results) w = Ok currentIps w1 →
         (scanResults (buildStatusMap currentIps) results).2
         = omap (changeAgainst w) results)
    ∧ u_statusChanges u = length (omap (changeAgainst w) results).
Proof.
  intros Hnf Hu. eexists _, _. split; [by apply updatePingResults_ok|].
  split; [|split; [|split; [|split]]].
  - intros a Hall. rewrite statusAt_afterReconcile.
    destruct (last (filter (fun o => op_filter o = a) (sentFor results w))) as [o|] eqn:Hl.
    + apply last_Some_elem_of, list_elem_of_filter in Hl as [Ha Ho].
      destruct (sentFor_inv _ _ _ Ho) as (r & Hr & Hf & _ & Ht).
      exfalso. apply Ht, Hall; [done|congruence].
    + simpl. by destruct (statusAt a w).
  - intros a r0 Hr0 Ha0 Ht0. rewrite statusAt_afterReconcile.
    destruct (sentFor_elem results w r0 Hr0 Ht0) as (o0 & Ho0 & Hf0).
    destruct (last (filter (fun o => op_filter o = a) (sentFor results w))) as [o|] eqn:Hl.
    + apply last_Some_elem_of, list_elem_of_filter in Hl as [Ha Ho].
      destruct (sentFor_inv _ _ _ Ho) as (r & Hr & Hf & Hs & Ht).
      exists r. split; [done|]. split; [congruence|]. split; [done|].
      simpl. rewrite Hs. by destruct (statusAt a w).
    + exfalso. assert (o0 ∈ filter (fun o => op_filter o = a) (sentFor results w)) as Hin.
      { apply list_elem_of_filter. split; [congruence|done]. }
      apply last_None in Hl. rewrite Hl in Hin. by apply elem_of_nil in Hin.
  - intros Hlen a r Hlast. rewrite statusAt_afterReconcile.
    unfold sentFor. rewrite sentOps_small.
    2: { rewrite <- (length_fmap op_filter), bulkOpsAt_filters. by rewrite length_fmap. }
    pose proof (last_castable (clock (afterChanges results w)) a results
                  (clockReads (afterChanges results w))) as Hc.
    rewrite Hlast in Hc. clear Hlast. simpl in Hc.
    destruct (statusAt a w) as [s|]; [|done]. simpl. f_equal.
    destruct (last _) as [o|]; [|done]. simpl in Hc. by injection Hc as Hc.
  - intros currentIps w1 Hfind. rewrite findIn_ok in Hfind by done.
    injection Hfind as <- _. by apply statusChangesOf_statusAt.
  - simpl. by rewrite statusChangesOf_statusAt.
Qed.

Lemma duplicates_tolerated_witness :
  ∃ u w',
    updatePingResults [isDown "10.0.0.1"; mkOutcome "10.0.0.1" true (Ms (Qc_of_Z 12)) None]
      (freshWorld [knownUp "10.0.0.1"] [] noFault) = Ok u w'
    ∧ statusAt "10.0.0.1" w' = Some Up
    ∧ u_statusChanges u = 1.
Proof.
  destruct (duplicates_tolerated
              [isDown "10.0.0.1"; mkOutcome "10.0.0.1" true (Ms (Qc_of_Z 12)) None]
              (freshWorld [knownUp "10.0.0.1"] [] noFault))
    as (u & w' & Hrun & _ & _ & Hlast & _ & Hcount).
  - intros n _. reflexivity.
  - unfold UniqueAddresses. vm_compute. apply NoDup_singleton.
  - exists u, w'. split; [exact Hrun|]. split; [|exact Hcount].
    apply (Hlast ltac:(simpl; lia) "10.0.0.1"%string
             (mkOutcome "10.0.0.1" true (Ms (Qc_of_Z 12)) None)).
    reflexivity.
Defined.

(** A target recorded Up with several outcomes in one reconciliation.
    Twelve outcomes, all alive but the tenth: the last one is alive and
    the final status is Down, the operation of the tenth outcome (index 9)
    being applied last. Two outcomes, both not alive: two status changes
    are pushed, two events are opened and downtimeCount goes from 0
    to 4. *)
Lemma duplicates_tolerated_counterexample :
  (∃ u w',
     updatePingResults
       (replicate 9 (mkOutcome "10.0.0.1" true (Ms (Qc_of_Z 12)) None)
        ++ [isDown "10.0.0.1"]
        ++ replicate 2 (mkOutcome "10.0.0.1" true (Ms (Qc_of_Z 12)) None))
       (freshWorld [knownUp "10.0.0.1"] [] noFault) = Ok u w'
     ∧ u_total u = 12
     ∧ statusAt "10.0.0.1" w' = Some Down)
  ∧ (∃ u w',
       updatePingResults [isDown "10.0.0.1"; isDown "10.0.0.1"]
         (freshWorld [knownUp "10.0.0.1"] [] noFault) = Ok u w'
       ∧ u_statusChanges u = 2
       ∧ openCount "10.0.0.1" (downtimes w') = 2
       ∧ ip_downtimeCount <$> findOne "10.0.0.1" (ips w') = Some 4).
Proof.
  split.
  - eexists _, _. split; [vm_compute; reflexivity|]. by repeat split.
  - eexists _, _. split; [vm_compute; reflexivity|]. by repeat split.
Qed.

(* ===================================================================== *)
(** ** Further properties: what the engine never does to the stores *)
(* ===================================================================== *)

Lemma KeepsTargets_refl coll : KeepsTargets coll coll.
Proof. split; [done|]. intros i d Hd. by exists d. Qed.

Lemma KeepsTargets_trans c1 c2 c3 :
  KeepsTargets c1 c2 → KeepsTargets c2 c3 → KeepsTargets c1 c3.
Proof.
  intros [Ha1 Hc1] [Ha2 Hc2]. split; [by rewrite Ha2|].
  intros i d Hd. destruct (Hc1 i d Hd) as (d2 & Hd2 & Hle2).
  destruct (Hc2 i d2 Hd2) as (d3 & Hd3 & Hle3). exists d3. split; [done|lia].
Qed.

Lemma KeepsEvents_refl dts : KeepsEvents dts dts.
Proof. intros i e He. by exists e. Qed.

Lemma KeepsEvents_trans d1 d2 d3 :
  KeepsEvents d1 d2 → KeepsEvents d2 d3 → KeepsEvents d1 d3.
Proof.
  intros H1 H2 i e He.
  destruct (H1 i e He) as (e2 & He2 & Ha2 & Ht2 & Hr2 & Hc2).
  destruct (H2 i e2 He2) as (e3 & He3 & Ha3 & Ht3 & Hr3 & Hc3).
  exists e3. repeat split; try congruence.
  intros Hclosed. specialize (Hc2 Hclosed). subst e2. by apply Hc3.
Qed.

Lemma Extends_refl w : Extends w w.
Proof.
  split; [apply KeepsTargets_refl|]. split; [apply KeepsEvents_refl|]. by repeat split.
Qed.

Lemma Extends_trans w1 w2 w3 : Extends w1 w2 → Extends w2 w3 → Extends w1 w3.
Proof.
  intros (Ht1 & He1 & Hc1 & Hf1 & Hr1 & Ho1) (Ht2 & He2 & Hc2 & Hf2 & Hr2 & Ho2).
  split; [by eapply KeepsTargets_trans|]. split; [by eapply KeepsEvents_trans|].
  repeat split; try congruence; lia.
Qed.

Lemma Keeps_ret {A} (a : A) : Keeps (ret a).
Proof. intros w. apply Extends_refl. Qed.

Lemma Keeps_throw {A} e : Keeps (throw (A := A) e).
Proof. intros w. apply Extends_refl. Qed.

Lemma Keeps_readClock : Keeps readClock.
Proof.
  intros w. simpl. split; [apply KeepsTargets_refl|]. split; [apply KeepsEvents_refl|].
  simpl. repeat split; simpl; (done || lia).
Qed.

Lemma Keeps_storage {A} (op : list IPDoc → list DowntimeDoc → A * list IPDoc * list DowntimeDoc) :
  (∀ i d, KeepsTargets i (op i d).1.2 ∧ KeepsEvents d (op i d).2) → Keeps (storage op).
Proof.
  intros Hop w. unfold storage. destruct (fault w (storageOps w)).
  - split; [apply KeepsTargets_refl|]. split; [apply KeepsEvents_refl|].
    simpl. repeat split; simpl; (done || lia).
  - specialize (Hop (ips w) (downtimes w)).
    destruct (op (ips w) (downtimes w)) as [[a i] d]. simpl in *.
    destruct Hop as [Hi Hd]. split; [done|]. split; [done|]. repeat split; simpl; (done || lia).
Qed.

Lemma Keeps_bind {A B} (m : M A) (k : A → M B) :
  Keeps m → (∀ a, Keeps (k a)) → Keeps (bind m k).
Proof.
  intros Hm Hk w. unfold bind. specialize (Hm w).
  destruct (m w) as [a w1|e w1|]; [|done|done].
  specialize (Hk a w1). destruct (k a w1); try done; by eapply Extends_trans.
Qed.

Lemma Keeps_try_catch {A} (m : M A) (h : string → M A) :
  Keeps m → (∀ e, Keeps (h e)) → Keeps (try_catch m h).
Proof.
  intros Hm Hh w. unfold try_catch. specialize (Hm w).
  destruct (m w) as [a w1|e w1|]; [done| |done].
  specialize (Hh e w1). destruct (h e w1); try done; by eapply Extends_trans.
Qed.

Lemma KeepsEvents_snoc dts e : KeepsEvents dts (dts ++ [e]).
Proof.
  intros i x Hx. exists x. split; [|done]. by apply lookup_app_l_Some.
Qed.

Lemma KeepsEvents_alter_open dts j dur e :
  dts !! j = Some e → dt_duration e = None → KeepsEvents dts (alter (setDuration dur) j dts).
Proof.
  intros Hj Ho i x Hx. destruct (decide (i = j)) as [->|Hne].
  - rewrite list_lookup_alter_eq, Hx. simpl. eexists. split; [done|].
    repeat split. intros Hclosed. congruence.
  - rewrite list_lookup_alter_ne by done. by exists x.
Qed.

Lemma KeepsTargets_updateOne f a coll :
  (∀ d, ip_address (f d) = ip_address d) →
  (∀ d, ip_downtimeCount d ≤ ip_downtimeCount (f d)) →
  KeepsTargets coll (updateOne a f coll).
Proof.
  intros Hfa Hfc. split; [by apply updateOne_addresses|].
  induction coll as [|x coll IH]; intros i d Hd; [done|]. simpl.
  case_bool_decide.
  - destruct i as [|i]; simpl in *.
    + injection Hd as <-. eexists. split; [done|]. apply Hfc.
    + by exists d.
  - destruct i as [|i]; simpl in *; [by exists d|]. by apply IH.
Qed.

Lemma KeepsTargets_applyOps ops : ∀ coll, KeepsTargets coll (applyOps ops coll).2.
Proof.
  induction ops as [|o ops IH]; intros coll; [apply KeepsTargets_refl|].
  rewrite applyOps_cons. eapply KeepsTargets_trans; [|apply IH].
  apply KeepsTargets_updateOne; [done|]. intros d. simpl. lia.
Qed.

Create HintDb keeps.
#[local] Hint Resolve Keeps_ret Keeps_throw Keeps_readClock : keeps.

Ltac keep :=
  repeat first
    [ solve [auto with keeps]
    | apply Keeps_try_catch; [|intros ?]
    | apply Keeps_bind; [|intros ?]
    | progress case_match ].

Lemma Keeps_recordDowntime a : Keeps (recordDowntime a).
Proof.
  unfold recordDowntime. keep. apply Keeps_storage. intros i d. simpl.
  split; [apply KeepsTargets_refl|apply KeepsEvents_snoc].
Qed.

Lemma Keeps_findOneAndUpdateDown a : Keeps (findOneAndUpdateDown a).
Proof.
  unfold findOneAndUpdateDown. keep. apply Keeps_storage. intros i d. simpl.
  split; [|apply KeepsEvents_refl].
  apply KeepsTargets_updateOne; [done|]. intros x. simpl. lia.
Qed.

Lemma Keeps_updateDuration a : Keeps (updateDuration a).
Proof.
  unfold updateDuration. apply Keeps_try_catch; [|intros e; apply Keeps_throw].
  intros w. unfold bind at 1. unfold storage at 1.
  destruct (fault w (storageOps w)) as [e|] eqn:Hfault.
  - split; [apply KeepsTargets_refl|]. split; [apply KeepsEvents_refl|].
    simpl. repeat split; simpl; (done || lia).
  - simpl. destruct (findLatestOpen a (downtimes w)) as [[j t]|] eqn:Hlatest.
    + destruct (findLatestOpen_Some _ _ _ _ Hlatest) as (x & Hj & _ & Ho & _).
      unfold bind, readClock, storage. simpl.
      destruct (fault w (S (storageOps w))); simpl.
      * split; [apply KeepsTargets_refl|]. split; [apply KeepsEvents_refl|].
        simpl. repeat split; simpl; (done || lia).
      * split; [apply KeepsTargets_refl|].
        split; [by eapply KeepsEvents_alter_open|]. simpl. repeat split; simpl; (done || lia).
    + unfold ret. split; [apply KeepsTargets_refl|]. split; [apply KeepsEvents_refl|].
      simpl. repeat split; simpl; (done || lia).
Qed.

#[local] Hint Resolve Keeps_recordDowntime Keeps_findOneAndUpdateDown
  Keeps_updateDuration : keeps.

Lemma Keeps_handleChange c : Keeps (handleChange c).
Proof. unfold handleChange. keep. Qed.

Lemma Keeps_handleChanges cs : Keeps (handleChanges cs).
Proof.
  induction cs as [|c cs IH]; simpl; [apply Keeps_ret|].
  apply Keeps_bind; [apply Keeps_handleChange|done].
Qed.

Lemma Keeps_buildBulkOps updates : Keeps (buildBulkOps updates).
Proof.
  intros w. rewrite buildBulkOps_run.
  split; [apply KeepsTargets_refl|]. split; [apply KeepsEvents_refl|].
  simpl. repeat split; simpl; (done || lia).
Qed.

#[local] Hint Resolve Keeps_handleChanges Keeps_buildBulkOps : keeps.

Lemma Keeps_bulkWrite ops : Keeps (bulkWrite ops).
Proof.
  unfold bulkWrite. keep. apply Keeps_storage. intros i d.
  pose proof (KeepsTargets_applyOps (sentOps ops) i) as Hb.
  destruct (applyOps (sentOps ops) i) as [n i']. simpl in *.
  split; [done|apply KeepsEvents_refl].
Qed.

#[local] Hint Resolve Keeps_bulkWrite : keeps.

Lemma Keeps_bulkUpdateStatus updates : Keeps (bulkUpdateStatus updates).
Proof. unfold bulkUpdateStatus. keep. Qed.

Lemma Keeps_findIn addrs : Keeps (findIn addrs).
Proof.
  apply Keeps_storage. intros i d. simpl.
  split; [apply KeepsTargets_refl|apply KeepsEvents_refl].
Qed.

Lemma Keeps_findAll : Keeps findAll.
Proof.
  apply Keeps_storage. intros i d. simpl.
  split; [apply KeepsTargets_refl|apply KeepsEvents_refl].
Qed.

#[local] Hint Resolve Keeps_bulkUpdateStatus Keeps_findIn Keeps_findAll : keeps.

Lemma Keeps_updatePingResults results : Keeps (updatePingResults results).
Proof. unfold updatePingResults. keep. Qed.

#[local] Hint Resolve Keeps_updatePingResults : keeps.

Lemma Keeps_runPingCycle config env : Keeps (runPingCycle config env).
Proof.
  unfold runPingCycle. keep. intros w. by unfold diverge.
Qed.

(** X1. However a reconciliation or a whole cycle ends, also when a
    storage operation fails part-way, it has not added, removed or renamed
    a document of the IP collection and has lowered no downtimeCount; and
    every downtime event that existed is still there, at its place, for
    the same address and with the same start, and as it was if it was
    closed (a duration, once set, is not changed). *)
Theorem stores_only_extended results config env w :
  let kept w' :=
    ip_address <$> ips w' = ip_address <$> ips w
    ∧ (∀ i d, ips w !! i = Some d →
         ∃ d', ips w' !! i = Some d' ∧ ip_downtimeCount d ≤ ip_downtimeCount d')
    ∧ (∀ i e, downtimes w !! i = Some e →
         ∃ e', downtimes w' !! i = Some e'
               ∧ dt_ipAddress e' = dt_ipAddress e ∧ dt_timestamp e' = dt_timestamp e
               ∧ (dt_duration e ≠ None → e' = e)) in
  match updatePingResults results w with
  | Ok _ w' => kept w'
  | Throw _ w' => kept w'
  | Diverge => False
  end
  ∧ ∃ r w', runPingCycle config env w = Ok r w' ∧ kept w'.
Proof.
  intros kept.
  assert (∀ w', Extends w w' → kept w') as Hkept.
  { intros w' ([Ha Hc] & He & _). split; [done|]. split; [done|].
    intros i e Hi. destruct (He i e Hi) as (e' & ? & ? & ? & ? & ?). by exists e'. }
  split.
  - pose proof (Keeps_updatePingResults results w) as Hk.
    pose proof (Settles_updatePingResults results w) as Hs.
    destruct (updatePingResults results w); [by apply Hkept|by apply Hkept|done].
  - destruct (runPingCycle_returns config env w) as (r & w' & Hrun & _).
    exists r, w'. split; [done|].
    pose proof (Keeps_runPingCycle config env w) as Hk. rewrite Hrun in Hk.
    by apply Hkept.
Qed.

(* ===================================================================== *)
(** ** Further properties of workers and retries *)
(* ===================================================================== *)

Lemma pingIP_error probe ip : error (pingIP probe ip) = None ↔ alive (pingIP probe ip) = true.
Proof. unfold pingIP. destruct (probe ip) as [[] ? ?|?]; simpl; naive_solver. Qed.

(** X2. In every outcome of a batch, whether it comes from a probe that
    answered, from a probe that failed or from a batch given up after the
    retries, the error is null exactly when alive is true; the same holds
    for all the outcomes of a cycle. *)
Theorem outcome_error_iff_alive :
  (∀ runs batch retries,
     Forall (fun r => error r = None ↔ alive r = true)
       (processBatchWithRetry runs batch retries))
  ∧ (∀ env batches,
       Forall (fun r => error r = None ↔ alive r = true) (dispatch env batches)).
Proof.
  assert (∀ retries runs batch,
            Forall (fun r => error r = None ↔ alive r = true)
              (processBatchWithRetry runs batch retries)) as Hbatch.
  { induction retries as [|retries IH]; intros runs batch; simpl;
      (destruct (runs 0) as [probe|msg]; simpl;
       [apply Forall_fmap, Forall_forall; intros ip _; apply pingIP_error|]).
    - apply Forall_fmap, Forall_forall. intros ip _. simpl. naive_solver.
    - apply IH. }
  split; [intros runs batch retries; apply Hbatch|].
  intros env batches. unfold dispatch. revert env.
  induction batches as [|batch batches IH]; intros env; [constructor|].
  rewrite imap_cons, concat_cons. apply Forall_app. split; [apply Hbatch|].
  apply (IH (fun b => env (S b))).
Qed.

(** X3. The results of a batch are those of the first execution that
    completes within the retry budget: the failed executions before it
    leave no trace, and the executions after it are not started. *)
Theorem first_completed_execution_wins (k : nat) : ∀ runs batch (retries : nat) probe,
  k ≤ retries → runs k = Completed probe →
  (∀ j, j < k → ∃ message, runs j = Crashed message) →
  processBatchWithRetry runs batch retries = processIPs probe batch.
Proof.
  induction k as [|k IH]; intros runs batch retries probe Hk Hrun Hbefore.
  - destruct retries; simpl; by rewrite Hrun.
  - destruct retries as [|retries]; [lia|]. simpl.
    destruct (Hbefore 0 ltac:(lia)) as [msg ->]. simpl.
    apply (IH (fun j => runs (S j))); [lia|done|].
    intros j Hj. apply Hbefore. lia.
Qed.

Lemma first_completed_execution_wins_witness :
  processBatchWithRetry
    (fun k => match k with
              | 0 => Crashed "exit code 1"
              | _ => Completed (fun _ => Replied true (Ms (Qc_of_Z 12)) "")
              end) ["10.0.0.1"%string] 2
  = processIPs (fun _ => Replied true (Ms (Qc_of_Z 12)) "") ["10.0.0.1"%string].
Proof.
  apply (first_completed_execution_wins 1); [lia|reflexivity|].
  intros j Hj. assert (j = 0) as -> by lia. by eexists.
Defined.

(* ===================================================================== *)
(** ** Further properties of the partitioning *)
(* ===================================================================== *)

Lemma slice_length {A} i b (l : list A) : length (slice i (i + b) l) = b `min` (length l - i).
Proof.
  unfold slice. replace (i + b - i) with b by lia.
  by rewrite length_take, length_drop.
Qed.

(** The batches of the loop: as many as it takes to cover the targets from
    [i] on, none empty, none over the batch size, all full but the last. *)
Lemma batchLoop_shape {A} (fuel : nat) : ∀ i b (l : list A) batches,
  0 < b → batchLoop fuel i (Fin b) l = Some batches →
  length l - i ≤ length batches * b
  ∧ length batches * b < length l - i + b
  ∧ Forall (fun batch => 0 < length batch ∧ length batch ≤ b) batches
  ∧ ∀ k batch, batches !! k = Some batch → S k < length batches → length batch = b.
Proof.
  induction fuel as [|fuel IH]; intros i b l batches Hb; simpl.
  - case_bool_decide as Hi; [done|]. intros [= <-]. simpl.
    repeat split; [lia|lia|constructor|]. intros k batch Hk. done.
  - case_bool_decide as Hi.
    + destruct (batchLoop fuel (i + b) (Fin b) l) as [bs|] eqn:E; [|done].
      intros [= <-]. destruct (IH _ _ _ _ Hb E) as (Hlow & Hup & Hall & Hfull).
      assert (length l ≤ i + b → bs = []) as Hlast.
      { intros Hle. destruct fuel; simpl in E;
          rewrite bool_decide_eq_false_2 in E by lia; by injection E as <-. }
      cbn [length]. repeat split.
      * lia.
      * destruct (decide (length l ≤ i + b)) as [Hle|Hgt].
        -- rewrite (Hlast Hle). simpl. lia.
        -- lia.
      * constructor; [rewrite slice_length; lia|done].
      * intros [|k] batch Hk Hlen; simpl in *.
        -- injection Hk as <-. rewrite slice_length.
           destruct (decide (length l ≤ i + b)) as [Hle|Hgt]; [|lia].
           rewrite (Hlast Hle) in Hlen. simpl in Hlen. lia.
        -- apply (Hfull k batch Hk). lia.
    + intros [= <-]. simpl. repeat split; [lia|lia|constructor|]. intros k batch Hk. done.
Qed.

Lemma optimalWorkerCount_bounds config N :
  0 < N → 0 < WORKER_COUNT config →
  0 < optimalWorkerCount config N ∧ optimalWorkerCount config N ≤ WORKER_COUNT config.
Proof.
  intros HN Hw. unfold optimalWorkerCount.
  destruct (ceilDiv N (MAX_BATCH_SIZE config)) as [c|] eqn:E; simpl; [|lia].
  pose proof (ceilDiv_pos _ _ _ HN E). lia.
Qed.

(** X4. With a positive WORKER_COUNT (whatever MAX_BATCH_SIZE is, 0
    included) a cycle over at least one target makes at least one batch
    and at most WORKER_COUNT batches; no batch is empty, none is larger
    than the batch size ceil(N / workerCount), and all but the last one
    have exactly that size. *)
Theorem batches_bounded config (targets : list string) :
  0 < WORKER_COUNT config → targets ≠ [] →
  ∃ b batches,
    batchSizeFor config (length targets) = Fin b
    ∧ partition config targets = Some batches
    ∧ 0 < length batches ∧ length batches ≤ WORKER_COUNT config
    ∧ Forall (fun batch => 0 < length batch ∧ length batch ≤ b) batches
    ∧ ∀ k batch, batches !! k = Some batch → S k < length batches → length batch = b.
Proof.
  intros Hw Hne. set (N := length targets).
  assert (0 < N) as HN by (unfold N; destruct targets; [done|simpl; lia]).
  destruct (optimalWorkerCount_bounds config N HN Hw) as [Hk1 Hk2].
  destruct (ceilDiv_spec N (optimalWorkerCount config N) HN Hk1) as (b & Hb & Hb1 & Hb2).
  assert (0 < b) as Hbpos by apply (ceilDiv_pos N _ b HN Hb).
  destruct (partition_ends config targets) as [batches Hp].
  exists b, batches. split; [done|]. split; [done|].
  unfold partition in Hp. fold N in Hp. unfold batchSizeFor in Hp. rewrite Hb in Hp.
  destruct (batchLoop_shape _ _ _ _ _ Hbpos Hp) as (Hlow & Hup & Hall & Hfull).
  fold N in Hlow, Hup. rewrite Nat.sub_0_r in Hlow, Hup.
  repeat split; try done.
  - destruct batches; simpl in *; lia.
  - nia.
Qed.

Lemma batches_bounded_witness :
  ∃ b batches,
    batchSizeFor (mkConfig 3 0) 7 = Fin b
    ∧ partition (mkConfig 3 0) (replicate 7 "10.0.0.1"%string) = Some batches
    ∧ 0 < length batches ∧ length batches ≤ 3
    ∧ Forall (fun batch => 0 < length batch ∧ length batch ≤ b) batches
    ∧ ∀ k batch, batches !! k = Some batch → S k < length batches → length batch = b.
Proof.
  apply (batches_bounded (mkConfig 3 0) (replicate 7 "10.0.0.1"%string)).
  - simpl. lia.
  - discriminate.
Defined.

(** X5. MAX_BATCH_SIZE bounds the batches only while the targets fit in
    WORKER_COUNT batches of that size: for positive settings, the batch
    size of a cycle over N > 0 targets is at most MAX_BATCH_SIZE exactly
    when N <= WORKER_COUNT * MAX_BATCH_SIZE; beyond that the batch size is
    ceil(N / WORKER_COUNT) and exceeds MAX_BATCH_SIZE. *)
Theorem batch_size_within_max_iff config N :
  0 < N → 0 < WORKER_COUNT config → 0 < MAX_BATCH_SIZE config →
  ∃ b, batchSizeFor config N = Fin b
       ∧ (b ≤ MAX_BATCH_SIZE config ↔ N ≤ WORKER_COUNT config * MAX_BATCH_SIZE config)
       ∧ (WORKER_COUNT config * MAX_BATCH_SIZE config < N →
          optimalWorkerCount config N = WORKER_COUNT config
          ∧ (b - 1) * WORKER_COUNT config < N ∧ N ≤ b * WORKER_COUNT config).
Proof.
  intros HN Hw Hm.
  destruct (ceilDiv_spec N (MAX_BATCH_SIZE config) HN Hm) as (c & Hc & Hc1 & Hc2).
  assert (0 < c) as Hcpos by apply (ceilDiv_pos N _ c HN Hc).
  assert (optimalWorkerCount config N = WORKER_COUNT config `min` c) as Hopt.
  { unfold optimalWorkerCount. by rewrite Hc. }
  destruct (ceilDiv_spec N (WORKER_COUNT config `min` c) HN ltac:(lia)) as (b & Hb & Hb1 & Hb2).
  exists b. split; [unfold batchSizeFor; by rewrite Hopt|].
  assert (0 < b) as Hbpos by apply (ceilDiv_pos N _ b HN Hb).
  split; [split|].
  - intros Hle. destruct (Nat.min_spec (WORKER_COUNT config) c) as [[_ Hmin]|[_ Hmin]];
      rewrite Hmin in *; nia.
  - intros Hle. destruct (Nat.min_spec (WORKER_COUNT config) c) as [[Hlt Hmin]|[Hge Hmin]];
      rewrite Hmin in *; nia.
  - intros Hgt. assert (WORKER_COUNT config < c) as Hlt by nia.
    rewrite Hopt. rewrite Nat.min_l in * by lia. done.
Qed.

Lemma batch_size_within_max_iff_witness :
  ∃ b, batchSizeFor defaultConfig 1000 = Fin b
       ∧ (b ≤ 50 ↔ 1000 ≤ 4 * 50)
       ∧ (4 * 50 < 1000 →
          optimalWorkerCount defaultConfig 1000 = 4 ∧ (b - 1) * 4 < 1000 ∧ 1000 ≤ b * 4).
Proof. apply (batch_size_within_max_iff defaultConfig 1000); simpl; lia. Defined.

(* ===================================================================== *)
(** ** Further properties of the counts *)
(* ===================================================================== *)












(* ===================================================================== *)
(** ** Further properties of the reconciliation *)
(* ===================================================================== *)




(** X9. A reconciliation leaves alone the targets it has no outcome for:
    when no storage operation fails, the document of an address that is
    not among the results is as it was, and so are its downtime events. *)
Theorem reconcile_leaves_others results w a :
  NoFaults w → a ∉ address <$> results →
  ∃ u w',
    updatePingResults results w = Ok u w'
    ∧ findOne a (ips w') = findOne a (ips w)
    ∧ eventsOf a (downtimes w') = eventsOf a (downtimes w).
Proof.
  intros Hnf Ha. eexists _, _. split; [by apply updatePingResults_ok|].
  by apply afterReconcile_other.
Qed.

Lemma reconcile_leaves_others_witness :
  ∃ u w',
    updatePingResults [isDown "10.0.0.1"]
      (freshWorld [knownUp "10.0.0.1"; knownUp "10.0.0.2"] [] noFault) = Ok u w'
    ∧ findOne "10.0.0.2" (ips w') = Some (knownUp "10.0.0.2")
    ∧ eventsOf "10.0.0.2" (downtimes w') = [].
Proof.
  apply (reconcile_leaves_others [isDown "10.0.0.1"]
           (freshWorld [knownUp "10.0.0.1"; knownUp "10.0.0.2"] [] noFault) "10.0.0.2").
  - intros n _. reflexivity.
  - vm_compute. by intros [?|?%elem_of_nil]%elem_of_cons.
Defined.

Lemma findLatestOpen_snoc_newest a t reason dts :
  (∀ e, e ∈ dts → dt_ipAddress e = a → dt_duration e = None → (dt_timestamp e < t)%Z) →
  findLatestOpen a (dts ++ [mkDowntime a t None reason]) = Some (length dts, t).
Proof.
  induction dts as [|d rest IH]; intros Hold.
  - simpl. by rewrite (proj2 (isOpenFor_true a (mkDowntime a t None reason))).
  - simpl. rewrite IH by (intros e He; apply Hold; by right). simpl.
    destruct (isOpenFor a d) eqn:Hd; [|done].
    apply isOpenFor_true in Hd as [Ha Ho].
    assert ((dt_timestamp d <? t)%Z = true) as ->; [|done].
    apply Z.ltb_lt. apply Hold; [by left|done|done].
Qed.

(** X10. Opening a downtime event and closing right away, when no storage
    operation fails and every open event the address already has started
    before the new one: updateDuration closes the event recordDowntime
    has just saved, with the time between the two clock reads as
    duration; the other events and the IP collection are as they were. *)
Theorem open_then_close a w :
  NoFaults w →
  (∀ e, e ∈ downtimes w → dt_ipAddress e = a → dt_duration e = None →
        (dt_timestamp e < clock w (clockReads w))%Z) →
  let t0 := clock w (clockReads w) in
  let t1 := clock w (S (clockReads w)) in
  ∃ w',
    bind (recordDowntime a) (fun _ => updateDuration a) w = Ok (Some (t1 - t0)%Z) w'
    ∧ downtimes w' = downtimes w ++ [mkDowntime a t0 (Some (t1 - t0)%Z) "Ping timeout"]
    ∧ ips w' = ips w.
Proof.
  intros Hnf Hold t0 t1.
  unfold bind at 1. unfold recordDowntime, try_catch, bind, readClock.
  rewrite storage_ok by (intros n Hn; apply Hnf; simpl in *; lia). simpl.
  unfold updateDuration, try_catch, bind.
  rewrite storage_ok by (intros n Hn; apply Hnf; simpl in *; lia). simpl.
  rewrite findLatestOpen_snoc_newest by done. simpl.
  rewrite storage_ok by (intros n Hn; apply Hnf; simpl in *; lia). simpl.
  unfold ret. eexists. split; [done|]. simpl. split; [|done].
  rewrite <- (Nat.add_0_r (length (downtimes w))). by rewrite alter_app_r.
Qed.

Lemma open_then_close_witness :
  ∃ w',
    bind (recordDowntime "10.0.0.1") (fun _ => updateDuration "10.0.0.1")
      (freshWorld [] [mkDowntime "10.0.0.1" 400 None "Ping timeout"] noFault)
    = Ok (Some (clockFrom 1000 1 - clockFrom 1000 0)%Z) w'
    ∧ downtimes w'
      = [mkDowntime "10.0.0.1" 400 None "Ping timeout"]
        ++ [mkDowntime "10.0.0.1" (clockFrom 1000 0)
              (Some (clockFrom 1000 1 - clockFrom 1000 0)%Z) "Ping timeout"]
    ∧ ips w' = [].
Proof.
  apply (open_then_close "10.0.0.1"
           (freshWorld [] [mkDowntime "10.0.0.1" 400 None "Ping timeout"] noFault)).
  - intros n _. reflexivity.
  - intros e [->|He%elem_of_nil]%elem_of_cons _ _; [|done]. vm_compute. reflexivity.
Defined.

(* ===================================================================== *)
(** ** What downtimeCount counts *)
(* ===================================================================== *)

Lemma downChecks_absent a results :
  a ∉ address <$> results →
  filter (fun r => address r = a ∧ alive r = false ∧ time r ≠ UnknownTime) results = [].
Proof.
  induction results as [|x rs IH]; [done|]. rewrite fmap_cons, not_elem_of_cons.
  intros [Hx Ha]. rewrite filter_cons_False by naive_solver. by apply IH.
Qed.

Lemma downChecks_one results r :
  NoDup (address <$> results) → r ∈ results →
  length (filter (fun x => address x = address r ∧ alive x = false ∧ time x ≠ UnknownTime)
            results)
  = if alive r then 0 else if bool_decide (time r = UnknownTime) then 0 else 1.
Proof.
  induction results as [|x rs IH]; [set_solver|].
  rewrite fmap_cons, NoDup_cons. intros [Hx Hnd] [->|Hr]%elem_of_cons.
  - rewrite filter_cons, (downChecks_absent _ _ Hx).
    destruct (alive x) eqn:E.
    + rewrite decide_False by naive_solver. done.
    + case_bool_decide as Ht.
      * rewrite decide_False by naive_solver. done.
      * rewrite decide_True by done. done.
  - rewrite filter_cons_False; [by apply IH|].
    intros [Heq _]. apply Hx. rewrite Heq. by apply list_elem_of_fmap_2.
Qed.

Lemma downChecks_cons a results cycles :
  downChecks a (results :: cycles)
  = length (filter (fun r => address r = a ∧ alive r = false ∧ time r ≠ UnknownTime) results)
    + downChecks a cycles.
Proof. unfold downChecks. by rewrite concat_cons, filter_app, length_app. Qed.

(** One reconciliation: downtimeCount grows by the events opened for the
    address plus one if the address was found not alive with a time
    other than 'unknown'. *)
Lemma reconcile_account results w a d :
  UniqueAddresses (ips w) → NoDup (address <$> results) → findOne a (ips w) = Some d →
  ∃ d', findOne a (ips (afterReconcile results w)) = Some d'
        ∧ ip_downtimeCount d' + length (eventsOf a (downtimes w))
          = ip_downtimeCount d + length (eventsOf a (downtimes (afterReconcile results w)))
            + length (filter (fun r => address r = a ∧ alive r = false ∧ time r ≠ UnknownTime)
                        results).
Proof.
  intros Hu Hnd Hd. destruct (decide (a ∈ address <$> results)) as [Ha|Ha].
  - apply list_elem_of_fmap in Ha as (r & -> & Hr).
    rewrite (downChecks_one results r Hnd Hr), afterReconcile_downtimes.
    pose proof (afterChanges_at results w r Hu Hnd Hr) as Hat. simpl in Hat.
    rewrite Hd in Hat.
    destruct (afterReconcile_at results w r Hnd Hr) as (o & _ & Hinc & _ & _ & ->).
    assert (∀ x, ip_downtimeCount
                   ((if bool_decide (time r = UnknownTime) then id else applyBulkOp o) x)
                 = ip_downtimeCount x
                   + (if alive r then 0
                      else if bool_decide (time r = UnknownTime) then 0 else 1)) as Hcnt.
    { intros x. destruct (bool_decide (time r = UnknownTime)); simpl.
      - destruct (alive r); lia.
      - by rewrite Hinc. }
    destruct (bool_decide (ip_status d = statusOf (alive r))).
    + destruct Hat as [-> ->]. eexists. split; [done|]. rewrite Hcnt. lia.
    + destruct (alive r) eqn:Hal.
      * destruct Hat as [-> Hat]. eexists. split; [done|]. rewrite Hcnt.
        destruct (bool_decide (ip_status d = Down)).
        -- destruct Hat as (k & _ & _ & ->). rewrite closeLatest_length. lia.
        -- rewrite Hat. lia.
      * destruct Hat as (k & _ & _ & -> & ->). eexists. split; [done|].
        rewrite Hcnt, length_app. simpl. lia.
  - destruct (afterReconcile_other results w a Ha) as [-> ->].
    rewrite (downChecks_absent a results Ha). exists d. split; [done|]. simpl. lia.
Qed.

(** X11. What the downtimeCount of a target counts. Over serial
    reconciliations without storage failure (unique addresses, outcomes
    of distinct addresses in each reconciliation) the growth of
    downtimeCount is the number of downtime events opened for the target,
    as countByIpAddress reports them, plus the number of outcomes that
    found the target not alive with a time other than 'unknown' (the
    bulk update of an outcome with time 'unknown' is not sent and adds
    nothing). *)
Theorem downtimeCount_accounting cycles : ∀ w a d,
  NoFaults w → UniqueAddresses (ips w) →
  Forall (fun results => NoDup (address <$> results)) cycles →
  findOne a (ips w) = Some d →
  ∃ w' d' n n' w1 w2,
    reconcileAll cycles w = Ok tt w'
    ∧ findOne a (ips w') = Some d'
    ∧ countByIpAddress a w = Ok n w1
    ∧ countByIpAddress a w' = Ok n' w2
    ∧ ip_downtimeCount d' + n = ip_downtimeCount d + n' + downChecks a cycles.
Proof.
  assert (∀ w a, NoFaults w →
            countByIpAddress a w
            = Ok (length (eventsOf a (downtimes w)))
                 (advance 0 1 (ips w) (downtimes w) w)) as Hcount.
  { intros w a Hnf. unfold countByIpAddress, try_catch. by rewrite storage_ok. }
  induction cycles as [|results cycles IH]; intros w a d Hnf Hu Hnd Hd.
  - exists w, d. eexists _, _, _, _. split; [done|]. split; [done|].
    split; [by apply Hcount|]. split; [by apply Hcount|]. unfold downChecks. simpl. lia.
  - apply Forall_cons in Hnd as [Hnd1 Hnd].
    destruct (reconcile_account results w a d Hu Hnd1 Hd) as (d1 & Hd1 & Hacc).
    destruct (IH (afterReconcile results w) a d1) as (w' & d' & n & n' & w1 & w2 & Hrun & Hd' & Hn & Hn' & Hsum).
    + by apply NoFaults_afterReconcile.
    + unfold UniqueAddresses. by rewrite afterReconcile_addresses.
    + done.
    + done.
    + rewrite Hcount in Hn by by apply NoFaults_afterReconcile. injection Hn as <- _.
      exists w', d'. eexists _, n', _, w2. split.
      { simpl. unfold bind. by rewrite updatePingResults_ok. }
      split; [done|]. split; [by apply Hcount|]. split; [done|].
      rewrite downChecks_cons. lia.
Qed.

Lemma downtimeCount_accounting_witness :
  ∃ w' d' n n' w1 w2,
    reconcileAll [[isDown "10.0.0.1"]; [noAnswer "10.0.0.1"]; [isDown "10.0.0.1"]]
      (freshWorld [knownUp "10.0.0.1"] [] noFault) = Ok tt w'
    ∧ findOne "10.0.0.1" (ips w') = Some d'
    ∧ countByIpAddress "10.0.0.1" (freshWorld [knownUp "10.0.0.1"] [] noFault) = Ok n w1
    ∧ countByIpAddress "10.0.0.1" w' = Ok n' w2
    ∧ ip_downtimeCount d' + n
      = 0 + n'
        + downChecks "10.0.0.1"
            [[isDown "10.0.0.1"]; [noAnswer "10.0.0.1"]; [isDown "10.0.0.1"]].
Proof.
  apply (downtimeCount_accounting
           [[isDown "10.0.0.1"]; [noAnswer "10.0.0.1"]; [isDown "10.0.0.1"]]
           (freshWorld [knownUp "10.0.0.1"] [] noFault) "10.0.0.1" (knownUp "10.0.0.1")).
  - intros n _. reflexivity.
  - unfold UniqueAddresses. vm_compute. apply NoDup_singleton.
  - repeat (constructor; [vm_compute; apply NoDup_singleton|]). constructor.
  - reflexivity.
Defined.

(* ===================================================================== *)
(** ** The status counts *)
(* ===================================================================== *)

Lemma occurrences_snoc s l x :
  occurrences s (l ++ [x]) = occurrences s l + (if bool_decide (x = s) then 1 else 0).
Proof.
  unfold occurrences. rewrite filter_app, length_app. f_equal.
  rewrite filter_cons, filter_nil. case_bool_decide; subst.
  - by rewrite decide_True.
  - by rewrite decide_False by done.
Qed.

Lemma occurrences_pos s l : 0 < occurrences s l ↔ s ∈ l.
Proof.
  unfold occurrences. split.
  - intros H. destruct (filter (eq s) l) as [|x f] eqn:E; [simpl in H; lia|].
    assert (x ∈ filter (eq s) l) as [-> Hx]%list_elem_of_filter by (rewrite E; by left). done.
  - intros H. assert (s ∈ filter (eq s) l) as Hin by by apply list_elem_of_filter.
    destruct (filter (eq s) l); [by apply elem_of_nil in Hin|simpl; lia].
Qed.

Lemma occurrences_total l :
  occurrences Up l + occurrences Down l + occurrences Unknown l = length l.
Proof.
  induction l as [|x l IH] using rev_ind; [done|].
  rewrite !occurrences_snoc, length_app. simpl. destruct x; simpl; lia.
Qed.

Lemma occurrences_withStatus s coll :
  occurrences s (ip_status <$> coll) = length (withStatus s coll).
Proof.
  unfold occurrences, withStatus. induction coll as [|d coll IH]; [done|].
  rewrite fmap_cons, !filter_cons.
  destruct (decide (s = ip_status d)) as [->|Hne].
  - rewrite decide_True by done. simpl. by rewrite IH.
  - by rewrite decide_False by done.
Qed.

(** The groups of $group: one per status that occurs, with its number of
    documents. *)
Lemma groups_spec l :
  let groups := foldl addToGroup [] l in
  NoDup groups.*1 ∧ ∀ s n, (s, n) ∈ groups ↔ n = occurrences s l ∧ 0 < n.
Proof.
  induction l as [|x l IH] using rev_ind.
  - simpl. split; [constructor|]. intros s n. split; [by intros ?%elem_of_nil|].
    unfold occurrences. simpl. lia.
  - rewrite foldl_snoc. simpl in *. destruct IH as [Hnd IH].
    set (groups := foldl addToGroup [] l) in *. unfold addToGroup. case_bool_decide as Hx.
    + assert (((fun g : Status * nat => if bool_decide (g.1 = x) then (g.1, S g.2) else g)
                 <$> groups).*1 = groups.*1) as Hfst.
      { rewrite <- list_fmap_compose. apply list_fmap_ext. intros i [s n] _. simpl.
        by case_bool_decide. }
      split; [by rewrite Hfst|]. intros s n. rewrite occurrences_snoc, list_elem_of_fmap.
      split.
      * intros ([s' n'] & Heq & [-> Hpos]%IH). simpl in Heq.
        case_bool_decide; injection Heq as -> ->.
        -- rewrite bool_decide_true by done. lia.
        -- rewrite bool_decide_false by done. lia.
      * intros [-> Hpos]. case_bool_decide as Hs.
        -- subst s. apply list_elem_of_fmap in Hx as ([s' n'] & -> & Hin). simpl in *.
           pose proof Hin as [-> Hp]%IH. exists (s', occurrences s' l). simpl.
           rewrite bool_decide_true by done. split; [f_equal; lia|done].
        -- exists (s, occurrences s l). simpl. rewrite bool_decide_false by done.
           split; [f_equal; lia|]. apply IH. lia.
    + assert (occurrences x l = 0) as Hzero.
      { destruct (occurrences x l) as [|k] eqn:E; [done|]. exfalso. apply Hx.
        apply list_elem_of_fmap. exists (x, S k). split; [done|]. apply IH. lia. }
      split.
      * rewrite fmap_app. apply NoDup_app. split; [done|]. split; [|apply NoDup_singleton].
        intros s Hs [->|Hin%elem_of_nil]%elem_of_cons; done.
      * intros s n. rewrite occurrences_snoc, elem_of_app, list_elem_of_singleton, IH.
        case_bool_decide as Hs.
        -- subst s. rewrite Hzero. split.
           ++ intros [[-> Hp]|[= ->]]; [lia|]. simpl. lia.
           ++ intros [-> _]. by right.
        -- split.
           ++ intros [[-> Hp]|[= -> ->]]; [lia|done].
           ++ intros [-> Hp]. left. split; lia.
Qed.

Lemma statusName_inj s t : statusName s = statusName t → s = t.
Proof. by destruct s, t. Qed.

Lemma statusName_not_Total s : statusName s ≠ "Total"%string.
Proof. by destruct s. Qed.

(** The object after counts.forEach. *)
Lemma counts_object groups :
  NoDup groups.*1 →
  ∀ s n, foldl (fun (r : gmap string nat) (item : Status * nat) =>
                  <[statusName item.1 := item.2]> r) ∅ groups !! statusName s = Some n
         ↔ (s, n) ∈ groups.
Proof.
  induction groups as [|[s0 n0] groups IH] using rev_ind; intros Hnd s n.
  - simpl. rewrite lookup_empty. split; [done|by intros ?%elem_of_nil].
  - rewrite fmap_app in Hnd. apply NoDup_app in Hnd as (Hnd & Hnot & _).
    rewrite foldl_snoc, elem_of_app, list_elem_of_singleton. simpl fst. simpl snd.
    destruct (decide (s = s0)) as [->|Hne].
    + rewrite lookup_insert_eq. split.
      * intros [= ->]. by right.
      * intros [Hin|[= ->]]; [|done]. exfalso. apply (Hnot s0).
        -- apply list_elem_of_fmap. by exists (s0, n).
        -- simpl. by left.
    + rewrite lookup_insert_ne by (intros Heq%statusName_inj; done).
      rewrite IH by done. split; [by left|]. intros [Hin|[= -> ->]]; done.
Qed.

(** The object after statuses.forEach: a key among [keys] holds its count,
    0 when it had none. *)
Lemma fill_lookup keys : ∀ (r : gmap string nat) k,
  foldl (fun (r : gmap string nat) status =>
           if falsy (r !! status) then <[status := 0]> r else r) r keys !! k
  = if bool_decide (k ∈ keys) then Some (default 0 (r !! k)) else r !! k.
Proof.
  induction keys as [|k0 keys IH]; intros r k; [done|].
  cbn [foldl]. rewrite IH. destruct (decide (k = k0)) as [->|Hne].
  - rewrite (bool_decide_true (k0 ∈ k0 :: keys)) by by left.
    assert (default 0 ((if falsy (r !! k0) then <[k0:=0]> r else r) !! k0)
            = default 0 (r !! k0)
            ∧ (if falsy (r !! k0) then <[k0:=0]> r else r) !! k0
              = Some (default 0 (r !! k0))) as [H1 H2].
    { destruct (r !! k0) as [[|n]|] eqn:E; simpl; rewrite ?lookup_insert_eq, ?E; done. }
    rewrite H1, H2. by case_bool_decide.
  - assert ((if falsy (r !! k0) then <[k0:=0]> r else r) !! k = r !! k) as ->.
    { destruct (falsy (r !! k0)); [by rewrite lookup_insert_ne|done]. }
    rewrite (bool_decide_ext (k ∈ k0 :: keys) (k ∈ keys)); [done|].
    rewrite elem_of_cons. naive_solver.
Qed.

Lemma statusName_statuses s : statusName s ∈ statuses.
Proof. unfold statuses. destruct s; simpl; set_solver. Qed.

Lemma statusCountsObject_spec coll s :
  statusCountsObject (groupByStatus coll) !! statusName s = Some (length (withStatus s coll))
  ∧ statusCountsObject (groupByStatus coll) !! "Total"%string = Some (length coll).
Proof.
  unfold groupByStatus. destruct (groups_spec (ip_status <$> coll)) as [Hnd Hg].
  pose proof (counts_object _ Hnd) as Hobj. unfold statusCountsObject.
  set (r := foldl _ ∅ (foldl addToGroup [] (ip_status <$> coll))) in *.
  assert (∀ t, default 0 (r !! statusName t) = occurrences t (ip_status <$> coll)) as Hr.
  { intros t. destruct (r !! statusName t) as [n|] eqn:E.
    - by apply Hobj, Hg in E as [-> Hp].
    - destruct (occurrences t (ip_status <$> coll)) as [|k] eqn:Ek; [done|].
      assert (r !! statusName t = Some (S k)) as Hs; [|congruence].
      apply Hobj, Hg. rewrite Ek. split; [done|lia]. }
  set (filled := foldl (fun (r : gmap string nat) status =>
                          if falsy (r !! status) then <[status := 0]> r else r) r statuses).
  assert (∀ t, filled !! statusName t = Some (occurrences t (ip_status <$> coll))) as Hfill.
  { intros t. unfold filled. rewrite fill_lookup.
    rewrite bool_decide_true by apply statusName_statuses. by rewrite Hr. }
  split.
  - rewrite lookup_insert_ne by (intros Heq; by apply (statusName_not_Total s)).
    by rewrite Hfill, occurrences_withStatus.
  - rewrite lookup_insert_eq. f_equal. unfold statuses. cbn [foldl].
    pose proof (Hfill Up) as HU. pose proof (Hfill Down) as HD.
    pose proof (Hfill Unknown) as HN. simpl in HU, HD, HN. rewrite HU, HD, HN. simpl.
    rewrite occurrences_total. by rewrite length_fmap.
Qed.

(** X12. The status counts of the dashboard. When the aggregation
    succeeds, the object answered holds under each of Up, Down and Unknown
    the number of documents of the IP collection with that status (0 when
    there is none) and under Total the number of all documents; when it
    fails, the error is passed on. Both collections are left as they
    were. *)
Theorem status_counts w :
  match fault w (storageOps w) with
  | Some e =>
      ∃ w', statusCountsHandler w = Throw e w'
            ∧ ips w' = ips w ∧ downtimes w' = downtimes w
  | None =>
      ∃ counts w',
        statusCountsHandler w = Ok counts w'
        ∧ ips w' = ips w ∧ downtimes w' = downtimes w
        ∧ (∀ s, counts !! statusName s = Some (length (withStatus s (ips w))))
        ∧ counts !! "Total"%string = Some (length (ips w))
        ∧ length (withStatus Up (ips w)) + length (withStatus Down (ips w))
          + length (withStatus Unknown (ips w)) = length (ips w)
  end.
Proof.
  destruct (fault w (storageOps w)) as [e|] eqn:E.
  - unfold statusCountsHandler, getStatusCounts, try_catch, bind.
    rewrite (storage_fault _ _ e) by done. by eexists.
  - unfold statusCountsHandler, getStatusCounts, try_catch, bind.
    rewrite storage_run by done. simpl. unfold ret. eexists _, _. split; [done|].
    simpl. split; [done|]. split; [done|]. split; [|split].
    + intros s. apply statusCountsObject_spec.
    + apply (statusCountsObject_spec (ips w) Up).
    + rewrite <- !occurrences_withStatus, occurrences_total. by rewrite length_fmap.
Qed.

(* ===================================================================== *)
(** ** The dashboard after a cycle *)
(* ===================================================================== *)

Lemma processBatchWithRetry_times batch retries : ∀ runs r,
  (∀ k probe ip r_alive r_time r_output,
     runs k = Completed probe → probe ip = Replied r_alive r_time r_output →
     r_time ≠ UnknownTime) →
  r ∈ processBatchWithRetry runs batch retries → time r ≠ UnknownTime.
Proof.
  induction retries as [|retries IH]; intros runs r Hruns; simpl;
    destruct (runs 0) as [probe|message] eqn:E; simpl.
  - intros (ip & -> & _)%list_elem_of_fmap. unfold pingIP.
    destruct (probe ip) as [a t o|m] eqn:Ep; simpl; [by eapply Hruns|done].
  - by intros (ip & -> & _)%list_elem_of_fmap.
  - intros (ip & -> & _)%list_elem_of_fmap. unfold pingIP.
    destruct (probe ip) as [a t o|m] eqn:Ep; simpl; [by eapply Hruns|done].
  - apply IH. intros k. apply Hruns.
Qed.

Lemma dispatch_times batches : ∀ env r,
  TimedReplies env → r ∈ dispatch env batches → time r ≠ UnknownTime.
Proof.
  unfold dispatch. induction batches as [|batch batches IH]; intros env r Henv.
  - by intros ?%elem_of_nil.
  - rewrite imap_cons, concat_cons, elem_of_app. intros [Hr|Hr].
    + eapply processBatchWithRetry_times; [|exact Hr]. intros k. apply Henv.
    + apply (IH (fun b => env (S b))); [|done]. intros b. apply Henv.
Qed.

(** After the reconciliation of one outcome per document, in the order of
    the collection, every document whose outcome has a time other than
    'unknown' holds the status of its outcome. *)
Lemma statuses_after_reconcile results w :
  UniqueAddresses (ips w) → address <$> results = ip_address <$> ips w →
  (∀ r, r ∈ results → time r ≠ UnknownTime) →
  ip_status <$> ips (afterReconcile results w) = (fun r => statusOf (alive r)) <$> results.
Proof.
  intros Hu Haddr Htimes.
  assert (ip_address <$> ips (afterReconcile results w) = address <$> results) as Haddr'.
  { by rewrite afterReconcile_addresses. }
  assert (NoDup (address <$> results)) as Hnd by by rewrite Haddr.
  assert (UniqueAddresses (ips (afterReconcile results w))) as Hu'.
  { unfold UniqueAddresses. by rewrite Haddr'. }
  apply list_eq. intros i. rewrite !list_lookup_fmap.
  pose proof (f_equal (fun l => l !! i) Haddr') as Hi. simpl in Hi.
  rewrite !list_lookup_fmap in Hi.
  destruct (results !! i) as [r|] eqn:Er; simpl in *.
  - destruct (ips (afterReconcile results w) !! i) as [d'|] eqn:Ed; [|done]. simpl in *.
    injection Hi as Hi. f_equal.
    assert (findOne (address r) (ips (afterReconcile results w)) = Some d') as Hf.
    { apply findOne_Some; [done|]. split; [|done]. by eapply list_elem_of_lookup_2. }
    assert (r ∈ results) as Hr by by eapply list_elem_of_lookup_2.
    pose proof (statusAt_afterReconcile_at results w r Hnd Hr) as Hst.
    rewrite (bool_decide_eq_false_2 (time r = UnknownTime)) in Hst by by apply Htimes.
    unfold statusAt in Hst. rewrite Hf in Hst. simpl in Hst.
    destruct (findOne (address r) (ips w)) as [d|] eqn:Hd; simpl in Hst; [congruence|].
    exfalso. apply findOne_None in Hd. apply Hd. rewrite <- Haddr.
    by apply list_elem_of_fmap_2.
  - by destruct (ips (afterReconcile results w) !! i).
Qed.

Lemma occurrences_outcomes results :
  occurrences Up ((fun r => statusOf (alive r)) <$> results) = countAlive results
  ∧ occurrences Down ((fun r => statusOf (alive r)) <$> results) = countNotAlive results
  ∧ occurrences Unknown ((fun r => statusOf (alive r)) <$> results) = 0.
Proof.
  unfold occurrences, countAlive, countNotAlive.
  induction results as [|r results (IH1 & IH2 & IH3)]; [done|].
  rewrite fmap_cons, !filter_cons. destruct (alive r) eqn:E; simpl.
  - by rewrite IH1, IH2, IH3.
  - by rewrite IH1, IH2, IH3.
Qed.

(** X13. The dashboard after a cycle. When no storage operation fails and
    the addresses of the IP collection are unique, the status counts read
    right after a cycle have as Total the total the cycle returned. If
    moreover no probe of the cycle resolved with time 'unknown', they
    are the counts the cycle returned: Up and Down are its up and down
    (0 for the cycle over an empty collection, which reports none), and
    no target is left Unknown. (The update of an outcome with time
    'unknown' is not sent, and its target keeps the status it had.) *)
Theorem dashboard_after_cycle config env w :
  NoFaults w → UniqueAddresses (ips w) →
  ∃ r w1 counts w2,
    runPingCycle config env w = Ok r w1
    ∧ statusCountsHandler w1 = Ok counts w2
    ∧ c_error r = None
    ∧ counts !! "Total"%string = Some (c_total r)
    ∧ (TimedReplies env →
       counts !! "Up"%string = Some (default 0 (c_up r))
       ∧ counts !! "Down"%string = Some (default 0 (c_down r))
       ∧ counts !! "Unknown"%string = Some 0).
Proof.
  intros Hnf Hu.
  assert (∀ w1, NoFaults w1 →
            statusCountsHandler w1
            = Ok (statusCountsObject (groupByStatus (ips w1)))
                 (advance 0 1 (ips w1) (downtimes w1) w1)) as Hrun.
  { intros w1 H1. unfold statusCountsHandler, getStatusCounts, try_catch, bind.
    by rewrite storage_ok. }
  pose proof (findAll_run w (Hnf _ (le_n _))) as Hload.
  destruct (ips w) as [|d coll] eqn:Hips.
  - rewrite (runPingCycle_empty _ _ _ _ Hload). eexists _, _, _, _. split; [done|].
    rewrite Hrun by by apply NoFaults_advance. split; [done|]. simpl.
    split; [done|]. split; [apply (statusCountsObject_spec [] Up)|]. intros _.
    split; [apply (statusCountsObject_spec [] Up)|].
    split; [apply (statusCountsObject_spec [] Down)|apply (statusCountsObject_spec [] Unknown)].
  - destruct (runPingCycle_loaded config env w _ _ Hload) as (results & Hout & Haddr & ->);
      [done|].
    rewrite <- Hips in *. clear Hips d coll.
    set (w1 := advance 0 1 (ips w) (downtimes w) w).
    assert (NoFaults w1) as Hnf1 by by apply NoFaults_advance.
    rewrite updatePingResults_ok by done.
    rewrite project_fst in Haddr.
    eexists _, _, _, _. split; [done|].
    rewrite Hrun by by apply NoFaults_afterReconcile. split; [done|]. simpl.
    split; [done|]. split.
    + rewrite (proj2 (statusCountsObject_spec _ Up)). f_equal.
      rewrite <- (length_fmap ip_address), afterReconcile_addresses. simpl.
      unfold project. by rewrite !length_fmap.
    + intros Henv.
      assert (∀ r, r ∈ results → time r ≠ UnknownTime) as Htimes.
      { unfold cycleOutcomes in Hout.
        destruct (partition config _) as [batches|]; [|done].
        injection Hout as <-. intros r. by apply dispatch_times. }
      pose proof (statuses_after_reconcile results w1 Hu Haddr Htimes) as Hst.
      destruct (occurrences_outcomes results) as (HU & HD & HN).
      split; [|split].
      * rewrite (proj1 (statusCountsObject_spec _ Up)).
        by rewrite <- occurrences_withStatus, Hst, HU.
      * rewrite (proj1 (statusCountsObject_spec _ Down)).
        by rewrite <- occurrences_withStatus, Hst, HD.
      * rewrite (proj1 (statusCountsObject_spec _ Unknown)).
        by rewrite <- occurrences_withStatus, Hst, HN.
Qed.

Lemma dashboard_after_cycle_witness :
  ∃ r w1 counts w2,
    runPingCycle defaultConfig allUp
      (freshWorld [registered "10.0.0.1"; knownUp "10.0.0.2"] [] noFault) = Ok r w1
    ∧ statusCountsHandler w1 = Ok counts w2
    ∧ c_error r = None
    ∧ counts !! "Total"%string = Some (c_total r)
    ∧ counts !! "Up"%string = Some (default 0 (c_up r))
    ∧ counts !! "Down"%string = Some (default 0 (c_down r))
    ∧ counts !! "Unknown"%string = Some 0.
Proof.
  destruct (dashboard_after_cycle defaultConfig allUp
              (freshWorld [registered "10.0.0.1"; knownUp "10.0.0.2"] [] noFault))
    as (r & w1 & counts & w2 & Hrun & Hcounts & Herr & Htotal & Hrest).
  - intros n _. reflexivity.
  - unfold UniqueAddresses. simpl. apply NoDup_cons. split; [|apply NoDup_singleton].
    intros [=]%list_elem_of_singleton.
  - exists r, w1, counts, w2. split; [exact Hrun|]. split; [exact Hcounts|].
    split; [exact Herr|]. split; [exact Htotal|]. apply Hrest.
    intros b k probe ip r_alive r_time r_output [= <-] [= _ <- _]. done.
Defined.

(* ===================================================================== *)
(** ** The downtime history *)
(* ===================================================================== *)

Lemma newerFirst_trans : Transitive newerFirst.
Proof. intros x y z. unfold newerFirst. lia. Qed.

Lemma newerFirst_total : Total newerFirst.
Proof. intros x y. unfold newerFirst. lia. Qed.

Lemma sortNewestFirst_sorted l : Sorted.StronglySorted newerFirst (sortNewestFirst l).
Proof.
  apply (@sorting.StronglySorted_merge_sort _ newerFirst _ newerFirst_trans newerFirst_total).
Qed.

Lemma sortNewestFirst_perm l : sortNewestFirst l ≡ₚ l.
Proof. apply sorting.merge_sort_Permutation. Qed.

Lemma sorted_lookup (l : list DowntimeDoc) :
  Sorted.StronglySorted newerFirst l →
  ∀ i j x y, i < j → l !! i = Some x → l !! j = Some y →
             (dt_timestamp y ≤ dt_timestamp x)%Z.
Proof.
  induction 1 as [|a l Hs IH Hall]; intros i j x y Hij Hi Hj; [done|].
  destruct j as [|j]; [lia|]. simpl in Hj. destruct i as [|i].
  - injection Hi as <-. rewrite Forall_forall in Hall.
    apply Hall. by eapply list_elem_of_lookup_2.
  - simpl in Hi. apply (IH i j); [lia|done|done].
Qed.

(** A limited list is a prefix, of the length the limit allows. *)
Lemma limitTo_prefix {A} n (l : list A) :
  ∃ k, limitTo n l = take k l
       ∧ length (limitTo n l) = (if bool_decide (n = 0) then length l else n `min` length l).
Proof.
  unfold limitTo. case_bool_decide.
  - exists (length l). by rewrite firstn_all.
  - exists n. by rewrite length_take.
Qed.


(** What find, sort and limit return. *)
Lemma history_spec (P : DowntimeDoc → Prop) `{∀ e, Decision (P e)} n dts :
  let matching := filter P dts in
  let h := limitTo n (sortNewestFirst matching) in
  h ⊆+ matching
  ∧ length h = (if bool_decide (n = 0) then length matching else n `min` length matching)
  ∧ (∀ i j x y, i < j → h !! i = Some x → h !! j = Some y →
                (dt_timestamp y ≤ dt_timestamp x)%Z)
  ∧ (∀ e x, e ∈ dts → P e → x ∈ h → e ∈ h ∨ (dt_timestamp e ≤ dt_timestamp x)%Z).
Proof.
  intros matching h. subst h.
  destruct (limitTo_prefix n (sortNewestFirst matching)) as (k & Hk & Hlen).
  pose proof (sortNewestFirst_sorted matching) as Hs.
  pose proof (sortNewestFirst_perm matching) as Hp.
  rewrite Hlen, Hk. split; [|split; [|split]].
  - rewrite <- Hp at 2. apply sublist_submseteq, sublist_take.
  - by rewrite (Permutation_length Hp).
  - rewrite <- (take_drop k (sortNewestFirst matching)) in Hs.
    apply sorting.StronglySorted_app_1_l in Hs. by apply sorted_lookup.
  - intros e x He HP Hx.
    assert (e ∈ sortNewestFirst matching) as Hin.
    { rewrite Hp. by apply list_elem_of_filter. }
    rewrite <- (take_drop k (sortNewestFirst matching)) in Hin, Hs.
    apply elem_of_app in Hin as [Hin|Hin]; [by left|right].
    by apply (sorting.StronglySorted_app_1_elem_of newerFirst _ _ x e Hs).
Qed.



(** X15. The limit of the history endpoint. The handler answers the 100
    newest matching events when the request gives no limit and the first
    [limit] when it gives one, except that the limit 0 lifts the bound:
    all matching events are answered. *)
Theorem history_endpoint_limit query w :
  fault w (storageOps w) = None →
  let matching := filter (fun e => historyQuery query e) (downtimes w) in
  ∃ h w',
    downtimeHistoryHandler query w = Ok h w'
    ∧ h ⊆+ matching
    ∧ length h = match f_limit query with
                 | None => 100 `min` length matching
                 | Some 0 => length matching
                 | Some n => n `min` length matching
                 end
    ∧ (∀ i j x y, i < j → h !! i = Some x → h !! j = Some y →
                  (dt_timestamp y ≤ dt_timestamp x)%Z)
    ∧ (∀ e x, e ∈ downtimes w → historyQuery query e = true → x ∈ h →
              e ∈ h ∨ (dt_timestamp e ≤ dt_timestamp x)%Z).
Proof.
  intros Hf matching. unfold downtimeHistoryHandler, getDowntimeHistory, try_catch.
  rewrite storage_run by done. simpl.
  set (n := match f_limit query with Some n => n | None => 100 end).
  destruct (history_spec (fun e => historyQuery query e) n (downtimes w))
    as (Hsub & Hlen & Hsorted & Hrecent).
  fold matching in Hsub, Hlen, Hsorted, Hrecent.
  assert (match match f_limit query with
                | Some n => Some n
                | None => Some 100
                end with
          | Some n => n
          | None => 0
          end = n) as ->.
  { unfold n. by destruct (f_limit query). }
  eexists _, _. split; [done|].
  change (filter _ (downtimes w)) with matching.
  split; [done|]. split; [|split].
  - rewrite Hlen. unfold n. destruct (f_limit query) as [[|k]|]; done.
  - done.
  - intros e x He Hq Hx. apply (Hrecent e x He); [|done]. by apply Is_true_true.
Qed.

Lemma history_endpoint_limit_witness :
  ∃ h w',
    downtimeHistoryHandler (mkFilters None None None (Some 0))
      (freshWorld [] (replicate 101 (mkDowntime "10.0.0.1" 400 None "Ping timeout")) noFault)
    = Ok h w'
    ∧ length h = 101.
Proof.
  destruct (history_endpoint_limit (mkFilters None None None (Some 0))
              (freshWorld [] (replicate 101 (mkDowntime "10.0.0.1" 400 None "Ping timeout"))
                 noFault) eq_refl)
    as (h & w' & Hrun & _ & Hlen & _).
  exists h, w'. split; [exact Hrun|exact Hlen].
Defined.

Lemma recordDowntime_ok a w :
  NoFaults w →
  recordDowntime a w
  = Ok (mkDowntime a (clock w (clockReads w)) None "Ping timeout")
       (advance 1 1 (ips w)
          (downtimes w ++ [mkDowntime a (clock w (clockReads w)) None "Ping timeout"]) w).
Proof.
  intros Hnf. unfold recordDowntime, try_catch, bind, readClock.
  by rewrite storage_ok by (intros n Hn; apply Hnf; simpl in *; lia).
Qed.

(** X16. The event just recorded heads the history of its target. When
    no storage operation fails and the events the target already has
    started before, the history read from the target's document right
    after recordDowntime begins with the event recordDowntime saved,
    whatever the limit. *)
Theorem recorded_event_heads_history this limit w :
  NoFaults w →
  (∀ e, e ∈ downtimes w → dt_ipAddress e = ip_address this →
        (dt_timestamp e < clock w (clockReads w))%Z) →
  ∃ e w1 h w2,
    recordDowntime (ip_address this) w = Ok e w1
    ∧ IP_getDowntimeHistory this limit w1 = Ok h w2
    ∧ head h = Some e
    ∧ dt_duration e = None
    ∧ dt_timestamp e = clock w (clockReads w).
Proof.
  intros Hnf Hold. rewrite recordDowntime_ok by done.
  set (e := mkDowntime (ip_address this) (clock w (clockReads w)) None "Ping timeout").
  eexists _, _. unfold IP_getDowntimeHistory, try_catch.
  rewrite storage_ok by by apply NoFaults_advance. simpl.
  eexists _, _. split; [done|]. split; [done|]. split; [|done].
  rewrite eventsOf_snoc. simpl. rewrite bool_decide_true by done.
  set (own := eventsOf (ip_address this) (downtimes w)).
  pose proof (sortNewestFirst_sorted (own ++ [e])) as Hs.
  pose proof (sortNewestFirst_perm (own ++ [e])) as Hp.
  destruct (sortNewestFirst (own ++ [e])) as [|x s] eqn:Es.
  { apply Permutation_nil_l in Hp. by destruct own. }
  assert (x = e) as ->.
  { assert (x ∈ own ++ [e]) as [Hx|Hx%list_elem_of_singleton]%elem_of_app;
      [rewrite <- Hp; by left| |done].
    exfalso. apply list_elem_of_filter in Hx as [Ha Hin].
    pose proof (Hold x Hin Ha) as Hlt.
    assert (e ∈ x :: s) as [He|He]%elem_of_cons.
    { rewrite Hp. apply elem_of_app. right. by left. }
    - rewrite <- He in Hlt. simpl in Hlt. lia.
    - apply sorting.StronglySorted_cons in Hs as [Hall _].
      rewrite Forall_forall in Hall. specialize (Hall e He).
      unfold newerFirst in Hall. simpl in Hall. lia. }
  unfold limitTo. case_bool_decide; [done|].
  destruct (default 10 limit); done.
Qed.

Lemma recorded_event_heads_history_witness :
  ∃ e w1 h w2,
    recordDowntime "10.0.0.1"
      (freshWorld [knownUp "10.0.0.1"]
         [mkDowntime "10.0.0.1" 400 (Some 20%Z) "Ping timeout"] noFault) = Ok e w1
    ∧ IP_getDowntimeHistory (knownUp "10.0.0.1") (Some 10) w1 = Ok h w2
    ∧ head h = Some e
    ∧ dt_duration e = None
    ∧ dt_timestamp e = clockFrom 1000 0.
Proof.
  apply (recorded_event_heads_history (knownUp "10.0.0.1") (Some 10)
           (freshWorld [knownUp "10.0.0.1"]
              [mkDowntime "10.0.0.1" 400 (Some 20%Z) "Ping timeout"] noFault)).
  - intros n _. reflexivity.
  - intros e [->|He%elem_of_nil]%elem_of_cons _; [|done]. vm_compute. reflexivity.
Defined.

(* ===================================================================== *)
(** ** The validation of an address *)
(* ===================================================================== *)

Lemma matchTimes_spec f (L : list ascii → Prop) :
  (∀ s s', s' ∈ f s ↔ ∃ o, L o ∧ s = o ++ s') →
  ∀ n s s', s' ∈ matchTimes f n s ↔ ∃ os, length os = n ∧ Forall L os ∧ s = concat os ++ s'.
Proof.
  intros Hf. induction n as [|n IH]; intros s s'; simpl.
  - rewrite list_elem_of_singleton. split.
    + intros ->. by exists [].
    + intros (os & Hlen & _ & ->). by destruct os.
  - rewrite list_elem_of_bind. split.
    + intros (s1 & (os & Hlen & Hall & ->)%IH & (o & Ho & ->)%Hf).
      exists (o :: os). simpl. rewrite Hlen, <- app_assoc. by repeat constructor.
    + intros (os & Hlen & Hall & ->). destruct os as [|o os]; [done|].
      apply Forall_cons in Hall as [Ho Hall]. simpl in *.
      exists (concat os ++ s'). split.
      * apply IH. exists os. split; [lia|done].
      * apply Hf. exists o. by rewrite <- app_assoc.
Qed.

(** The matcher finds the strings of the expression at the start of the
    input, and nothing else. *)
Lemma matchRegex_spec r : ∀ s s', s' ∈ matchRegex r s ↔ ∃ o, lang r o ∧ s = o ++ s'.
Proof.
  induction r as [|a|r1 IH1 r2 IH2|r IH lo hi]; intros s s'; simpl.
  - destruct s as [|c s].
    + split; [by intros ?%elem_of_nil|]. by intros (o & (c & -> & _) & ?).
    + destruct (isDigit c) eqn:E.
      * rewrite list_elem_of_singleton. split.
        -- intros ->. exists [c]. split; [by exists c|done].
        -- by intros (o & (c' & -> & _) & [= _ ->]).
      * split; [by intros ?%elem_of_nil|].
        intros (o & (c' & -> & Hc) & [= -> _]). congruence.
  - destruct s as [|c s].
    + split; [by intros ?%elem_of_nil|]. by intros (o & -> & ?).
    + case_bool_decide as Hc.
      * subst c. rewrite list_elem_of_singleton. split.
        -- intros ->. by exists [a].
        -- by intros (o & -> & [= ->]).
      * split; [by intros ?%elem_of_nil|]. intros (o & -> & [= -> _]). done.
  - rewrite list_elem_of_bind. split.
    + intros (s1 & (o2 & H2 & ->)%IH2 & (o1 & H1 & ->)%IH1).
      exists (o1 ++ o2). rewrite <- app_assoc. split; [|done]. by exists o1, o2.
    + intros (o & (o1 & o2 & -> & H1 & H2) & ->). exists (o2 ++ s'). split.
      * apply IH2. by exists o2.
      * apply IH1. exists o1. by rewrite <- app_assoc.
  - rewrite list_elem_of_bind. split.
    + intros (n & (os & Hlen & Hall & ->)%(matchTimes_spec _ _ IH) & [Hlo Hhi]%elem_of_seq).
      exists (concat os). split; [|done]. exists os. split; [lia|done].
    + intros (o & (os & Hlen & Hall & ->) & ->). exists (length os). split.
      * apply (matchTimes_spec _ _ IH). by exists os.
      * apply elem_of_seq. lia.
Qed.

Lemma regexTest_spec r s : regexTest r s = true ↔ lang r s.
Proof.
  unfold regexTest. rewrite bool_decide_eq_true, matchRegex_spec. split.
  - intros (o & Ho & ->). by rewrite app_nil_r.
  - intros H. exists s. by rewrite app_nil_r.
Qed.

Lemma concat_digits os :
  Forall (lang Digit) os →
  length (concat os) = length os ∧ Forall (fun c => isDigit c = true) (concat os).
Proof.
  induction 1 as [|o os (c & -> & Hc) _ [IH1 IH2]]; [done|].
  simpl. split; [by rewrite IH1|by constructor].
Qed.

Lemma lang_digits13 o : lang (Rep Digit 1 3) o ↔ isDigits13 o.
Proof.
  unfold isDigits13. simpl. split.
  - intros (os & Hlen & Hall & ->). destruct (concat_digits os Hall) as [-> Hd]. done.
  - intros [Hlen Hd]. exists ((fun c => [c]) <$> o). rewrite length_fmap.
    split; [done|]. split.
    + apply Forall_fmap. eapply Forall_impl; [exact Hd|]. intros c Hc. by exists c.
    + clear. induction o as [|c o IH]; [done|]. simpl. f_equal. exact IH.
Qed.

Lemma Forall_four {A} (P : A → Prop) a b c d :
  Forall P [a; b; c; d] ↔ P a ∧ P b ∧ P c ∧ P d.
Proof. rewrite !Forall_cons, Forall_nil. naive_solver. Qed.

Lemma lang_Seq r1 r2 o :
  lang (Seq r1 r2) o ↔ ∃ o1 o2, o = o1 ++ o2 ∧ lang r1 o1 ∧ lang r2 o2.
Proof. done. Qed.

Lemma lang_Rep r lo hi o :
  lang (Rep r lo hi) o ↔ ∃ os, lo ≤ length os ≤ hi ∧ Forall (lang r) os ∧ o = concat os.
Proof. done. Qed.

Lemma lang_group x :
  lang (Seq (Rep Digit 1 3) (Lit "."%char)) x ↔ ∃ o, x = o ++ ["."%char] ∧ isDigits13 o.
Proof.
  rewrite lang_Seq. split.
  - intros (o1 & o2 & -> & H1%lang_digits13 & H2). simpl in H2. subst o2. by exists o1.
  - intros (o & -> & Ho). exists o, ["."%char]. split; [done|]. split; [|done].
    by apply lang_digits13.
Qed.

(** What the pattern of the validation matches. *)
Lemma lang_ipv4Pattern s :
  lang ipv4Pattern s
  ↔ ∃ o1 o2 o3 o4, s = dotted o1 o2 o3 o4 ∧ Forall isDigits13 [o1; o2; o3; o4].
Proof.
  unfold ipv4Pattern, dotted. rewrite lang_Seq. split.
  - intros (a & o4 & -> & Ha%lang_Rep & H4%lang_digits13).
    destruct Ha as (os & Hlen & Hall & ->).
    destruct os as [|x1 [|x2 [|x3 [|x4 os]]]]; simpl in Hlen; try lia.
    apply Forall_cons in Hall as [(o1 & -> & H1)%lang_group Hall].
    apply Forall_cons in Hall as [(o2 & -> & H2)%lang_group Hall].
    apply Forall_cons in Hall as [(o3 & -> & H3)%lang_group _].
    exists o1, o2, o3, o4. split.
    + simpl. by rewrite app_nil_r, <- !app_assoc.
    + by apply Forall_four.
  - intros (o1 & o2 & o3 & o4 & -> & (H1 & H2 & H3 & H4)%Forall_four).
    exists ((o1 ++ ["."%char]) ++ (o2 ++ ["."%char]) ++ (o3 ++ ["."%char])), o4.
    split; [by rewrite <- !app_assoc|]. split; [|by apply lang_digits13].
    apply lang_Rep. exists [o1 ++ ["."%char]; o2 ++ ["."%char]; o3 ++ ["."%char]].
    split; [simpl; lia|]. split.
    + repeat constructor; apply lang_group; by eexists.
    + simpl. by rewrite app_nil_r.
Qed.

Lemma digit_not_dot c : isDigit c = true → c ≠ "."%char.
Proof. by intros H ->. Qed.

Lemma splitOn_nonempty sep s : splitOn sep s ≠ [].
Proof. destruct s as [|c s]; simpl; [done|]. case_bool_decide; [done|]. by case_match. Qed.

Lemma splitOn_last o :
  Forall (fun c => isDigit c = true) o → splitOn "."%char o = [o].
Proof.
  induction 1 as [|c o Hc _ IH]; [done|]. simpl.
  rewrite bool_decide_false by by apply digit_not_dot. by rewrite IH.
Qed.

Lemma splitOn_group o rest :
  Forall (fun c => isDigit c = true) o →
  splitOn "."%char (o ++ "."%char :: rest) = o :: splitOn "."%char rest.
Proof.
  induction 1 as [|c o Hc _ IH]; [done|]. simpl.
  rewrite bool_decide_false by by apply digit_not_dot. by rewrite IH.
Qed.

Lemma splitOn_dotted o1 o2 o3 o4 :
  Forall isDigits13 [o1; o2; o3; o4] →
  splitOn "."%char (dotted o1 o2 o3 o4) = [o1; o2; o3; o4].
Proof.
  intros ([_ H1] & [_ H2] & [_ H3] & [_ H4])%Forall_four.
  unfold dotted. by rewrite !splitOn_group, splitOn_last.
Qed.

Lemma leadingDigits_digits o :
  Forall (fun c => isDigit c = true) o →
  ∀ acc, leadingDigits (Some acc) o
         = Some (foldl (fun acc c => (10 * acc + digitValue c)%Z) acc o).
Proof.
  induction 1 as [|c o Hc _ IH]; intros acc; [done|]. simpl. by rewrite Hc, IH.
Qed.

Lemma decimal_nonneg_from o : ∀ acc,
  (0 ≤ acc)%Z → (0 ≤ foldl (fun acc c => (10 * acc + digitValue c)%Z) acc o)%Z.
Proof.
  induction o as [|c o IH]; intros acc Hacc; [done|]. simpl. apply IH.
  unfold digitValue. lia.
Qed.

(** parseInt reads a string of digits as the number it writes. *)
Lemma parseInt10_digits o :
  isDigits13 o → parseInt10 o = Some (decimal o) ∧ (0 ≤ decimal o)%Z.
Proof.
  intros [Hlen Hd]. split; [|by apply decimal_nonneg_from].
  destruct Hd as [|c o Hc Hd]; [simpl in Hlen; lia|].
  unfold parseInt10, decimal.
  assert (skipSpaces (c :: o) = c :: o) as ->.
  { simpl. destruct c as [[] [] [] [] [] [] [] []]; done. }
  assert (c ≠ "-"%char ∧ c ≠ "+"%char) as [Hm Hp] by (split; by intros ->).
  assert (leadingDigits None (c :: o)
          = Some (foldl (fun acc c => (10 * acc + digitValue c)%Z) 0%Z (c :: o))) as Hl.
  { simpl. rewrite Hc. simpl. by rewrite leadingDigits_digits. }
  destruct c as [[] [] [] [] [] [] [] []]; done.
Qed.

(** An address that does not match the pattern is rejected. *)
Lemma validateIPAddress_pattern address :
  validateIPAddress address = true → lang ipv4Pattern (list_ascii_of_string address).
Proof.
  unfold validateIPAddress. intros H. apply regexTest_spec.
  by destruct (regexTest ipv4Pattern (list_ascii_of_string address)).
Qed.

(** The validation of four groups of digits with dots between them. *)
Lemma validateIPAddress_dotted address o1 o2 o3 o4 :
  list_ascii_of_string address = dotted o1 o2 o3 o4 →
  Forall isDigits13 [o1; o2; o3; o4] →
  validateIPAddress address = true ↔ Forall (fun o => (decimal o ≤ 255)%Z) [o1; o2; o3; o4].
Proof.
  intros Hs Hall. unfold validateIPAddress.
  assert (regexTest ipv4Pattern (list_ascii_of_string address) = true) as ->.
  { apply regexTest_spec, lang_ipv4Pattern. by exists o1, o2, o3, o4. }
  simpl. rewrite Hs, (splitOn_dotted _ _ _ _ Hall).
  assert (∀ o, isDigits13 o →
            match parseInt10 o with
            | Some num => (0 <=? num)%Z && (num <=? 255)%Z
            | None => false
            end = true ↔ (decimal o ≤ 255)%Z) as Hrange.
  { intros o Ho. destruct (parseInt10_digits o Ho) as [-> Hpos].
    rewrite andb_true_iff, !Z.leb_le. lia. }
  apply Forall_four in Hall as (H1 & H2 & H3 & H4).
  cbn [forallb]. rewrite !andb_true_iff, !Hrange, Forall_four by done. naive_solver.
Qed.

(** X17. The addresses validateIPAddress accepts are the strings made of
    four groups of one to three decimal digits with single dots between
    them, each group writing a number up to 255; a group may have leading
    zeros, and nothing may come before, between or after. *)
Theorem valid_addresses address :
  validateIPAddress address = true
  ↔ ∃ o1 o2 o3 o4,
      list_ascii_of_string address = dotted o1 o2 o3 o4 ∧ Forall isOctet [o1; o2; o3; o4].
Proof.
  split.
  - intros Hv.
    destruct (proj1 (lang_ipv4Pattern _) (validateIPAddress_pattern _ Hv))
      as (o1 & o2 & o3 & o4 & Hs & Hall).
    exists o1, o2, o3, o4. split; [done|].
    apply (validateIPAddress_dotted _ _ _ _ _ Hs Hall) in Hv.
    apply Forall_four in Hall as (H1 & H2 & H3 & H4).
    apply Forall_four in Hv as (D1 & D2 & D3 & D4).
    by apply Forall_four.
  - intros (o1 & o2 & o3 & o4 & Hs & Hoct).
    assert (Forall isDigits13 [o1; o2; o3; o4]) as Hall.
    { eapply Forall_impl; [exact Hoct|]. by intros o [Ho _]. }
    apply (validateIPAddress_dotted _ _ _ _ _ Hs Hall).
    eapply Forall_impl; [exact Hoct|]. by intros o [_ Ho].
Qed.

Lemma chars_app s1 s2 :
  list_ascii_of_string (s1 +:+ s2) = list_ascii_of_string s1 ++ list_ascii_of_string s2.
Proof. induction s1 as [|c s1 IH]; [done|]. cbn. by rewrite <- IH. Qed.

Lemma pretty_N_char_digit d :
  (d < 10)%N →
  isDigit (pretty.pretty_N_char d) = true ∧ digitValue (pretty.pretty_N_char d) = Z.of_N d.
Proof.
  intros H. rewrite <- (N2Nat.id d).
  destruct (N.to_nat d) as [|[|[|[|[|[|[|[|[|[|n]]]]]]]]]] eqn:E; try done. lia.
Qed.

Lemma decimal_snoc l c : decimal (l ++ [c]) = (10 * decimal l + digitValue c)%Z.
Proof. unfold decimal. by rewrite foldl_snoc. Qed.

(** The writing of a number in base 10: digits that read back as the
    number. *)
Lemma pretty_N_go_digits x :
  ∀ s, ∃ l, list_ascii_of_string (pretty.pretty_N_go x s) = l ++ list_ascii_of_string s
            ∧ Forall (fun c => isDigit c = true) l
            ∧ decimal l = Z.of_N x
            ∧ ((0 < x)%N → l ≠ []).
Proof.
  induction (N.lt_wf_0 x) as [x _ IH]. intros s.
  destruct (decide (x = 0%N)) as [->|Hx].
  - rewrite pretty.pretty_N_go_0. exists []. split; [done|]. split; [done|].
    split; [done|]. lia.
  - rewrite pretty.pretty_N_go_step by lia.
    destruct (IH (x `div` 10)%N) with (s := String (pretty.pretty_N_char (x `mod` 10)) s)
      as (l & Hl & Hd & Hv & _).
    { apply N.div_lt; lia. }
    destruct (pretty_N_char_digit (x `mod` 10)) as [Hc Hcv].
    { apply N.mod_lt. lia. }
    exists (l ++ [pretty.pretty_N_char (x `mod` 10)]). split; [|split; [|split]].
    + rewrite Hl. simpl. by rewrite <- app_assoc.
    + apply Forall_app. split; [done|]. by constructor.
    + rewrite decimal_snoc, Hv, Hcv.
      pose proof (N.div_mod x 10). lia.
    + intros _. by destruct l.
Qed.

Lemma pretty_nat_digits (n : nat) :
  list_ascii_of_string (pretty.pretty n) ≠ []
  ∧ Forall (fun c => isDigit c = true) (list_ascii_of_string (pretty.pretty n))
  ∧ decimal (list_ascii_of_string (pretty.pretty n)) = Z.of_nat n.
Proof.
  unfold pretty.pretty, pretty.pretty_nat, pretty.pretty, pretty.pretty_N.
  case_decide as Hn.
  - assert (n = 0) as -> by lia. split; [done|]. split; [|done].
    by repeat constructor.
  - destruct (pretty_N_go_digits (N.of_nat n) ""%string) as (l & Hl & Hd & Hv & Hne).
    simpl in Hl. rewrite app_nil_r in Hl. rewrite Hl.
    split; [apply Hne; lia|]. split; [done|]. lia.
Qed.

Lemma pretty_nat_octet (n : nat) :
  n ≤ 255 → isOctet (list_ascii_of_string (pretty.pretty n)).
Proof.
  intros Hn. destruct (pretty_nat_digits n) as (Hne & Hd & Hv).
  split; [|lia]. split; [|done].
  assert (Forall (fun n : nat => length (list_ascii_of_string (pretty.pretty n)) ≤ 3)
            (seq 0 256)) as Hall.
  { apply (bool_decide_unpack _). vm_compute. exact I. }
  rewrite Forall_forall in Hall. split.
  - destruct (list_ascii_of_string (pretty.pretty n)); [done|simpl; lia].
  - apply Hall, elem_of_seq. lia.
Qed.

Lemma splitOn_dotted_digits o1 o2 o3 o4 :
  Forall (Forall (fun c => isDigit c = true)) [o1; o2; o3; o4] →
  splitOn "."%char (dotted o1 o2 o3 o4) = [o1; o2; o3; o4].
Proof.
  intros (H1 & H2 & H3 & H4)%Forall_four.
  unfold dotted. by rewrite !splitOn_group, splitOn_last.
Qed.

Lemma chars_dottedQuad a b c d :
  list_ascii_of_string (dottedQuad a b c d)
  = dotted (list_ascii_of_string (pretty.pretty a)) (list_ascii_of_string (pretty.pretty b))
           (list_ascii_of_string (pretty.pretty c)) (list_ascii_of_string (pretty.pretty d)).
Proof. unfold dottedQuad, dotted. by rewrite !chars_app. Qed.

(** X18. Four numbers written in base 10 with dots between them are a
    valid address exactly when each of them is at most 255; splitting the
    address at the dots gives the four writings back, and parseInt reads
    each of them as its number. *)
Theorem dotted_quad_valid_iff a b c d :
  (validateIPAddress (dottedQuad a b c d) = true ↔ a ≤ 255 ∧ b ≤ 255 ∧ c ≤ 255 ∧ d ≤ 255)
  ∧ parseInt10 <$> splitOn "."%char (list_ascii_of_string (dottedQuad a b c d))
    = [Some (Z.of_nat a); Some (Z.of_nat b); Some (Z.of_nat c); Some (Z.of_nat d)].
Proof.
  destruct (pretty_nat_digits a) as (Na & Da & Va), (pretty_nat_digits b) as (Nb & Db & Vb),
    (pretty_nat_digits c) as (Nc & Dc & Vc), (pretty_nat_digits d) as (Nd & Dd & Vd).
  pose proof (splitOn_dotted_digits _ _ _ _ (proj2 (Forall_four _ _ _ _ _)
                (conj Da (conj Db (conj Dc Dd))))) as Hsplit.
  split.
  - split.
    + intros Hv.
      destruct (proj1 (lang_ipv4Pattern _) (validateIPAddress_pattern _ Hv))
        as (o1 & o2 & o3 & o4 & Hs & Hall).
      apply (validateIPAddress_dotted _ _ _ _ _ Hs Hall) in Hv.
      assert (Forall (Forall (fun c => isDigit c = true)) [o1; o2; o3; o4]) as Hdig.
      { eapply Forall_impl; [exact Hall|]. by intros o [_ Ho]. }
      apply splitOn_dotted_digits in Hdig.
      rewrite <- Hs, chars_dottedQuad, Hsplit in Hdig. injection Hdig as <- <- <- <-.
      apply Forall_four in Hv as (Ha & Hb & Hc & Hd). lia.
    + intros (Ha & Hb & Hc & Hd).
      assert (Forall isOctet [list_ascii_of_string (pretty.pretty a);
                              list_ascii_of_string (pretty.pretty b);
                              list_ascii_of_string (pretty.pretty c);
                              list_ascii_of_string (pretty.pretty d)]) as Hoct.
      { apply Forall_four. by repeat split; apply pretty_nat_octet. }
      apply (validateIPAddress_dotted _ _ _ _ _ (chars_dottedQuad a b c d)).
      * eapply Forall_impl; [exact Hoct|]. by intros o [Ho _].
      * eapply Forall_impl; [exact Hoct|]. by intros o [_ Ho].
  - rewrite chars_dottedQuad, Hsplit.
    assert (∀ n : nat, parseInt10 (list_ascii_of_string (pretty.pretty n))
                       = Some (Z.of_nat n)) as Hparse.
    { intros n. destruct (pretty_nat_digits n) as (Nn & Dn & Vn).
      destruct (list_ascii_of_string (pretty.pretty n)) as [|x l] eqn:E; [done|].
      apply Forall_cons in Dn as [Hx Dl].
      unfold parseInt10.
      assert (skipSpaces (x :: l) = x :: l) as ->.
      { simpl. destruct x as [[] [] [] [] [] [] [] []]; done. }
      assert (leadingDigits None (x :: l) = Some (Z.of_nat n)) as Hl.
      { simpl. rewrite Hx. simpl. rewrite leadingDigits_digits by done.
        unfold decimal in Vn. simpl in Vn. by rewrite Vn. }
      destruct x as [[] [] [] [] [] [] [] []]; done. }
    simpl. by rewrite !Hparse.
Qed.

(* ===================================================================== *)
(** ** Removing a target *)
(* ===================================================================== *)

Lemma filter_all {A} (P : A → Prop) `{∀ x, Decision (P x)} (l : list A) :
  (∀ x, x ∈ l → P x) → filter P l = l.
Proof.
  induction l as [|x l IH]; intros Hall; [done|].
  rewrite filter_cons_True by (apply Hall; by left).
  f_equal. apply IH. intros y Hy. apply Hall. by right.
Qed.

Lemma deleteOne_absent a coll :
  findOne a coll = None → deleteOne a coll = (0, coll).
Proof.
  induction coll as [|d coll IH]; simpl; [done|].
  case_bool_decide; [done|]. intros H0. by rewrite IH.
Qed.

Lemma deleteOne_present a coll d :
  UniqueAddresses coll → findOne a coll = Some d →
  deleteOne a coll = (1, filter (fun x => ip_address x ≠ a) coll).
Proof.
  unfold UniqueAddresses. induction coll as [|x coll IH]; simpl; [done|].
  rewrite NoDup_cons. intros [Hx Hnd] Hd. rewrite filter_cons. case_bool_decide as Ha.
  - rewrite decide_False by (intros Hne; by apply Hne). f_equal.
    symmetry. apply filter_all. intros y Hy Heq. apply Hx.
    rewrite Ha, <- Heq. by apply list_elem_of_fmap_2.
  - rewrite decide_True by done. by rewrite (IH Hnd Hd).
Qed.

Lemma findOne_removed a coll : findOne a (filter (fun x => ip_address x ≠ a) coll) = None.
Proof.
  apply findOne_None. intros (x & Hx & [Hne _]%list_elem_of_filter)%list_elem_of_fmap.
  by apply Hne.
Qed.

Lemma findOne_kept a b coll :
  a ≠ b → findOne b (filter (fun x => ip_address x ≠ a) coll) = findOne b coll.
Proof.
  intros Hab. induction coll as [|x coll IH]; [done|]. rewrite filter_cons. simpl.
  case_decide as Hx; simpl.
  - by rewrite IH.
  - rewrite bool_decide_false by congruence. done.
Qed.

(** Serial reconciliations never bring a missing document back, and they
    leave the events of its address alone. *)
Lemma reconcileAll_absent a cycles : ∀ w,
  NoFaults w → findOne a (ips w) = None →
  ∃ w', reconcileAll cycles w = Ok tt w'
        ∧ NoFaults w'
        ∧ findOne a (ips w') = None
        ∧ eventsOf a (downtimes w') = eventsOf a (downtimes w).
Proof.
  induction cycles as [|results cycles IH]; intros w Hnf Habs.
  - by exists w.
  - destruct (afterReconcile_absent results w a Habs) as [Hf He].
    destruct (IH (afterReconcile results w)) as (w' & Hrun & Hnf' & Hf' & He').
    { by apply NoFaults_afterReconcile. }
    { done. }
    exists w'. split; [|split; [done|split; [done|congruence]]].
    simpl. unfold bind. by rewrite updatePingResults_ok.
Qed.

(** X19. Removing a target. When no storage operation fails and the
    addresses are unique, deleteIP on a registered address answers
    'deleted': the document is gone, the other documents and the whole
    Downtime collection are as they were. The serial reconciliations that
    follow never bring the document back and never touch the events of
    the address: an event that was open at the removal stays open. *)
Theorem removed_target_events_stay a d cycles w :
  NoFaults w → UniqueAddresses (ips w) → findOne a (ips w) = Some d →
  ∃ w1 w2,
    deleteIP a w = Ok Deleted w1
    ∧ findOne a (ips w1) = None
    ∧ (∀ b, b ≠ a → findOne b (ips w1) = findOne b (ips w))
    ∧ downtimes w1 = downtimes w
    ∧ reconcileAll cycles w1 = Ok tt w2
    ∧ findOne a (ips w2) = None
    ∧ eventsOf a (downtimes w2) = eventsOf a (downtimes w).
Proof.
  intros Hnf Hu Hd. unfold deleteIP, try_catch, bind.
  rewrite storage_ok by done. rewrite (deleteOne_present a _ d Hu Hd). simpl.
  set (w1 := advance 0 1 (filter (fun x => ip_address x ≠ a) (ips w)) (downtimes w) w).
  destruct (reconcileAll_absent a cycles w1) as (w2 & Hrun & _ & Hf & He).
  { by apply NoFaults_advance. }
  { apply findOne_removed. }
  exists w1, w2. split; [done|]. split; [apply findOne_removed|].
  split; [intros b Hb; by apply findOne_kept|]. done.
Qed.

Lemma removed_target_events_stay_witness :
  ∃ w1 w2,
    deleteIP "10.0.0.1"
      (freshWorld [mkIP "10.0.0.1" Down 1 (Some 400%Z) 400 None]
         [mkDowntime "10.0.0.1" 400 None "Ping timeout"] noFault) = Ok Deleted w1
    ∧ findOne "10.0.0.1" (ips w1) = None
    ∧ (∀ b, b ≠ "10.0.0.1"%string →
            findOne b (ips w1) = findOne b [mkIP "10.0.0.1" Down 1 (Some 400%Z) 400 None])
    ∧ downtimes w1 = [mkDowntime "10.0.0.1" 400 None "Ping timeout"]
    ∧ reconcileAll [[mkOutcome "10.0.0.1" true (Ms (Qc_of_Z 12)) None]] w1 = Ok tt w2
    ∧ findOne "10.0.0.1" (ips w2) = None
    ∧ eventsOf "10.0.0.1" (downtimes w2)
      = eventsOf "10.0.0.1" [mkDowntime "10.0.0.1" 400 None "Ping timeout"].
Proof.
  apply (removed_target_events_stay "10.0.0.1" (mkIP "10.0.0.1" Down 1 (Some 400%Z) 400 None)
           [[mkOutcome "10.0.0.1" true (Ms (Qc_of_Z 12)) None]]
           (freshWorld [mkIP "10.0.0.1" Down 1 (Some 400%Z) 400 None]
              [mkDowntime "10.0.0.1" 400 None "Ping timeout"] noFault)).
  - intros n _. reflexivity.
  - unfold UniqueAddresses. vm_compute. apply NoDup_singleton.
  - reflexivity.
Defined.

(* ===================================================================== *)
(** ** The text of a duration *)
(* ===================================================================== *)

Lemma pretty_Z_digits (z : Z) :
  (0 ≤ z)%Z →
  list_ascii_of_string (pretty.pretty z) ≠ []
  ∧ Forall (fun c => isDigit c = true) (list_ascii_of_string (pretty.pretty z))
  ∧ decimal (list_ascii_of_string (pretty.pretty z)) = z.
Proof.
  intros Hz. destruct z as [|p|p]; [|clear Hz|lia].
  - split; [done|]. split; [|done]. by repeat constructor.
  - unfold pretty.pretty, pretty.pretty_Z, pretty.pretty, pretty.pretty_positive,
      pretty.pretty, pretty.pretty_N.
    rewrite decide_False by done.
    destruct (pretty_N_go_digits (N.pos p) ""%string) as (l & Hl & Hd & Hv & Hne).
    simpl in Hl. rewrite app_nil_r in Hl. rewrite Hl.
    split; [apply Hne; lia|]. split; [done|]. lia.
Qed.

Lemma spanDigits_app digits rest :
  Forall (fun c => isDigit c = true) digits →
  (∀ c rest', rest = c :: rest' → isDigit c = false) →
  spanDigits (digits ++ rest) = (digits, rest).
Proof.
  intros Hd Hr. induction Hd as [|c digits Hc _ IH]; simpl.
  - destruct rest as [|c rest']; [done|]. simpl. by rewrite (Hr c rest').
  - by rewrite Hc, IH.
Qed.

(** A number, then a character that is no digit: the number and the rest
    can be read back. *)
Lemma number_then_inj (a b : Z) c1 c2 r1 r2 :
  (0 ≤ a)%Z → (0 ≤ b)%Z → isDigit c1 = false → isDigit c2 = false →
  list_ascii_of_string (pretty.pretty a) ++ c1 :: r1
  = list_ascii_of_string (pretty.pretty b) ++ c2 :: r2 →
  a = b ∧ c1 = c2 ∧ r1 = r2.
Proof.
  intros Ha Hb H1 H2 Heq.
  destruct (pretty_Z_digits a Ha) as (_ & Da & Va), (pretty_Z_digits b Hb) as (_ & Db & Vb).
  apply (f_equal spanDigits) in Heq.
  rewrite !spanDigits_app in Heq by (done || by intros ? ? [= <- _]).
  injection Heq as Hd <- <-. split; [|done]. by rewrite <- Va, <- Vb, Hd.
Qed.

Lemma formatDuration_last (ms : Z) :
  ms ≠ 0%Z → last (list_ascii_of_string (formatDuration (Some ms))) = Some "s"%char.
Proof.
  intros Hms. unfold formatDuration. rewrite bool_decide_false by done.
  repeat case_bool_decide; rewrite !chars_app; simpl; rewrite ?app_assoc;
    change ["s"%char] with ([] ++ ["s"%char]);
    rewrite ?app_comm_cons, ?app_assoc; apply last_snoc.
Qed.

(** X20. The text of a duration tells the duration to the second: two
    positive durations get the same text from formatDuration exactly when
    they have the same number of whole seconds. *)
Theorem duration_text_to_the_second (ms1 ms2 : Z) :
  (0 < ms1)%Z → (0 < ms2)%Z →
  formatDuration (Some ms1) = formatDuration (Some ms2)
  ↔ (ms1 `div` 1000 = ms2 `div` 1000)%Z.
Proof.
  intros H1 H2. unfold formatDuration.
  rewrite (bool_decide_false (ms1 = 0%Z)), (bool_decide_false (ms2 = 0%Z)) by lia.
  set (s1 := (ms1 `div` 1000)%Z). set (s2 := (ms2 `div` 1000)%Z).
  assert (0 ≤ s1)%Z as Hs1 by (apply Z.div_pos; lia).
  assert (0 ≤ s2)%Z as Hs2 by (apply Z.div_pos; lia).
  clearbody s1 s2. split; [|by intros ->].
  assert (∀ s, (0 ≤ s)%Z →
            (0 ≤ s `div` 60 ∧ 0 ≤ (s `div` 60) `div` 60
             ∧ 0 ≤ s `rem` 60 < 60 ∧ 0 ≤ (s `div` 60) `rem` 60 < 60
             ∧ s = (s `div` 60) * 60 + s `rem` 60
             ∧ s `div` 60 = ((s `div` 60) `div` 60) * 60 + (s `div` 60) `rem` 60)%Z)
    as Hparts.
  { intros s Hs. assert (0 ≤ s `div` 60)%Z as Hm by (apply Z.div_pos; lia).
    rewrite !Z.rem_mod_nonneg by lia.
    pose proof (Z.div_mod s 60). pose proof (Z.div_mod (s `div` 60) 60).
    pose proof (Z.mod_pos_bound s 60). pose proof (Z.mod_pos_bound (s `div` 60) 60).
    assert (0 ≤ (s `div` 60) `div` 60)%Z by (apply Z.div_pos; lia). lia. }
  destruct (Hparts s1 Hs1) as (Hm1 & Hh1 & Hr1 & Hq1 & E1 & F1),
    (Hparts s2 Hs2) as (Hm2 & Hh2 & Hr2 & Hq2 & E2 & F2).
  intros Heq%(f_equal list_ascii_of_string).
  repeat case_bool_decide; rewrite !chars_app in Heq; simpl in Heq;
    repeat match goal with
           | H : list_ascii_of_string (pretty.pretty _) ++ _ :: _
                 = list_ascii_of_string (pretty.pretty _) ++ _ :: _ |- _ =>
               apply number_then_inj in H as (? & ? & ?); [|lia|lia|done|done]
           | H : " "%char :: _ = " "%char :: _ |- _ => injection H as H
           end;
    try discriminate; lia.
Qed.

Lemma duration_text_to_the_second_witness :
  formatDuration (Some 3723004%Z) = formatDuration (Some 3723999%Z)
  ↔ (3723004 `div` 1000 = 3723999 `div` 1000)%Z.
Proof. apply (duration_text_to_the_second 3723004 3723999); lia. Defined.

(** X21. The durationFormatted column reads 'Ongoing' exactly for the
    events without duration and for those closed with duration 0, an
    event closed in the millisecond it was opened in; every other event
    gets the text of its duration, which is not empty. *)
Theorem ongoing_iff_no_duration dt :
  (durationFormatted dt = "Ongoing"%string
   ↔ dt_duration dt = None ∨ dt_duration dt = Some 0%Z)
  ∧ (durationFormatted dt ≠ "Ongoing"%string →
     durationFormatted dt = formatDuration (dt_duration dt)
     ∧ durationFormatted dt ≠ ""%string).
Proof.
  unfold durationFormatted. destruct (dt_duration dt) as [ms|]; [|naive_solver].
  case_bool_decide as Hms; [naive_solver|].
  pose proof (formatDuration_last ms Hms) as Hlast.
  assert (formatDuration (Some ms) ≠ "Ongoing"%string) as Hne.
  { intros Heq. by rewrite Heq in Hlast. }
  split; [split; [done|]|].
  - intros [[=]|[= ->]]. done.
  - intros _. split; [done|]. intros Heq. by rewrite Heq in Hlast.
Qed.
